(** * SnapSync: a shallow embedding of the data engine

    The development follows the Go packages of the repository:
    [chunker] (content-defined chunking), [store] (the content-addressable
    store), [compress], [crypto], [scanner], [diff], [snapshot] (the
    manager) and [restore].  Go values are modelled as the code has them:
    a [[]byte] is a [list byte], a Go [string] is a [string], a Go [map] is
    a [gmap], an [int] that indexes a slice is a [nat], any other integer
    is a [Z] with its wrap-around written out, and a function that returns
    [(T, error)] returns a [Result T].

    Code outside the repository is handled in one of two ways.  The Go
    standard library functions whose values the properties depend on
    ([crypto/sha256], [encoding/hex], [path/filepath.Match],
    [path/filepath.Clean], [strings.Contains]) are written out.  Third-party libraries (the zstd
    codec, the AES-GCM AEAD, the Rabin-Karp rolling hash) and the operating
    system (clock, directory walk, file reads, randomness, write failures)
    are interfaces: type classes for the libraries, an oracle indexed by the
    number of system calls made so far for the operating system. *)

From Stdlib Require Import ZArith List Lia Bool.
From Stdlib Require Import Strings.String Strings.Ascii Strings.Byte.
From stdpp Require Import base option list gmap strings pretty.

Set Warnings "-register-all".

Local Open Scope string_scope.
Local Open Scope list_scope.
Local Open Scope Z_scope.

(** ** Bytes, errors and results *)

Abbreviation bytes := (list byte).

#[global] Instance byte_eq_dec : EqDecision byte := Byte.byte_eq_dec.

Definition byte_to_Z (b : byte) : Z := Z.of_N (Byte.to_N b).

Definition byte_of_Z (z : Z) : byte :=
  match Byte.of_N (Z.to_N (z mod 256)) with
  | Some b => b
  | None => x00
  end.

Definition bytes_of_string (s : string) : bytes := list_byte_of_string s.

(** Go's [int] and [int64] on a 64-bit platform: two's complement wrap. *)
Definition wrap64 (z : Z) : Z := (z + 2 ^ 63) mod 2 ^ 64 - 2 ^ 63.

(** [uint64(x)] for an [int] x. *)
Definition to_uint64 (z : Z) : Z := z mod 2 ^ 64.

(** The errors the engine produces, one constructor per error site.  The
    source builds them with [fmt.Errorf]; the payload is the text that the
    source interpolates. *)
Inductive error : Type :=
| ErrIO (what : string)              (* an operating-system failure *)
| ErrNotExist (path : string)        (* os: file does not exist *)
| ErrNotFound (hash : string)        (* "object not found: %s" *)
| ErrCorruption (hash : string)      (* "object corruption detected: %s" *)
| ErrUnknownAlgorithm (alg : string) (* "unknown algorithm: %s" *)
| ErrNonce                           (* "failed to generate nonce" *)
| ErrCiphertextTooShort              (* "ciphertext too short" *)
| ErrDecrypt                         (* "decryption failed" *)
| ErrDecode                          (* zstd: DecodeAll failed *)
| ErrJSON                            (* encoding/json: Unmarshal failed *)
| ErrWrap (context : string) (cause : error). (* fmt.Errorf("...: %w", err) *)

Inductive Result (A : Type) : Type :=
| Ok (a : A)
| Err (e : error).
Arguments Ok {A} a.
Arguments Err {A} e.

(** ** crypto/sha256 and encoding/hex (Go standard library)

    SHA-256 after FIPS 180-4, on 32-bit words held in [Z]. *)
Module sha256.

Definition w32 (z : Z) : Z := z mod 2 ^ 32.
Definition add32 (a b : Z) : Z := w32 (a + b).
Definition rotr (n x : Z) : Z := Z.lor (Z.shiftr x n) (w32 (Z.shiftl x (32 - n))).
Definition not32 (x : Z) : Z := Z.lxor x (2 ^ 32 - 1).

Definition Ch (x y z : Z) : Z := Z.lxor (Z.land x y) (Z.land (not32 x) z).
Definition Maj (x y z : Z) : Z :=
  Z.lxor (Z.lxor (Z.land x y) (Z.land x z)) (Z.land y z).
Definition Sigma0 (x : Z) : Z := Z.lxor (Z.lxor (rotr 2 x) (rotr 13 x)) (rotr 22 x).
Definition Sigma1 (x : Z) : Z := Z.lxor (Z.lxor (rotr 6 x) (rotr 11 x)) (rotr 25 x).
Definition sigma0 (x : Z) : Z := Z.lxor (Z.lxor (rotr 7 x) (rotr 18 x)) (Z.shiftr x 3).
Definition sigma1 (x : Z) : Z := Z.lxor (Z.lxor (rotr 17 x) (rotr 19 x)) (Z.shiftr x 10).

(** The round constants (the first 32 bits of the fractional parts of the
    cube roots of the first 64 primes), in decimal. *)
Definition K : list Z :=
  [
    1116352408; 1899447441; 3049323471; 3921009573;
    961987163; 1508970993; 2453635748; 2870763221;
    3624381080; 310598401; 607225278; 1426881987;
    1925078388; 2162078206; 2614888103; 3248222580;
    3835390401; 4022224774; 264347078; 604807628;
    770255983; 1249150122; 1555081692; 1996064986;
    2554220882; 2821834349; 2952996808; 3210313671;
    3336571891; 3584528711; 113926993; 338241895;
    666307205; 773529912; 1294757372; 1396182291;
    1695183700; 1986661051; 2177026350; 2456956037;
    2730485921; 2820302411; 3259730800; 3345764771;
    3516065817; 3600352804; 4094571909; 275423344;
    430227734; 506948616; 659060556; 883997877;
    958139571; 1322822218; 1537002063; 1747873779;
    1955562222; 2024104815; 2227730452; 2361852424;
    2428436474; 2756734187; 3204031479; 3329325298 ].

(** The initial hash value (from the square roots of the first 8 primes). *)
Definition H0 : list Z :=
  [
    1779033703; 3144134277; 1013904242; 2773480762;
    1359893119; 2600822924; 528734635; 1541459225 ].

(** Big-endian encoding of [z] on [n] bytes. *)
Fixpoint be_bytes (n : nat) (z : Z) : list Z :=
  match n with
  | O => []
  | S n' => be_bytes n' (Z.shiftr z 8) ++ [z mod 256]
  end.

Definition be_word (bs : list Z) : Z :=
  fold_left (fun acc b => acc * 256 + b) bs 0.

(** The message followed by 0x80, zeros up to 56 mod 64, and the bit length
    on eight bytes. *)
Definition pad (msg : list Z) : list Z :=
  let len := Z.of_nat (length msg) in
  let zeros := Z.to_nat ((55 - len) mod 64) in
  msg ++ [128] ++ repeat 0 zeros ++ be_bytes 8 (8 * len).

(** The 64-entry message schedule of one 64-byte block. *)
Fixpoint extend (n : nat) (w : list Z) : list Z :=
  match n with
  | O => w
  | S n' =>
      let i := length w in
      let at_ k := nth (i - k) w 0 in
      extend n' (w ++ [add32 (add32 (sigma1 (at_ 2%nat)) (at_ 7%nat))
                              (add32 (sigma0 (at_ 15%nat)) (at_ 16%nat))])
  end.

Fixpoint words (n : nat) (block : list Z) : list Z :=
  match n with
  | O => []
  | S n' => be_word (firstn 4 block) :: words n' (skipn 4 block)
  end.

Definition round (st : list Z) (kw : Z * Z) : list Z :=
  match st with
  | [a; b; c; d; e; f; g; h] =>
      let t1 := add32 (add32 (add32 h (Sigma1 e)) (add32 (Ch e f g) (fst kw))) (snd kw) in
      let t2 := add32 (Sigma0 a) (Maj a b c) in
      [add32 t1 t2; a; b; c; add32 d t1; e; f; g]
  | _ => st
  end.

Definition block (h : list Z) (blk : list Z) : list Z :=
  let w := extend 48 (words 16 blk) in
  let st := fold_left round (combine K w) h in
  map (fun p => add32 (fst p) (snd p)) (combine h st).

Fixpoint blocks (n : nat) (h : list Z) (msg : list Z) : list Z :=
  match n with
  | O => h
  | S n' => blocks n' (block h (firstn 64 msg)) (skipn 64 msg)
  end.

(** [sha256.Sum256]: the 32-byte digest. *)
Definition Sum256 (data : bytes) : bytes :=
  let msg := pad (map byte_to_Z data) in
  let h := blocks (length msg / 64) H0 msg in
  map byte_of_Z (flat_map (be_bytes 4) h).

End sha256.

Module hex.

Definition digit (n : Z) : ascii :=
  ascii_of_nat (Z.to_nat (if n <? 10 then 48 + n else 87 + n)).

(** [hex.EncodeToString]: two lowercase digits per byte. *)
Fixpoint EncodeToString (bs : bytes) : string :=
  match bs with
  | [] => EmptyString
  | b :: rest =>
      String (digit (byte_to_Z b / 16))
        (String (digit (byte_to_Z b mod 16)) (EncodeToString rest))
  end.

(** The value of a hexadecimal digit of either case, as Go's
    [reverseHexTable] has it; [None] for any other byte. *)
Definition fromHexChar (c : ascii) : option Z :=
  let n := Z.of_nat (nat_of_ascii c) in
  if (48 <=? n) && (n <=? 57) then Some (n - 48)
  else if (97 <=? n) && (n <=? 102) then Some (n - 97 + 10)
  else if (65 <=? n) && (n <=? 70) then Some (n - 65 + 10)
  else None.

Inductive decodeError : Type :=
| ErrLength
| InvalidByteError (c : ascii).

(** [hex.Decode]: the bytes decoded before the first error, and the
    error.  In a pair of digits the first is checked first; an odd digit
    at the end is checked before the odd length is reported. *)
Fixpoint Decode (src : string) : bytes * option decodeError :=
  match src with
  | EmptyString => ([], None)
  | String p EmptyString =>
      match fromHexChar p with
      | None => ([], Some (InvalidByteError p))
      | Some _ => ([], Some ErrLength)
      end
  | String p (String q rest) =>
      match fromHexChar p, fromHexChar q with
      | None, _ => ([], Some (InvalidByteError p))
      | Some _, None => ([], Some (InvalidByteError q))
      | Some a, Some b =>
          let '(out, err) := Decode rest in
          (byte_of_Z (Z.lor (Z.shiftl a 4) b) :: out, err)
      end
  end.

(** [hex.DecodeString] *)
Definition DecodeString (s : string) : bytes * option decodeError := Decode s.

End hex.

(** The digest string every component uses as an object's name:
    [hex.EncodeToString(sha256.Sum256(data))]. *)
Definition digest (data : bytes) : string :=
  hex.EncodeToString (sha256.Sum256 data).
Arguments digest : simpl never.

(** ** pkg/models *)
Module models.

(** [models.Chunk] *)
Module Chunk.
Record t : Type := mk {
  Hash : string;   (* SHA-256 hash of the chunk data *)
  Size : Z;        (* int64 *)
  Offset : Z;      (* int64 *)
  Data : bytes;
}.
End Chunk.

(** [models.FileNode].  [Mode] is the [os.FileMode] word, [ModTime] the
    modification time in nanoseconds. *)
Module FileNode.
Record t : Type := mk {
  Path : string;
  Name : string;
  IsDir : bool;
  Mode : Z;
  Size : Z;
  ModTime : Z;
  Hash : string;
  Chunks : list string;
}.
Definition with_Hash (h : string) (n : t) : t :=
  mk (Path n) (Name n) (IsDir n) (Mode n) (Size n) (ModTime n) h (Chunks n).
Definition with_Chunks (cs : list string) (n : t) : t :=
  mk (Path n) (Name n) (IsDir n) (Mode n) (Size n) (ModTime n) (Hash n) cs.
End FileNode.

(** [models.FileTree] *)
Module FileTree.
Record t : Type := mk {
  Root : FileNode.t;
  Files : gmap string FileNode.t;
  TotalSize : Z;
  FileCount : Z;
  DirCount : Z;
}.
Definition with_Files (fs : gmap string FileNode.t) (tr : t) : t :=
  mk (Root tr) fs (TotalSize tr) (FileCount tr) (DirCount tr).
End FileTree.

(** [models.SnapshotStats]; the floating-point [CompressionRatio], which
    the manager never sets, is left out. *)
Module SnapshotStats.
Record t : Type := mk {
  TotalSize : Z;
  StoredSize : Z;
  ChunkCount : Z;
  NewChunks : Z;
  DeduplicatedSize : Z;
  Duration : Z;
  FilesAdded : Z;
  FilesModified : Z;
  FilesDeleted : Z;
  FilesUnchanged : Z;
}.
End SnapshotStats.

(** [models.Snapshot] *)
Module Snapshot.
Record t : Type := mk {
  ID : string;
  Timestamp : Z;
  Parent : string;
  Description : string;
  Tree : FileTree.t;
  Stats : SnapshotStats.t;
  Encrypted : bool;
  Compressed : bool;
}.
End Snapshot.

(** [models.DiffType] and [models.FileDiff] *)
Inductive DiffType : Type := DiffAdded | DiffModified | DiffDeleted | DiffUnchanged.

Module FileDiff.
Record t : Type := mk {
  Path : string;
  Type_ : DiffType;
  OldHash : string;
  NewHash : string;
  OldSize : Z;
  NewSize : Z;
  OldChunks : list string;
  NewChunks : list string;
}.
End FileDiff.

(** [models.RestoreOptions] *)
Module RestoreOptions.
Record t : Type := mk {
  SnapshotID : string;
  TargetPath : string;
  IncludePattern : list string;
  ExcludePattern : list string;
  Overwrite : bool;
  PreservePerms : bool;
  DryRun : bool;
}.
End RestoreOptions.

End models.

(** ** io.Reader

    A reader is the script of what its successive [Read(buf)] calls return:
    the bytes delivered and the error returned with them.  A script that has
    run out returns [(0, io.EOF)]. *)
Inductive ioerr : Type :=
| EOF
| ReadError (e : error).

Definition Reader : Type := list (bytes * option ioerr).

(** A reader over [blocks] that never fails: each [Read] delivers the next
    block, then end of file. *)
Definition reader_of (blocks : list bytes) : Reader :=
  map (fun b => (b, None)) blocks.

(** [io.ReadAll] / [io.Copy]: everything up to end of file, or the first
    error. *)
Fixpoint ReadAll (r : Reader) : Result bytes :=
  match r with
  | [] => Ok []
  | (data, Some EOF) :: _ => Ok data
  | (data, Some (ReadError e)) :: _ => Err e
  | (data, None) :: rest =>
      match ReadAll rest with
      | Ok more => Ok (data ++ more)
      | Err e => Err e
      end
  end.

(** ** github.com/chmduquesne/rollinghash/rabinkarp64 (third party)

    The chunker uses the hash through this interface only. *)
Class RollingHash : Type := {
  rk_state : Type;
  rk_New : rk_state;
  rk_Write : rk_state -> bytes -> rk_state;
  rk_Roll : rk_state -> byte -> rk_state;
  rk_Sum64 : rk_state -> Z;   (* uint64 *)
  rk_Reset : rk_state -> rk_state;
}.

(** ** github.com/klauspost/compress/zstd (third party) *)
Inductive EncoderLevel : Type :=
| SpeedFastest
| SpeedDefault
| SpeedBetterCompression
| SpeedBestCompression.

Class Zstd : Type := {
  zstd_EncodeAll : EncoderLevel -> bytes -> bytes;
  zstd_DecodeAll : bytes -> Result bytes;
}.

(** The codec's contract: decoding an encoding gives the input back. *)
Definition ZstdRoundTrip `{Zstd} : Prop :=
  forall level data, zstd_DecodeAll (zstd_EncodeAll level data) = Ok data.

(** [zstd.EncoderLevelFromZstd] *)
Definition EncoderLevelFromZstd (level : Z) : EncoderLevel :=
  if level <? 3 then SpeedFastest
  else if level <? 6 then SpeedDefault
  else if level <? 10 then SpeedBetterCompression
  else SpeedBestCompression.

(** ** crypto/cipher: the AEAD (AES-256-GCM) *)
Class AEAD : Type := {
  (* Seal(nil, nonce, plaintext, nil): ciphertext and tag *)
  aead_Seal : bytes -> bytes -> bytes -> bytes;
  (* Open(nil, nonce, ciphertext, nil) *)
  aead_Open : bytes -> bytes -> bytes -> option bytes;
}.

(** The AEAD's contract: opening a sealed message under the same key and
    nonce gives the plaintext back. *)
Definition AEADRoundTrip `{AEAD} : Prop :=
  forall key nonce plaintext,
    aead_Open key nonce (aead_Seal key nonce plaintext) = Some plaintext.

(** ** golang.org/x/crypto/argon2 (third party) *)
Class Argon2 : Type := {
  (* argon2.IDKey(password, salt, time, memory, threads, keyLen) *)
  argon2_IDKey : bytes -> bytes -> Z -> Z -> Z -> Z -> bytes;
}.

(** The function's contract on lengths: the key has [keyLen] bytes. *)
Definition Argon2Length `{Argon2} : Prop :=
  forall password salt time memory threads keyLen,
    0 <= keyLen ->
    Z.of_nat (length (argon2_IDKey password salt time memory threads keyLen)) = keyLen.
(** ** The operating system

    What the engine asks of the operating system and cannot decide itself
    is answered by an oracle, indexed by the number of such requests made
    so far ([tick]).  Every behaviour of the environment, failures included,
    is some oracle. *)

(** What [filepath.Walk] finds below the source path.  [FsBroken] is an
    entry whose [lstat] or directory read fails: Walk hands the error to the
    callback. *)
Inductive FsEntry : Type :=
| FsFile (name : string) (mode size mtime : Z)
| FsDir (name : string) (mode size mtime : Z) (children : list FsEntry)
| FsBroken (name : string) (e : error).

(** The outcome of [os.WriteFile] or of [File.Write]: success, or failure
    after the first [n] bytes reached the file ([None]: the file was not
    even created). *)
Inductive WriteOutcome : Type :=
| WriteOk
| WriteFailed (e : error) (written : option nat).

Class OS : Type := {
  os_now : nat -> Z;                        (* time.Now(), in nanoseconds *)
  os_walk : nat -> string -> Result FsEntry; (* os.Stat and filepath.Walk *)
  os_open : nat -> string -> Result Reader;  (* os.Open, then its Reads *)
  os_rand : nat -> option bytes;            (* crypto/rand.Read *)
  os_call : nat -> option error;            (* MkdirAll, Create, Remove *)
  os_write : nat -> WriteOutcome;           (* WriteFile, File.Write *)
}.

(** An environment in which no directory creation, file creation, removal
    or write fails. *)
Definition FaultFree `{OS} : Prop :=
  forall t, os_call t = None /\ os_write t = WriteOk.

(** A restored file. *)
Record TargetFile : Type := mkTargetFile {
  tf_data : bytes;
  tf_mode : option Z;     (* set by os.Chmod *)
  tf_mtime : option Z;    (* set by os.Chtimes *)
}.

(** The file systems the engine writes, one map per directory tree:
    the object files below <repo>/objects by path, the files of
    <repo>/snapshots by name ([None]: a file that is not a well-formed
    record; a well-formed one is held as the record that
    [json.MarshalIndent] wrote and [json.Unmarshal] reads back), and the
    files below a restore target by path. *)
Record World : Type := mkWorld {
  tick : nat;
  objects : gmap string bytes;
  snapshots : gmap string (option models.Snapshot.t);
  targets : gmap string TargetFile;
}.

Definition with_tick (t : nat) (w : World) : World :=
  mkWorld t (objects w) (snapshots w) (targets w).
Definition with_objects (o : gmap string bytes) (w : World) : World :=
  mkWorld (tick w) o (snapshots w) (targets w).
Definition with_snapshots (s : gmap string (option models.Snapshot.t)) (w : World) : World :=
  mkWorld (tick w) (objects w) s (targets w).
Definition with_targets (t : gmap string TargetFile) (w : World) : World :=
  mkWorld (tick w) (objects w) (snapshots w) t.

Definition next (w : World) : World := with_tick (S (tick w)) w.

(** ** Sequencing

    A computation on state [S] that returns a value or an error; the state
    survives an error, as the files written before a failure do. *)
Definition M (S A : Type) : Type := S -> Result A * S.

Definition ret {S A} (a : A) : M S A := fun s => (Ok a, s).

Definition fail {S A} (e : error) : M S A := fun s => (Err e, s).

Definition bind {S A B} (m : M S A) (k : A -> M S B) : M S B :=
  fun s =>
    match m s with
    | (Ok a, s') => k a s'
    | (Err e, s') => (Err e, s')
    end.

(** [if err != nil { return nil, fmt.Errorf(context + ": %w", err) }] *)
Definition wrapping {S A} (context : string) (m : M S A) : M S A :=
  fun s =>
    match m s with
    | (Ok a, s') => (Ok a, s')
    | (Err e, s') => (Err (ErrWrap context e), s')
    end.

Definition lift {S A} (r : Result A) : M S A := fun s => (r, s).

Notation "x <- m ;; k" := (bind m (fun x => k))
  (at level 100, m at next level, right associativity).

(** A [for ... range] loop over [l] with an accumulator, left at the first
    error. *)
Fixpoint forM {S A B} (f : B -> A -> M S B) (l : list A) (acc : B) : M S B :=
  match l with
  | [] => ret acc
  | a :: rest => acc' <- f acc a ;; forM f rest acc'
  end.

(** The steps that such a loop takes.  [reaches f l acc0 s0 acc a s]: the
    loop over [l], started with accumulator [acc0] in state [s0], comes to
    the element [a] with accumulator [acc] in state [s], every step before
    it having succeeded; the step on [a] is then [f acc a s]. *)
Inductive reaches {S A B} (f : B -> A -> M S B)
  : list A -> B -> S -> B -> A -> S -> Prop :=
| reaches_first a rest acc s :
    reaches f (a :: rest) acc s acc a s
| reaches_later a rest acc s acc' s' acc1 a1 s1 :
    f acc a s = (Ok acc', s') ->
    reaches f rest acc' s' acc1 a1 s1 ->
    reaches f (a :: rest) acc s acc1 a1 s1.

(** ** strings (Go standard library) *)
Module strings.

Fixpoint HasPrefix (s prefix : string) {struct prefix} : bool :=
  match prefix, s with
  | EmptyString, _ => true
  | String p prefix', String c s' =>
      if decide (p = c) then HasPrefix s' prefix' else false
  | String _ _, EmptyString => false
  end.

(** [strings.Contains] *)
Fixpoint Contains (s substr : string) : bool :=
  if HasPrefix s substr then true
  else match s with
       | EmptyString => false
       | String _ s' => Contains s' substr
       end.

Fixpoint HasSuffix (s suffix : string) : bool :=
  if decide (s = suffix) then true
  else match s with
       | EmptyString => false
       | String _ s' => HasSuffix s' suffix
       end.

Fixpoint drop (n : nat) (s : string) : string :=
  match n, s with
  | O, _ => s
  | S n', String _ s' => drop n' s'
  | S _, EmptyString => EmptyString
  end.

Fixpoint ReplaceAll_go (fuel : nat) (s old new : string) : string :=
  match fuel, s with
  | S fuel', String c s' =>
      if HasPrefix s old
      then new +:+ ReplaceAll_go fuel' (drop (String.length old) s) old new
      else String c (ReplaceAll_go fuel' s' old new)
  | _, _ => s
  end.

(** [strings.ReplaceAll(s, old, new)] for a non-empty [old]: the
    non-overlapping occurrences, left to right. *)
Definition ReplaceAll (s old new : string) : string :=
  ReplaceAll_go (String.length s) s old new.

End strings.

(** ** path/filepath (Go standard library, Unix)

    Patterns and names are taken to be ASCII, where a rune is a byte. *)
Module filepath.

Definition Separator : ascii := "/"%char.

(** The names of a slash-separated path, from the top down; [cur] is the
    name read so far. *)
Fixpoint names (cur path : string) : list string :=
  match path with
  | EmptyString => [cur]
  | String c rest =>
      if decide (c = Separator) then cur :: names "" rest
      else names (cur +:+ String c "") rest
  end.

(** The names that [filepath.Clean] keeps, last name first in [out]: an
    empty name and "." are dropped; ".." removes the name before it, and
    is kept at the front of a path that is not rooted, where there is no
    name to remove. *)
Fixpoint cleanNames (rooted : bool) (ns out : list string) : list string :=
  match ns with
  | [] => out
  | n :: rest =>
      if decide (n = "") then cleanNames rooted rest out
      else if decide (n = ".") then cleanNames rooted rest out
      else if decide (n = "..") then
        match out with
        | top :: below =>
            if decide (top = "..") then cleanNames rooted rest (n :: out)
            else cleanNames rooted rest below
        | [] => if rooted then cleanNames rooted rest [] else cleanNames rooted rest [n]
        end
      else cleanNames rooted rest (n :: out)
  end.

Fixpoint joinNames (ns : list string) : string :=
  match ns with
  | [] => ""
  | [n] => n
  | n :: rest => n +:+ "/" +:+ joinNames rest
  end.

(** [filepath.Clean]: the shortest path equivalent to [path] by purely
    lexical processing. *)
Definition Clean (path : string) : string :=
  match path with
  | EmptyString => "."
  | String c _ =>
      let rooted := bool_decide (c = Separator) in
      let out := rev (cleanNames rooted (names "" path) []) in
      if rooted then "/" +:+ joinNames out
      else match out with
           | [] => "."
           | _ => joinNames out
           end
  end.

(** A relative path as the scanner records them and as keys are written:
    names separated by single slashes, none of them empty, "." or "..". *)
Definition cleanRel (path : string) : bool :=
  forallb (fun n => negb (bool_decide (n = "") || bool_decide (n = ".")
                          || bool_decide (n = "..")))
          (names "" path).

(** [filepath.Join] of elements on which the [Clean] that ends it changes
    nothing: the non-empty ones, separated by a slash.  That is so when
    the first element is a clean path other than "." and "/" and each
    later one is empty or a clean relative path, as with a directory and
    a path or name below it. *)
Fixpoint Join (elem : list string) : string :=
  match elem with
  | [] => ""
  | e :: rest =>
      if decide (e = "") then Join rest
      else match Join rest with
           | "" => e
           | r => e +:+ "/" +:+ r
           end
  end.

Fixpoint dropSeps (cs : list ascii) : list ascii :=
  match cs with
  | c :: cs' => if decide (c = Separator) then dropSeps cs' else cs
  | [] => []
  end.

Fixpoint untilSep (cs : list ascii) : list ascii :=
  match cs with
  | c :: cs' => if decide (c = Separator) then [] else c :: untilSep cs'
  | [] => []
  end.

(** [filepath.Base]: the last element of the path, trailing slashes
    removed. *)
Definition Base (path : string) : string :=
  if decide (path = "") then "."
  else
    let last := untilSep (dropSeps (rev (list_ascii_of_string path))) in
    if decide (last = []) then "/" else string_of_list_ascii (rev last).

(** What [matchChunk] returns: the rest of the name after a match, no
    match, or [ErrBadPattern]. *)
Inductive chunkResult : Type :=
| Matched (rest : string)
| NoMatch
| BadPattern.

(** [scanChunk], after the leading stars: the chunk up to the next star
    outside a character class, and the rest of the pattern. *)
Fixpoint scanRest (inrange : bool) (pattern : string) : string * string :=
  match pattern with
  | EmptyString => (EmptyString, EmptyString)
  | String c rest =>
      if decide (c = "\"%char) then
        match rest with
        | String c' rest' =>
            let '(chunk, r) := scanRest inrange rest' in (String c (String c' chunk), r)
        | EmptyString => (String c EmptyString, EmptyString)
        end
      else if decide (c = "["%char) then
        let '(chunk, r) := scanRest true rest in (String c chunk, r)
      else if decide (c = "]"%char) then
        let '(chunk, r) := scanRest false rest in (String c chunk, r)
      else if decide (c = "*"%char) then
        if inrange then let '(chunk, r) := scanRest inrange rest in (String c chunk, r)
        else (EmptyString, pattern)
      else
        let '(chunk, r) := scanRest inrange rest in (String c chunk, r)
  end.

Fixpoint dropStars (pattern : string) : bool * string :=
  match pattern with
  | String c rest =>
      if decide (c = "*"%char) then (true, snd (dropStars rest)) else (false, pattern)
  | EmptyString => (false, pattern)
  end.

(** [scanChunk]: (star, chunk, rest). *)
Definition scanChunk (pattern : string) : bool * string * string :=
  let '(star, pattern) := dropStars pattern in
  let '(chunk, rest) := scanRest false pattern in
  (star, chunk, rest).

(** [getEsc]: a possibly escaped character of a class, and the chunk after
    it; [None] is [ErrBadPattern]. *)
Definition getEsc (chunk : string) : option (ascii * string) :=
  match chunk with
  | EmptyString => None
  | String c rest =>
      if decide (c = "-"%char) then None
      else if decide (c = "]"%char) then None
      else
        let chunk := if decide (c = "\"%char) then rest else chunk in
        match chunk with
        | EmptyString => None
        | String r nchunk =>
            if decide (nchunk = EmptyString) then None else Some (r, nchunk)
        end
  end.

Definition inRange (lo r hi : ascii) : bool :=
  (nat_of_ascii lo <=? nat_of_ascii r)%nat && (nat_of_ascii r <=? nat_of_ascii hi)%nat.

(** The loop of [matchChunk] over the ranges of a character class: whether
    [r] matched one of them, and the chunk after the closing bracket. *)
Fixpoint classLoop (fuel : nat) (chunk : string) (r : ascii) (nrange : nat)
    (matched : bool) : option (bool * string) :=
  match fuel with
  | O => None
  | S fuel' =>
      let ranges :=
        match getEsc chunk with
        | None => None
        | Some (lo, String c rest as chunk1) =>
            if decide (c = "-"%char) then
              match getEsc rest with
              | None => None
              | Some (hi, chunk2) =>
                  classLoop fuel' chunk2 r (S nrange) (matched || inRange lo r hi)
              end
            else classLoop fuel' chunk1 r (S nrange) (matched || inRange lo r lo)
        | Some (lo, EmptyString) => None
        end in
      match chunk with
      | String c rest =>
          if decide (c = "]"%char) then
            if (0 <? nrange)%nat then Some (matched, rest) else ranges
          else ranges
      | EmptyString => ranges
      end
  end.

(** [matchChunk], the loop over the chunk; [failed] records that the match
    has failed, after which the chunk is only checked for well-formedness. *)
Fixpoint matchChunk_go (fuel : nat) (chunk s : string) (failed : bool) : chunkResult :=
  match fuel with
  | O => BadPattern
  | S fuel' =>
      match chunk with
      | EmptyString => if failed then NoMatch else Matched s
      | String c chunk1 =>
          let failed := failed || bool_decide (s = EmptyString) in
          let literal (c : ascii) (chunk' : string) :=
            match failed, s with
            | false, String c0 s' =>
                matchChunk_go fuel' chunk' s' (negb (bool_decide (c = c0)))
            | _, _ => matchChunk_go fuel' chunk' s failed
            end in
          if decide (c = "["%char) then
            let '(r, s') :=
              match failed, s with
              | false, String c0 s' => (c0, s')
              | _, _ => (zero, s)
              end in
            let '(negated, chunk2) :=
              match chunk1 with
              | String c' rest =>
                  if decide (c' = "^"%char) then (true, rest) else (false, chunk1)
              | EmptyString => (false, chunk1)
              end in
            match classLoop fuel' chunk2 r 0 false with
            | None => BadPattern
            | Some (m, chunk3) =>
                matchChunk_go fuel' chunk3 s' (failed || Bool.eqb m negated)
            end
          else if decide (c = "?"%char) then
            match failed, s with
            | false, String c0 s' =>
                matchChunk_go fuel' chunk1 s' (bool_decide (c0 = Separator))
            | _, _ => matchChunk_go fuel' chunk1 s failed
            end
          else if decide (c = "\"%char) then
            match chunk1 with
            | EmptyString => BadPattern
            | String c' chunk2 => literal c' chunk2
            end
          else literal c chunk1
      end
  end.

(** [matchChunk(chunk, s)] *)
Definition matchChunk (chunk s : string) : chunkResult :=
  matchChunk_go (S (String.length chunk)) chunk s false.

(** The search of [Match] for a position at which the chunk after a star
    matches: the star skips [i+1] bytes, none of them a separator. *)
Fixpoint starLoop (chunk : string) (lastChunk : bool) (name : string) : chunkResult :=
  match name with
  | EmptyString => NoMatch
  | String c rest =>
      if decide (c = Separator) then NoMatch
      else match matchChunk chunk rest with
           | Matched t =>
               if lastChunk && negb (bool_decide (t = EmptyString))
               then starLoop chunk lastChunk rest
               else Matched t
           | BadPattern => BadPattern
           | NoMatch => starLoop chunk lastChunk rest
           end
  end.

Fixpoint Match_go (fuel : nat) (pattern name : string) : bool :=
  match fuel with
  | O => false
  | S fuel' =>
      if decide (pattern = EmptyString) then bool_decide (name = EmptyString)
      else
        let '(star, chunk, pattern) := scanChunk pattern in
        if star && bool_decide (chunk = EmptyString)
        then negb (strings.Contains name "/")
        else
          let search :=
            if star then
              match starLoop chunk (bool_decide (pattern = EmptyString)) name with
              | Matched t => Match_go fuel' pattern t
              | _ => false
              end
            else false in
          match matchChunk chunk name with
          | Matched t =>
              if bool_decide (t = EmptyString) || negb (bool_decide (pattern = EmptyString))
              then Match_go fuel' pattern t
              else search
          | BadPattern => false
          | NoMatch => search
          end
  end.

(** [matched, _ := filepath.Match(pattern, name)]: the callers in this
    repository drop the error, and [matched] is false whenever there is
    one. *)
Definition Match (pattern name : string) : bool :=
  Match_go (S (String.length pattern)) pattern name.

End filepath.

(** ** internal/chunker *)
Module chunker.
Import models.

Definition DefaultMinSize : Z := 512 * 1024.
Definition DefaultAvgSize : Z := 1024 * 1024.
Definition DefaultMaxSize : Z := 4 * 1024 * 1024.

Record Chunker : Type := mkChunker {
  minSize : Z;
  avgSize : Z;
  maxSize : Z;
  mask : Z;   (* uint64 *)
}.

Definition New (minSize avgSize maxSize : Z) : Chunker :=
  let minSize := if minSize <=? 0 then DefaultMinSize else minSize in
  let avgSize := if avgSize <=? 0 then DefaultAvgSize else avgSize in
  let maxSize := if maxSize <=? 0 then DefaultMaxSize else maxSize in
  mkChunker minSize avgSize maxSize (to_uint64 (avgSize - 1)).

Definition NewDefault : Chunker := New DefaultMinSize DefaultAvgSize DefaultMaxSize.

Definition createChunk (data : bytes) (offset : Z) : Chunk.t :=
  Chunk.mk (digest data) (Z.of_nat (length data)) offset data.

Section Chunk.
Context `{RollingHash}.

(** The local variables of [Chunker.Chunk]. *)
Record State : Type := mkState {
  chunks : list Chunk.t;
  offset : Z;
  window : bytes;
  windowIdx : nat;
  windowFull : bool;
  hasher : rk_state;
  currentChunk : bytes;
}.

Definition init : State :=
  let window := repeat x00 64 in
  mkState [] 0 window 0 false (rk_Write rk_New window) [].

(** One iteration of the inner loop, on byte [b]. *)
Definition step (c : Chunker) (st : State) (b : byte) : State :=
  let currentChunk := currentChunk st ++ [b] in
  let oldByte := nth (windowIdx st) (window st) x00 in
  let window := <[windowIdx st := b]> (window st) in
  let windowIdx := ((windowIdx st + 1) mod length window)%nat in
  let windowFull := if Nat.eqb windowIdx 0 then true else windowFull st in
  let hasher := if windowFull then rk_Roll (hasher st) oldByte else hasher st in
  let chunkLen := Z.of_nat (length currentChunk) in
  let shouldSplit :=
    if chunkLen >=? maxSize c then true
    else if chunkLen >=? minSize c then Z.land (rk_Sum64 hasher) (mask c) =? 0
    else false in
  if shouldSplit then
    mkState (chunks st ++ [createChunk currentChunk (offset st)])
            (wrap64 (offset st + chunkLen))
            window 0 false (rk_Write (rk_Reset hasher) window) []
  else
    mkState (chunks st) (offset st) window windowIdx windowFull hasher currentChunk.

(** The outer loop: one [reader.Read(buf)] per script entry. *)
Fixpoint readLoop (c : Chunker) (st : State) (r : Reader) : Result State :=
  match r with
  | [] => Ok st
  | ([], Some EOF) :: _ => Ok st
  | ([], Some (ReadError e)) :: _ => Err e
  | ([], None) :: rest => readLoop c st rest
  | (buf, err) :: rest =>
      let st := fold_left (step c) buf st in
      match err with
      | Some EOF => Ok st
      | _ => readLoop c st rest
      end
  end.

(** [Chunker.Chunk] *)
Definition Chunk (c : Chunker) (reader : Reader) : Result (list Chunk.t) :=
  match readLoop c init reader with
  | Err e => Err e
  | Ok st =>
      if (0 <? length (currentChunk st))%nat
      then Ok (chunks st ++ [createChunk (currentChunk st) (offset st)])
      else Ok (chunks st)
  end.

End Chunk.
End chunker.

(** ** internal/store *)
Module store.

(** [store.CAS]; the mutex is left out, the model being sequential. *)
Record CAS : Type := mkCAS {
  basePath : string;
  refCount : gmap string Z;
}.

Definition with_refCount (rc : gmap string Z) (c : CAS) : CAS :=
  mkCAS (basePath c) rc.

Section CAS.
Context `{OS}.

(** [store.NewCAS] *)
Definition NewCAS (basePath : string) (w : World) : Result CAS * World :=
  let objectsPath := filepath.Join [basePath; "objects"] in
  match os_call (tick w) with
  | Some e => (Err (ErrWrap "failed to create CAS directory" e), next w)
  | None => (Ok (mkCAS objectsPath ∅), next w)
  end.

(** [CAS.objectPath] *)
Definition objectPath (c : CAS) (hash : string) : string :=
  if (String.length hash <? 2)%nat
  then filepath.Join [basePath c; hash]
  else filepath.Join [basePath c; substring 0 2 hash; hash].

(** [CAS.Has]: [os.Stat] succeeds. *)
Definition Has (c : CAS) (hash : string) (w : World) : bool :=
  bool_decide (is_Some (objects w !! objectPath c hash)).

(** [CAS.Put] *)
Definition Put (c : CAS) (data : bytes) (w : World) : Result string * CAS * World :=
  let hashStr := digest data in
  if Has c hashStr w then
    (* c.refCount[hashStr]++ *)
    (Ok hashStr,
     with_refCount (<[hashStr := wrap64 (default 0 (refCount c !! hashStr) + 1)]> (refCount c)) c,
     w)
  else
    let objPath := objectPath c hashStr in
    match os_call (tick w) with
    | Some e => (Err (ErrWrap "failed to create object directory" e), c, next w)
    | None =>
        let w := next w in
        match os_write (tick w) with
        | WriteFailed e None =>
            (Err (ErrWrap "failed to write object" e), c, next w)
        | WriteFailed e (Some n) =>
            (Err (ErrWrap "failed to write object" e), c,
             next (with_objects (<[objPath := take n data]> (objects w)) w))
        | WriteOk =>
            (Ok hashStr,
             with_refCount (<[hashStr := 1]> (refCount c)) c,
             next (with_objects (<[objPath := data]> (objects w)) w))
        end
    end.

(** [CAS.Get] *)
Definition Get (c : CAS) (hash : string) (w : World) : Result bytes :=
  match objects w !! objectPath c hash with
  | None => Err (ErrNotFound hash)
  | Some data =>
      if decide (digest data = hash) then Ok data
      else Err (ErrCorruption hash)
  end.

(** [os.Remove] of an object file. *)
Definition Remove (path : string) (w : World) : Result unit * World :=
  match objects w !! path with
  | None => (Err (ErrNotExist path), w)
  | Some _ =>
      match os_call (tick w) with
      | Some e => (Err e, next w)
      | None => (Ok tt, next (with_objects (delete path (objects w)) w))
      end
  end.

(** [CAS.Delete] *)
Definition Delete (c : CAS) (hash : string) (w : World) : Result unit * CAS * World :=
  match refCount c !! hash with
  | Some count =>
      if count >? 1 then
        (Ok tt, with_refCount (<[hash := wrap64 (count - 1)]> (refCount c)) c, w)
      else
        let c := with_refCount (delete hash (refCount c)) c in
        let '(r, w) := Remove (objectPath c hash) w in (r, c, w)
  | None =>
      let '(r, w) := Remove (objectPath c hash) w in (r, c, w)
  end.

End CAS.
(** The order in which [filepath.Walk] comes to two files: it reads the
    names of a directory sorted, and goes through a subdirectory where its
    name stands. *)
Fixpoint walksBefore (a b : list string) : bool :=
  match a, b with
  | [], _ => true
  | _ :: _, [] => false
  | x :: a', y :: b' =>
      match String.compare x y with
      | Lt => true
      | Gt => false
      | Eq => walksBefore a' b'
      end
  end.

Fixpoint insertInWalkOrder (x : string * bytes) (l : list (string * bytes))
  : list (string * bytes) :=
  match l with
  | [] => [x]
  | y :: rest =>
      if walksBefore (filepath.names "" (fst x)) (filepath.names "" (fst y)) then x :: l
      else y :: insertInWalkOrder x rest
  end.

(** What [filepath.Walk(c.basePath, ...)] hands to its callback as regular
    files: the object files below the base path, with the path relative to
    it, in the order of the walk.  The object directory exists ([NewCAS]
    creates it) and is readable. *)
Definition walkFiles (c : CAS) (w : World) : list (string * bytes) :=
  fold_right insertInWalkOrder []
    (omap (fun e : string * bytes =>
             if strings.HasPrefix (fst e) (basePath c +:+ "/")
             then Some (strings.drop (String.length (basePath c) + 1) (fst e), snd e)
             else None)
          (map_to_list (objects w))).

(** [CAS.List] *)
Definition List (c : CAS) (w : World) : list string :=
  omap (fun e : string * bytes =>
          let hash := filepath.Base (fst e) in
          if (String.length hash =? 64)%nat then Some hash else None)
       (walkFiles c w).

(** [CAS.Stats]: the number of object files and the sum of their sizes. *)
Definition Stats (c : CAS) (w : World) : Z * Z :=
  fold_left
    (fun (acc : Z * Z) (e : string * bytes) =>
       (wrap64 (fst acc + 1), wrap64 (snd acc + Z.of_nat (length (snd e)))))
    (walkFiles c w) (0, 0).

(** [CAS.Verify]: the listed names whose object file cannot be read at the
    object path of the name, or does not digest to the name. *)
Definition Verify (c : CAS) (w : World) : list string :=
  List.filter
    (fun hash =>
       match objects w !! objectPath c hash with
       | None => true
       | Some data => negb (bool_decide (digest data = hash))
       end)
    (List c w).

End store.

(** ** internal/scanner *)
Module scanner.
Import models.

Record Scanner : Type := mkScanner {
  exclusions : list string;
  workers : Z;
}.

Definition New (exclusions : list string) (workers : Z) : Scanner :=
  mkScanner exclusions (if workers <=? 0 then 4 else workers).

(** [Scanner.shouldExclude] *)
Definition shouldExclude (s : Scanner) (relPath name : string) : bool :=
  (fix loop (patterns : list string) : bool :=
     match patterns with
     | [] => false
     | pattern :: rest =>
         if decide (pattern = name) then true
         else if filepath.Match pattern name then true
         else if strings.Contains relPath pattern then true
         else loop rest
     end) (exclusions s).

Definition entryName (e : FsEntry) : string :=
  match e with
  | FsFile name _ _ _ => name
  | FsDir name _ _ _ _ => name
  | FsBroken name _ => name
  end.

(** [filepath.Rel(sourcePath, path)] for the entries of the walk: "." for
    the root, and below it the names from the root down, separated by
    slashes. *)
Definition relChild (relPath name : string) : string :=
  if decide (relPath = ".") then name else filepath.Join [relPath; name].

(** The callback that [Scan] hands to [filepath.Walk], on an entry that
    was not excluded. *)
Definition record (path relPath : string) (e : FsEntry) (tree : FileTree.t) : FileTree.t :=
  match e with
  | FsFile name mode size mtime =>
      FileTree.mk (FileTree.Root tree)
        (<[relPath := FileNode.mk path name false mode size mtime "" []]> (FileTree.Files tree))
        (wrap64 (FileTree.TotalSize tree + size))
        (wrap64 (FileTree.FileCount tree + 1))
        (FileTree.DirCount tree)
  | FsDir name mode size mtime _ =>
      FileTree.mk (FileTree.Root tree)
        (<[relPath := FileNode.mk path name true mode size mtime "" []]> (FileTree.Files tree))
        (FileTree.TotalSize tree)
        (FileTree.FileCount tree)
        (wrap64 (FileTree.DirCount tree + 1))
  | FsBroken _ _ => tree
  end.

(** The loop of [filepath.Walk] over the entries of a directory, in
    order; [visit] is the walk of one entry. *)
Definition eachChild (visit : string -> string -> FsEntry -> FileTree.t -> Result FileTree.t)
    (path relPath : string) : list FsEntry -> FileTree.t -> Result FileTree.t :=
  fix each (children : list FsEntry) (tree : FileTree.t) : Result FileTree.t :=
    match children with
    | [] => Ok tree
    | child :: rest =>
        match visit (filepath.Join [path; entryName child])
                (relChild relPath (entryName child)) child tree with
        | Ok tree => each rest tree
        | Err err => Err err
        end
    end.

(** [filepath.Walk] with the callback of [Scan]: an entry in error stops
    the walk with that error; an excluded file is skipped; an excluded
    directory returns [filepath.SkipDir], so Walk does not enter it; any
    other entry is recorded, and a directory's children are then walked in
    order. *)
Fixpoint walk (s : Scanner) (path relPath : string) (e : FsEntry) (tree : FileTree.t)
  : Result FileTree.t :=
  match e with
  | FsBroken _ err => Err err
  | FsFile name _ _ _ =>
      if shouldExclude s relPath name then Ok tree
      else Ok (record path relPath e tree)
  | FsDir name _ _ _ children =>
      if shouldExclude s relPath name then Ok tree
      else eachChild (walk s) path relPath children (record path relPath e tree)
  end.

Definition rootNode (sourcePath : string) (e : FsEntry) : FileNode.t :=
  match e with
  | FsFile _ mode _ mtime => FileNode.mk sourcePath (filepath.Base sourcePath) false mode 0 mtime "" []
  | FsDir _ mode _ mtime _ => FileNode.mk sourcePath (filepath.Base sourcePath) true mode 0 mtime "" []
  | FsBroken _ _ => FileNode.mk sourcePath (filepath.Base sourcePath) false 0 0 0 "" []
  end.

Section Scan.
Context `{OS}.

(** [Scanner.Scan].  The source path is taken to be absolute and clean, so
    that [filepath.Abs] returns it.  On an error of the walk the source
    returns the partial tree with the error; its callers drop the tree. *)
Definition Scan (s : Scanner) (sourcePath : string) : M World FileTree.t :=
  fun w =>
    match os_walk (tick w) sourcePath with
    | Err e => (Err e, next w)
    | Ok (FsBroken _ e) => (Err e, next w)
    | Ok root =>
        (walk s sourcePath "." root
           (FileTree.mk (rootNode sourcePath root) ∅ 0 0 0),
         next w)
    end.

(** [Scanner.hashFile] *)
Definition hashFile (path : string) : M World string :=
  fun w =>
    match os_open (tick w) path with
    | Err e => (Err e, next w)
    | Ok file =>
        match ReadAll file with
        | Err e => (Err e, next w)
        | Ok data => (Ok (digest data), next w)
        end
    end.

(** [Scanner.ScanWithHashes] *)
Definition ScanWithHashes (s : Scanner) (sourcePath : string) : M World FileTree.t :=
  tree <- Scan s sourcePath ;;
  forM (fun (tree : FileTree.t) '(relPath, node) =>
          if FileNode.IsDir node then ret tree
          else
            hash <- hashFile (FileNode.Path node) ;;
            ret (FileTree.with_Files
                   (alter (FileNode.with_Hash hash) relPath (FileTree.Files tree)) tree))
       (map_to_list (FileTree.Files tree)) tree.

End Scan.
End scanner.

(** ** internal/compress *)
Module compress.

Definition AlgorithmZstd : string := "zstd".
Definition AlgorithmLZ4 : string := "lz4".
Definition AlgorithmNone : string := "none".

(** [compress.Compressor]; the encoder and decoder it caches are the
    codec at the level chosen by [New]. *)
Record Compressor : Type := mkCompressor {
  algorithm : string;
  level : Z;
}.

Definition New (algorithm : string) (level : Z) : Compressor :=
  mkCompressor algorithm level.

Definition NewDefault : Compressor := New AlgorithmZstd 3.

Section Compress.
Context `{Zstd}.

(** [Compressor.Compress] *)
Definition Compress (c : Compressor) (data : bytes) : Result bytes :=
  if decide (algorithm c = AlgorithmZstd) then
    Ok (zstd_EncodeAll (EncoderLevelFromZstd (level c)) data)
  else if decide (algorithm c = AlgorithmLZ4) then
    Ok (zstd_EncodeAll SpeedFastest data)
  else if decide (algorithm c = AlgorithmNone) then Ok data
  else Err (ErrUnknownAlgorithm (algorithm c)).

(** [Compressor.Decompress] *)
Definition Decompress (c : Compressor) (data : bytes) : Result bytes :=
  if decide (algorithm c = AlgorithmZstd) then zstd_DecodeAll data
  else if decide (algorithm c = AlgorithmLZ4) then zstd_DecodeAll data
  else if decide (algorithm c = AlgorithmNone) then Ok data
  else Err (ErrUnknownAlgorithm (algorithm c)).

End Compress.
End compress.

(** ** internal/crypto *)
Module crypto.

Definition nonceSize : nat := 12.

(** [crypto.Encryptor]: the derived key and the salt; the cipher is the
    AEAD under that key. *)
Record Encryptor : Type := mkEncryptor {
  key : bytes;
  salt : bytes;
}.

Section Crypto.
Context `{OS} `{AEAD}.

(** [rand.Read(nonce)] into a buffer of [nonceSize] bytes. *)
Definition readNonce : M World bytes :=
  fun w =>
    match os_rand (tick w) with
    | None => (Err ErrNonce, next w)
    | Some r => (Ok (take nonceSize (r ++ repeat x00 nonceSize)), next w)
    end.

(** [Encryptor.Encrypt]: the nonce, then the sealed plaintext. *)
Definition Encrypt (e : Encryptor) (plaintext : bytes) : M World bytes :=
  nonce <- wrapping "failed to generate nonce" readNonce ;;
  ret (nonce ++ aead_Seal (key e) nonce plaintext).

(** [Encryptor.Decrypt] *)
Definition Decrypt (e : Encryptor) (ciphertext : bytes) : Result bytes :=
  if (length ciphertext <? nonceSize)%nat then Err ErrCiphertextTooShort
  else
    let nonce := take nonceSize ciphertext in
    let ciphertext := drop nonceSize ciphertext in
    match aead_Open (key e) nonce ciphertext with
    | None => Err (ErrWrap "decryption failed" ErrDecrypt)
    | Some plaintext => Ok plaintext
    end.

End Crypto.
Definition argon2Time : Z := 3.
Definition argon2Memory : Z := 64 * 1024.
Definition argon2Threads : Z := 4.
Definition argon2KeyLen : Z := 32.
Definition saltSize : nat := 32.

(** [crypto.EncryptionHeader] *)
Record EncryptionHeader : Type := mkEncryptionHeader {
  Version : Z;
  Algorithm : string;
  KDF : string;
  Salt : string;          (* hex-encoded *)
  PasswordHash : string;
}.

Section Keys.
Context `{OS} `{Argon2}.

(** [rand.Read(salt)] into a buffer of [saltSize] bytes. *)
Definition readSalt : M World bytes :=
  fun w =>
    match os_rand (tick w) with
    | None => (Err (ErrIO "crypto/rand"), next w)
    | Some r => (Ok (take saltSize (r ++ repeat x00 saltSize)), next w)
    end.

(** [crypto.GenerateSalt] *)
Definition GenerateSalt : M World bytes := readSalt.

(** The key that [NewEncryptor] and [HashPassword] derive. *)
Definition deriveKey (passphrase : string) (salt : bytes) : bytes :=
  argon2_IDKey (bytes_of_string passphrase) salt
    argon2Time argon2Memory argon2Threads argon2KeyLen.

(** [crypto.NewEncryptor].  [aes.NewCipher] rejects a key that does not
    have 16, 24 or 32 bytes; [cipher.NewGCM] does not fail on an AES
    block. *)
Definition NewEncryptor (passphrase : string) (salt : bytes) : M World Encryptor :=
  salt <- (match salt with
           | [] => wrapping "failed to generate salt" readSalt
           | _ => ret salt
           end) ;;
  let key := deriveKey passphrase salt in
  if bool_decide (length key = 16%nat) || bool_decide (length key = 24%nat)
     || bool_decide (length key = 32%nat)
  then ret (mkEncryptor key salt)
  else fail (ErrWrap "failed to create AES cipher" (ErrIO "crypto/aes: invalid key size")).

(** [crypto.HashPassword] *)
Definition HashPassword (passphrase : string) (salt : bytes) : string :=
  digest (deriveKey passphrase salt).

(** [crypto.NewEncryptionHeader] *)
Definition NewEncryptionHeader (salt : bytes) (passphrase : string) : EncryptionHeader :=
  mkEncryptionHeader 1 "aes-256-gcm" "argon2id" (hex.EncodeToString salt)
    (HashPassword passphrase salt).

(** [EncryptionHeader.VerifyPassword]; the error of [hex.DecodeString] is
    dropped. *)
Definition VerifyPassword (h : EncryptionHeader) (passphrase : string) : bool :=
  let salt := fst (hex.DecodeString (Salt h)) in
  bool_decide (HashPassword passphrase salt = PasswordHash h).

End Keys.

End crypto.

(** ** internal/diff *)
Module diff.
Import models.

Record DiffResult : Type := mkDiffResult {
  Added : list FileDiff.t;
  Modified : list FileDiff.t;
  Deleted : list FileDiff.t;
  Unchanged : list FileDiff.t;
  TotalAdded : Z;
  TotalDeleted : Z;
  TotalModified : Z;
}.

(** The first loop of [Compare], over the new tree. *)
Definition compareNew (oldTree : FileTree.t) (acc : DiffResult * gmap string bool)
    (entry : string * FileNode.t) : DiffResult * gmap string bool :=
  let '(result, processed) := acc in
  let '(path, newNode) := entry in
  if FileNode.IsDir newNode then acc
  else
    let processed := <[path := true]> processed in
    match FileTree.Files oldTree !! path with
    | None =>
        let d := FileDiff.mk path DiffAdded "" (FileNode.Hash newNode) 0
                   (FileNode.Size newNode) [] (FileNode.Chunks newNode) in
        (mkDiffResult (Added result ++ [d]) (Modified result) (Deleted result)
           (Unchanged result) (wrap64 (TotalAdded result + FileNode.Size newNode))
           (TotalDeleted result) (TotalModified result), processed)
    | Some oldNode =>
        if decide (FileNode.Hash newNode <> FileNode.Hash oldNode) then
          let d := FileDiff.mk path DiffModified (FileNode.Hash oldNode)
                     (FileNode.Hash newNode) (FileNode.Size oldNode)
                     (FileNode.Size newNode) (FileNode.Chunks oldNode)
                     (FileNode.Chunks newNode) in
          (mkDiffResult (Added result) (Modified result ++ [d]) (Deleted result)
             (Unchanged result) (TotalAdded result) (TotalDeleted result)
             (wrap64 (TotalModified result + FileNode.Size newNode)), processed)
        else
          let d := FileDiff.mk path DiffUnchanged (FileNode.Hash oldNode)
                     (FileNode.Hash newNode) 0 0 [] [] in
          (mkDiffResult (Added result) (Modified result) (Deleted result)
             (Unchanged result ++ [d]) (TotalAdded result) (TotalDeleted result)
             (TotalModified result), processed)
    end.

(** The second loop of [Compare], over the old tree. *)
Definition compareOld (processed : gmap string bool) (result : DiffResult)
    (entry : string * FileNode.t) : DiffResult :=
  let '(path, oldNode) := entry in
  if FileNode.IsDir oldNode then result
  else if default false (processed !! path) then result
  else
    let d := FileDiff.mk path DiffDeleted (FileNode.Hash oldNode) "" (FileNode.Size oldNode)
               0 (FileNode.Chunks oldNode) [] in
    mkDiffResult (Added result) (Modified result) (Deleted result ++ [d])
      (Unchanged result) (TotalAdded result)
      (wrap64 (TotalDeleted result + FileNode.Size oldNode)) (TotalModified result).

(** [Differ.Compare].  The maps are ranged over in the order of
    [map_to_list]; Go leaves the order open. *)
Definition Compare (oldTree newTree : FileTree.t) : DiffResult :=
  let '(result, processed) :=
    fold_left (compareNew oldTree) (map_to_list (FileTree.Files newTree))
      (mkDiffResult [] [] [] [] 0 0 0, ∅) in
  fold_left (compareOld processed) (map_to_list (FileTree.Files oldTree)) result.

(** [DiffResult.AllChangedFiles] *)
Definition AllChangedFiles (r : DiffResult) : list FileDiff.t :=
  Added r ++ Modified r.

End diff.

(** ** internal/snapshot *)
Module snapshot.
Import models.

(** [snapshot.Manager]; the differ has no state. *)
Record Manager : Type := mkManager {
  repoPath : string;
  cas : store.CAS;
  compressor : option compress.Compressor;
  encryptor : option crypto.Encryptor;
  chunker_ : chunker.Chunker;
  scanner_ : scanner.Scanner;
}.

Definition with_cas (c : store.CAS) (m : Manager) : Manager :=
  mkManager (repoPath m) c (compressor m) (encryptor m) (chunker_ m) (scanner_ m).

(** [Manager.SetExclusions] *)
Definition SetExclusions (patterns : list string) (m : Manager) : Manager :=
  mkManager (repoPath m) (cas m) (compressor m) (encryptor m) (chunker_ m)
    (scanner.New patterns 4).

(** What the loops of [Create] update: the tree and the counters. *)
Record Progress : Type := mkProgress {
  tree : FileTree.t;
  newChunks : Z;
  totalChunks : Z;
  storedSize : Z;
}.

(** What [Create] has in hand when it comes to its loop over the files:
    the start time, the scanned tree (with the chunk lists of unchanged
    files copied from the parent), the diff against the parent if there is
    one, the ID and timestamp of the snapshot, and the files to chunk. *)
Record Prepared : Type := mkPrepared {
  prepStart : Z;
  prepTree : FileTree.t;
  prepDiff : option diff.DiffResult;
  prepID : string;
  prepTimestamp : Z;
  prepFiles : gmap string FileNode.t;
}.

Section Manager.
Context `{OS} `{RollingHash} `{Zstd} `{AEAD}.

(** The state of a manager at work: its store's reference counts and the
    file systems. *)
Definition St : Type := store.CAS * World.

Definition inWorld {A} (m : M World A) : M St A :=
  fun s => let '(r, w) := m (snd s) in (r, (fst s, w)).

Definition casPut (data : bytes) : M St string :=
  fun s => let '(r, c, w) := store.Put (fst s) data (snd s) in (r, (c, w)).

Definition casHas (hash : string) : M St bool :=
  fun s => (Ok (store.Has (fst s) hash (snd s)), s).

(** [time.Now()] *)
Definition now : M World Z :=
  fun w => (Ok (os_now (tick w)), next w).

(** [os.Open] *)
Definition osOpen (path : string) : M World Reader :=
  fun w => (os_open (tick w) path, next w).

(** [store.NewCAS] and the rest of [NewManager] *)
Definition NewManager (repoPath : string) (compressor : option compress.Compressor)
    (encryptor : option crypto.Encryptor) : M World Manager :=
  cas <- store.NewCAS repoPath ;;
  ret (mkManager repoPath cas compressor encryptor chunker.NewDefault (scanner.New [] 4)).

(** [Manager.Get]: read <repo>/snapshots/<id>.json and unmarshal it.  The
    snapshot directory is a map from file names, and the ID is taken to be
    a plain name, without a path separator, as [generateID] makes them:
    then <id>.json is the name of the file that
    [filepath.Join(repoPath, "snapshots", id+".json")] opens. *)
Definition Get (m : Manager) (id : string) (w : World) : Result Snapshot.t :=
  match snapshots w !! (id +:+ ".json") with
  | None => Err (ErrNotExist (filepath.Join [repoPath m; "snapshots"; id +:+ ".json"]))
  | Some None => Err ErrJSON
  | Some (Some snapshot) => Ok snapshot
  end.

(** Insertion into a list sorted by timestamp, newest first. *)
Fixpoint insertNewest (s : Snapshot.t) (l : list Snapshot.t) : list Snapshot.t :=
  match l with
  | [] => [s]
  | x :: rest =>
      if Snapshot.Timestamp x <? Snapshot.Timestamp s then s :: l
      else x :: insertNewest s rest
  end.

(** [Manager.List]: the records of the files named <id>.json that [Get]
    can read, newest first ([sort.Slice]; records of equal timestamp come
    in an order Go leaves open). *)
Definition List (m : Manager) (w : World) : list Snapshot.t :=
  fold_right
    (fun (entry : string * option Snapshot.t) acc =>
       let name := fst entry in
       if strings.HasSuffix name ".json" then
         let id := substring 0 (String.length name - 5) name in
         match Get m id w with
         | Ok snap => insertNewest snap acc
         | Err _ => acc
         end
       else acc)
    [] (map_to_list (snapshots w)).

(** [Manager.Latest] *)
Definition Latest (m : Manager) (w : World) : option Snapshot.t :=
  head (List m w).

(** [Manager.Delete], of an ID that is a plain name as for [Get]. *)
Definition Delete (m : Manager) (id : string) : M World unit :=
  fun w =>
    let name := id +:+ ".json" in
    match snapshots w !! name with
    | None => (Err (ErrNotExist (filepath.Join [repoPath m; "snapshots"; name])), w)
    | Some _ =>
        match os_call (tick w) with
        | Some e => (Err e, next w)
        | None => (Ok tt, next (with_snapshots (delete name (snapshots w)) w))
        end
    end.

(** [Manager.saveSnapshot]: on a failed write the file, if the write got
    as far as creating it, does not hold a whole record. *)
Definition saveSnapshot (m : Manager) (snapshot : Snapshot.t) : M World unit :=
  fun w =>
    match os_call (tick w) with
    | Some e => (Err e, next w)
    | None =>
        let w := next w in
        let name := Snapshot.ID snapshot +:+ ".json" in
        match os_write (tick w) with
        | WriteOk =>
            (Ok tt, next (with_snapshots (<[name := Some snapshot]> (snapshots w)) w))
        | WriteFailed e None => (Err e, next w)
        | WriteFailed e (Some _) =>
            (Err e, next (with_snapshots (<[name := None]> (snapshots w)) w))
        end
    end.

(** [generateID] *)
Definition generateID : M World string :=
  t <- now ;; ret (pretty t).

(** The body of the loop over the chunks of one file. *)
Definition storeChunk (m : Manager) (acc : list string * Progress) (chunk : Chunk.t)
  : M St (list string * Progress) :=
  let '(chunkHashes, p) := acc in
  let data := Chunk.Data chunk in
  data <- match compressor m with
          | Some c => wrapping "compression failed" (lift (compress.Compress c data))
          | None => ret data
          end ;;
  data <- match encryptor m with
          | Some e => wrapping "encryption failed" (inWorld (crypto.Encrypt e data))
          | None => ret data
          end ;;
  has <- casHas (Chunk.Hash chunk) ;;
  p <- (if has then ret p
        else
          _ <- wrapping "storage failed" (casPut data) ;;
          ret (mkProgress (tree p) (wrap64 (newChunks p + 1)) (totalChunks p)
                 (wrap64 (storedSize p + Z.of_nat (length data))))) ;;
  ret (chunkHashes ++ [Chunk.Hash chunk],
       mkProgress (tree p) (newChunks p) (wrap64 (totalChunks p + 1)) (storedSize p)).

(** The body of the loop over [filesToProcess]. *)
Definition processFile (m : Manager) (p : Progress) (entry : string * FileNode.t)
  : M St Progress :=
  let '(relPath, node) := entry in
  if FileNode.IsDir node then ret p
  else
    file <- wrapping ("failed to open " +:+ relPath) (inWorld (osOpen (FileNode.Path node))) ;;
    chunks <- wrapping ("failed to chunk " +:+ relPath)
                (lift (chunker.Chunk (chunker_ m) file)) ;;
    r <- forM (storeChunk m) chunks ([], p) ;;
    let '(chunkHashes, p) := r in
    ret (mkProgress
           (FileTree.with_Files
              (alter (FileNode.with_Chunks chunkHashes) relPath (FileTree.Files (tree p)))
              (tree p))
           (newChunks p) (totalChunks p) (storedSize p)).

(** The files that [Create] chunks when it has a diff: those the diff
    reports as added or modified, with their nodes in the new tree. *)
Definition changedFiles (d : diff.DiffResult) (tree : FileTree.t) : gmap string FileNode.t :=
  fold_left
    (fun files fd =>
       match FileTree.Files tree !! FileDiff.Path fd with
       | Some node => <[FileDiff.Path fd := node]> files
       | None => files
       end)
    (diff.AllChangedFiles d) ∅.

(** The chunk lists that [Create] copies from the parent for the files the
    diff reports as unchanged. *)
Definition copyUnchanged (d : diff.DiffResult) (parentTree tree : FileTree.t) : FileTree.t :=
  fold_left
    (fun tree fd =>
       match FileTree.Files parentTree !! FileDiff.Path fd with
       | Some parent =>
           FileTree.with_Files
             (alter (FileNode.with_Chunks (FileNode.Chunks parent)) (FileDiff.Path fd)
                (FileTree.Files tree)) tree
       | None => tree
       end)
    (diff.Unchanged d) tree.

Definition len {A} (l : list A) : Z := Z.of_nat (length l).

(** [Manager.Create], up to its loop over the files: scan, diff against
    the parent, ID and timestamp. *)
Definition prepare (m : Manager) (sourcePath parentID : string) : M St Prepared :=
  startTime <- inWorld now ;;
  tree <- wrapping "scan failed"
            (inWorld (scanner.ScanWithHashes (scanner_ m) sourcePath)) ;;
  parentTree <- (fun s =>
                   (Ok (if decide (parentID = "") then None
                        else match Get m parentID (snd s) with
                             | Ok parent => Some (Snapshot.Tree parent)
                             | Err _ => None
                             end), s)) ;;
  let diffResult := (fun parentTree => diff.Compare parentTree tree) <$> parentTree in
  id <- inWorld generateID ;;
  timestamp <- inWorld now ;;
  let filesToProcess :=
    match diffResult with
    | Some d => changedFiles d tree
    | None => FileTree.Files tree
    end in
  let tree :=
    match diffResult, parentTree with
    | Some d, Some parentTree => copyUnchanged d parentTree tree
    | _, _ => tree
    end in
  ret (mkPrepared startTime tree diffResult id timestamp filesToProcess).

(** [Manager.Create], on the manager's store and the world: the
    preparation, the loop over the files, and the record. *)
Definition create (m : Manager) (sourcePath description parentID : string)
  : M St Snapshot.t :=
  prep <- prepare m sourcePath parentID ;;
  p <- forM (processFile m) (map_to_list (prepFiles prep))
         (mkProgress (prepTree prep) 0 0 0) ;;
  finish <- inWorld now ;;
  let tree := snapshot.tree p in
  let stats :=
    match prepDiff prep with
    | Some d =>
        SnapshotStats.mk (FileTree.TotalSize tree) (storedSize p) (totalChunks p)
          (newChunks p) (wrap64 (FileTree.TotalSize tree - storedSize p))
          (wrap64 (finish - prepStart prep))
          (len (diff.Added d)) (len (diff.Modified d)) (len (diff.Deleted d))
          (len (diff.Unchanged d))
    | None =>
        SnapshotStats.mk (FileTree.TotalSize tree) (storedSize p) (totalChunks p)
          (newChunks p) (wrap64 (FileTree.TotalSize tree - storedSize p))
          (wrap64 (finish - prepStart prep))
          (FileTree.FileCount tree) 0 0 0
    end in
  let snapshot :=
    Snapshot.mk (prepID prep) (prepTimestamp prep) parentID description tree stats
      (bool_decide (is_Some (encryptor m))) (bool_decide (is_Some (compressor m))) in
  _ <- wrapping "failed to save snapshot" (inWorld (saveSnapshot m snapshot)) ;;
  ret snapshot.

(** [Manager.Create] *)
Definition Create (m : Manager) (sourcePath description parentID : string) (w : World)
  : Result Snapshot.t * Manager * World :=
  let '(r, s) := create m sourcePath description parentID (cas m, w) in
  (r, with_cas (fst s) m, snd s).

End Manager.
End snapshot.

(** ** internal/restore *)
Module restore.
Import models.

Record Restorer : Type := mkRestorer {
  cas : store.CAS;
  compressor : option compress.Compressor;
  encryptor : option crypto.Encryptor;
}.

Definition NewRestorer (cas : store.CAS) (compressor : option compress.Compressor)
    (encryptor : option crypto.Encryptor) : Restorer :=
  mkRestorer cas compressor encryptor.

Record RestoreResult : Type := mkRestoreResult {
  FilesRestored : Z;
  BytesRestored : Z;
  Errors : list (string * error);   (* RestoreError{Path, Error} *)
}.

(** [Restorer.matchPattern] *)
Definition matchPattern (path pattern : string) : bool :=
  if filepath.Match pattern path then true
  else if filepath.Match pattern (filepath.Base path) then true
  else if strings.Contains pattern "**" then
    let pattern := strings.ReplaceAll pattern "**" "*" in
    if filepath.Match pattern path then true else false
  else false.

(** [Restorer.shouldRestore] *)
Definition shouldRestore (path : string) (includes excludes : list string) : bool :=
  let included := bool_decide (length includes = 0%nat) in
  let included :=
    (fix loop (patterns : list string) (included : bool) : bool :=
       match patterns with
       | [] => included
       | pattern :: rest => if matchPattern path pattern then true else loop rest included
       end) includes included in
  if negb included then false
  else
    (fix loop (patterns : list string) : bool :=
       match patterns with
       | [] => true
       | pattern :: rest => if matchPattern path pattern then false else loop rest
       end) excludes.

Section Restore.
Context `{OS} `{Zstd} `{AEAD}.

(** [os.MkdirAll], [os.Create], [os.Chmod], [os.Chtimes]: the outcome. *)
Definition osCall : M World unit :=
  fun w =>
    match os_call (tick w) with
    | Some e => (Err e, next w)
    | None => (Ok tt, next w)
    end.

(** [os.Create(targetPath)]: the file is created, or truncated. *)
Definition osCreate (targetPath : string) : M World unit :=
  _ <- osCall ;;
  fun w =>
    let mode := match targets w !! targetPath with
                | Some f => tf_mode f
                | None => None
                end in
    (Ok tt, with_targets (<[targetPath := mkTargetFile [] mode None]> (targets w)) w).

Definition appendTo (targetPath : string) (data : bytes) (w : World) : World :=
  with_targets
    (alter (fun f => mkTargetFile (tf_data f ++ data) (tf_mode f) (tf_mtime f))
       targetPath (targets w)) w.

(** [file.Write(data)] *)
Definition fileWrite (targetPath : string) (data : bytes) : M World unit :=
  fun w =>
    match os_write (tick w) with
    | WriteOk => (Ok tt, next (appendTo targetPath data w))
    | WriteFailed e None => (Err e, next w)
    | WriteFailed e (Some n) => (Err e, next (appendTo targetPath (take n data) w))
    end.

(** The body of the loop of [restoreFile] over the chunks of a node. *)
Definition restoreChunk (r : Restorer) (targetPath : string) (_ : unit) (chunkHash : string)
  : M World unit :=
  data <- wrapping ("failed to get chunk " +:+ chunkHash)
            (fun w => (store.Get (cas r) chunkHash w, w)) ;;
  data <- match encryptor r with
          | Some e => wrapping "decryption failed" (lift (crypto.Decrypt e data))
          | None => ret data
          end ;;
  data <- match compressor r with
          | Some c => wrapping "decompression failed" (lift (compress.Decompress c data))
          | None => ret data
          end ;;
  wrapping "failed to write chunk" (fileWrite targetPath data).

(** A call whose failure the source only reports as a warning. *)
Definition warnOnly (m : M World unit) (onSuccess : World -> World) : M World unit :=
  fun w =>
    match m w with
    | (Ok _, w') => (Ok tt, onSuccess w')
    | (Err _, w') => (Ok tt, w')
    end.

(** [Restorer.restoreFile] *)
Definition restoreFile (r : Restorer) (node : FileNode.t) (targetPath : string)
    (opts : RestoreOptions.t) : M World unit :=
  if RestoreOptions.DryRun opts then ret tt
  else
    _ <- wrapping "failed to create directories" osCall ;;
    _ <- wrapping "failed to create file" (osCreate targetPath) ;;
    _ <- forM (restoreChunk r targetPath) (FileNode.Chunks node) tt ;;
    _ <- (if RestoreOptions.PreservePerms opts then
            warnOnly osCall (fun w =>
              with_targets
                (alter (fun f => mkTargetFile (tf_data f) (Some (FileNode.Mode node)) (tf_mtime f))
                   targetPath (targets w)) w)
          else ret tt) ;;
    warnOnly osCall (fun w =>
      with_targets
        (alter (fun f => mkTargetFile (tf_data f) (tf_mode f) (Some (FileNode.ModTime node)))
           targetPath (targets w)) w).

(** The body of the loop of [Restore] over the files of the snapshot. *)
Definition restoreEntry (r : Restorer) (opts : RestoreOptions.t) (result : RestoreResult)
    (entry : string * FileNode.t) : M World RestoreResult :=
  let '(relPath, node) := entry in
  if FileNode.IsDir node then ret result
  else if negb (shouldRestore relPath (RestoreOptions.IncludePattern opts)
                  (RestoreOptions.ExcludePattern opts)) then ret result
  else
    let targetPath := filepath.Join [RestoreOptions.TargetPath opts; relPath] in
    fun w =>
      if negb (RestoreOptions.Overwrite opts) && bool_decide (is_Some (targets w !! targetPath))
      then (Ok result, w)
      else
        match restoreFile r node targetPath opts w with
        | (Err e, w') =>
            (Ok (mkRestoreResult (FilesRestored result) (BytesRestored result)
                   (Errors result ++ [(relPath, e)])), w')
        | (Ok _, w') =>
            (Ok (mkRestoreResult (wrap64 (FilesRestored result + 1))
                   (wrap64 (BytesRestored result + FileNode.Size node))
                   (Errors result)), w')
        end.

(** [Restorer.Restore] *)
Definition Restore (r : Restorer) (snapshot : Snapshot.t) (opts : RestoreOptions.t)
  : M World RestoreResult :=
  _ <- wrapping "failed to create target directory" osCall ;;
  forM (restoreEntry r opts) (map_to_list (FileTree.Files (Snapshot.Tree snapshot)))
    (mkRestoreResult 0 0 []).

(** [Restorer.RestoreToWriter] into a buffer, as [GetFileContent] uses it. *)
Definition restoreToBuffer (r : Restorer) (node : FileNode.t) (w : World) : Result bytes :=
  (fix loop (chunks : list string) (buf : bytes) : Result bytes :=
     match chunks with
     | [] => Ok buf
     | chunkHash :: rest =>
         match store.Get (cas r) chunkHash w with
         | Err e => Err (ErrWrap "failed to get chunk" e)
         | Ok data =>
             match (match encryptor r with
                    | Some e =>
                        match crypto.Decrypt e data with
                        | Ok d => Ok d
                        | Err err => Err (ErrWrap "decryption failed" err)
                        end
                    | None => Ok data
                    end) with
             | Err e => Err e
             | Ok data =>
                 match (match compressor r with
                        | Some c =>
                            match compress.Decompress c data with
                            | Ok d => Ok d
                            | Err err => Err (ErrWrap "decompression failed" err)
                            end
                        | None => Ok data
                        end) with
                 | Err e => Err e
                 | Ok data => loop rest (buf ++ data)
                 end
             end
         end
     end) (FileNode.Chunks node) [].

(** [Restorer.GetFileContent] *)
Definition GetFileContent (r : Restorer) (snapshot : Snapshot.t) (filePath : string)
    (w : World) : Result bytes :=
  match FileTree.Files (Snapshot.Tree snapshot) !! filePath with
  | None => Err (ErrNotFound filePath)
  | Some node => restoreToBuffer r node w
  end.

End Restore.
End restore.

(** ** internal/config *)
Module config.

Module RepositoryConfig.
Record t : Type := mk {
  Path : string;
  AutoInit : bool;
}.
End RepositoryConfig.

Module EncryptionConfig.
Record t : Type := mk {
  Enabled : bool;
  Algorithm : string;
  KDF : string;
  KeyFile : string;
}.
End EncryptionConfig.

Module CompressionConfig.
Record t : Type := mk {
  Enabled : bool;
  Algorithm : string;
  Level : Z;
}.
End CompressionConfig.

Module CloudConfig.
Record t : Type := mk {
  Enabled : bool;
  Provider : string;
  Bucket : string;
  Region : string;
  Endpoint : string;
  AccessKey : string;
  SecretKey : string;
  MaxBandwidth : Z;
}.
End CloudConfig.

Module ChunkingConfig.
Record t : Type := mk {
  MinSize : Z;
  AvgSize : Z;
  MaxSize : Z;
  Algorithm : string;
}.
End ChunkingConfig.

Record Config : Type := mkConfig {
  Repository : RepositoryConfig.t;
  Encryption : EncryptionConfig.t;
  Compression : CompressionConfig.t;
  Cloud : CloudConfig.t;
  Chunking : ChunkingConfig.t;
  Exclusions : list string;
}.

(** [config.DefaultConfig] *)
Definition DefaultConfig : Config :=
  mkConfig
    (RepositoryConfig.mk "" true)
    (EncryptionConfig.mk false "aes-256-gcm" "argon2id" "")
    (CompressionConfig.mk true "zstd" 3)
    (CloudConfig.mk false "s3" "" "" "" "" "" 0)
    (ChunkingConfig.mk (512 * 1024) (1024 * 1024) (4 * 1024 * 1024) "rabin")
    [".git"; ".svn"; "node_modules"; "__pycache__"; "*.tmp"; "*.log"; ".DS_Store";
     "Thumbs.db"].

(** [Config.Validate]: the configuration it leaves behind.  The error it
    returns is always nil. *)
Definition Validate (c : Config) : Config :=
  let chunking := Chunking c in
  let minSize :=
    if ChunkingConfig.MinSize chunking <=? 0 then 512 * 1024
    else ChunkingConfig.MinSize chunking in
  let avgSize :=
    if ChunkingConfig.AvgSize chunking <=? minSize then wrap64 (minSize * 2)
    else ChunkingConfig.AvgSize chunking in
  let maxSize :=
    if ChunkingConfig.MaxSize chunking <=? avgSize then wrap64 (avgSize * 4)
    else ChunkingConfig.MaxSize chunking in
  let compression := Compression c in
  let algorithm :=
    if decide (CompressionConfig.Algorithm compression = "zstd") then
      CompressionConfig.Algorithm compression
    else if decide (CompressionConfig.Algorithm compression = "lz4") then
      CompressionConfig.Algorithm compression
    else if decide (CompressionConfig.Algorithm compression = "none") then
      CompressionConfig.Algorithm compression
    else if decide (CompressionConfig.Algorithm compression = "") then
      CompressionConfig.Algorithm compression
    else "zstd" in
  let level :=
    if CompressionConfig.Level compression <? 1 then 1
    else CompressionConfig.Level compression in
  let level := if level >? 19 then 19 else level in
  mkConfig (Repository c) (Encryption c)
    (CompressionConfig.mk (CompressionConfig.Enabled compression) algorithm level)
    (Cloud c)
    (ChunkingConfig.mk minSize avgSize maxSize (ChunkingConfig.Algorithm chunking))
    (Exclusions c).

End config.

(** ** internal/backend: the local backend *)
Module backend.

(** The directory tree of a local backend: its files by path, and the
    number of requests made of the operating system so far. *)
Record Disk : Type := mkDisk {
  requests : nat;
  files : gmap string bytes;
}.

Definition step (d : Disk) : Disk := mkDisk (S (requests d)) (files d).

Definition with_files (f : gmap string bytes) (d : Disk) : Disk := mkDisk (requests d) f.

Record LocalBackend : Type := mkLocalBackend {
  basePath : string;
}.

(** [LocalBackend.keyToPath]; [filepath.FromSlash] changes nothing on
    Unix.  Keys are taken to be clean relative paths, which [Join] puts
    below the base path as they are. *)
Definition keyToPath (l : LocalBackend) (key : string) : string :=
  filepath.Join [basePath l; key].

Section LocalBackend.
Context `{OS}.

(** [os.MkdirAll], [os.Create], [os.Remove]: the outcome. *)
Definition call : M Disk unit :=
  fun d =>
    match os_call (requests d) with
    | Some e => (Err e, step d)
    | None => (Ok tt, step d)
    end.

(** [NewLocalBackend] *)
Definition NewLocalBackend (basePath : string) : M Disk LocalBackend :=
  _ <- wrapping "failed to create backend directory" call ;;
  ret (mkLocalBackend basePath).

(** [os.Create(path)]: the file is created, or truncated. *)
Definition create (path : string) : M Disk unit :=
  _ <- call ;;
  fun d => (Ok tt, with_files (<[path := []]> (files d)) d).

(** [dst.Write(buf)] on the file at [path]. *)
Definition write (path : string) (buf : bytes) : M Disk unit :=
  fun d =>
    let append data := with_files (alter (fun old => old ++ data) path (files d)) d in
    match os_write (requests d) with
    | WriteOk => (Ok tt, step (append buf))
    | WriteFailed e None => (Err e, step d)
    | WriteFailed e (Some n) => (Err e, step (append (take n buf)))
    end.

(** [io.Copy(file, data)]: each read's bytes are written before the
    read's error is looked at; end of file ends the copy, any other error
    is returned. *)
Fixpoint copy (path : string) (data : Reader) : M Disk unit :=
  match data with
  | [] => ret tt
  | (buf, err) :: rest =>
      _ <- (match buf with
            | [] => ret tt
            | _ => write path buf
            end) ;;
      match err with
      | Some EOF => ret tt
      | Some (ReadError e) => fail e
      | None => copy path rest
      end
  end.

(** [LocalBackend.Put]; the size argument is not used. *)
Definition Put (l : LocalBackend) (key : string) (data : Reader) (size : Z) : M Disk unit :=
  let path := keyToPath l key in
  _ <- wrapping "failed to create directories" call ;;
  _ <- wrapping "failed to create file" (create path) ;;
  wrapping "failed to write data" (copy path data).

(** [LocalBackend.Get]: the open file, as a reader of its bytes. *)
Definition Get (l : LocalBackend) (key : string) (d : Disk) : Result Reader :=
  match files d !! keyToPath l key with
  | None => Err (ErrIO ("key not found: " +:+ key))
  | Some data => Ok (reader_of [data])
  end.

(** [LocalBackend.Delete]: a file that is not there is no error. *)
Definition Delete (l : LocalBackend) (key : string) : M Disk unit :=
  fun d =>
    let path := keyToPath l key in
    match files d !! path with
    | None => (Ok tt, d)
    | Some _ =>
        match os_call (requests d) with
        | Some e => (Err e, step d)
        | None => (Ok tt, step (with_files (delete path (files d)) d))
        end
    end.

(** [LocalBackend.Exists] *)
Definition Exists (l : LocalBackend) (key : string) (d : Disk) : Result bool :=
  Ok (bool_decide (is_Some (files d !! keyToPath l key))).

(** [LocalBackend.Size] *)
Definition Size (l : LocalBackend) (key : string) (d : Disk) : Result Z :=
  match files d !! keyToPath l key with
  | None => Err (ErrNotExist (keyToPath l key))
  | Some data => Ok (Z.of_nat (length data))
  end.

End LocalBackend.
End backend.

(** ** The two directions of the pipeline, as pure functions

    What [storeChunk] hands to [Put] for the plaintext [data] when the
    nonce drawn is [nonce], and what [restoreChunk] makes of the bytes that
    [Get] returns. *)
Module pipeline.
Section Pipeline.
Context `{Zstd} `{AEAD}.

Definition encode (compressor : option compress.Compressor)
    (encryptor : option crypto.Encryptor) (nonce data : bytes) : Result bytes :=
  match (match compressor with
         | Some c => compress.Compress c data
         | None => Ok data
         end) with
  | Err e => Err e
  | Ok data =>
      match encryptor with
      | Some e => Ok (nonce ++ aead_Seal (crypto.key e) nonce data)
      | None => Ok data
      end
  end.

Definition decode (compressor : option compress.Compressor)
    (encryptor : option crypto.Encryptor) (stored : bytes) : Result bytes :=
  match (match encryptor with
         | Some e => crypto.Decrypt e stored
         | None => Ok stored
         end) with
  | Err e => Err e
  | Ok data =>
      match compressor with
      | Some c => compress.Decompress c data
      | None => Ok data
      end
  end.

End Pipeline.
End pipeline.

(** ** Notions used in the statements *)

(** The (offset, length, digest) triple of a chunk. *)
Definition triple (ch : models.Chunk.t) : Z * Z * string :=
  (models.Chunk.Offset ch, models.Chunk.Size ch, models.Chunk.Hash ch).

(** The entries that the walk can record: those reached from the root
    through directories none of which is excluded, and not excluded
    themselves.  [kept s relPath e k]: below the entry [e] at [relPath],
    such an entry has the relative path [k]. *)
Inductive kept (s : scanner.Scanner) : string -> FsEntry -> string -> Prop :=
| kept_file relPath name mode size mtime :
    scanner.shouldExclude s relPath name = false ->
    kept s relPath (FsFile name mode size mtime) relPath
| kept_dir relPath name mode size mtime children :
    scanner.shouldExclude s relPath name = false ->
    kept s relPath (FsDir name mode size mtime children) relPath
| kept_below relPath name mode size mtime children child k :
    scanner.shouldExclude s relPath name = false ->
    In child children ->
    kept s (scanner.relChild relPath (scanner.entryName child)) child k ->
    kept s relPath (FsDir name mode size mtime children) k.

(** An error of the last step of [Create], the write of the record. *)
Definition saveError (e : error) : Prop :=
  exists cause, e = ErrWrap "failed to save snapshot" cause.

(** An unreadable entry that the walk comes to: the entry itself, or one
    below a directory that is not excluded.  [reachesBroken s relPath e err]:
    at or below the entry [e] at [relPath] the walk meets an entry whose
    error is [err]. *)
Inductive reachesBroken (s : scanner.Scanner) : string -> FsEntry -> error -> Prop :=
| broken_here relPath name err :
    reachesBroken s relPath (FsBroken name err) err
| broken_below relPath name mode size mtime children child err :
    scanner.shouldExclude s relPath name = false ->
    In child children ->
    reachesBroken s (scanner.relChild relPath (scanner.entryName child)) child err ->
    reachesBroken s relPath (FsDir name mode size mtime children) err.

(** Whether the loop of [Restore] restores an entry when the target
    directory is as [w] has it: the entry is a regular file, passes the
    filters, and is not skipped as existing. *)
Definition wouldRestore (opts : models.RestoreOptions.t) (w : World)
    (entry : string * models.FileNode.t) : bool :=
  negb (models.FileNode.IsDir (snd entry))
  && restore.shouldRestore (fst entry) (models.RestoreOptions.IncludePattern opts)
       (models.RestoreOptions.ExcludePattern opts)
  && (models.RestoreOptions.Overwrite opts
      || negb (bool_decide (is_Some
           (targets w !! filepath.Join [models.RestoreOptions.TargetPath opts; fst entry])))).

(** The chunk named [h] is in the store of the restorer [r] and decodes to
    the bytes [d]. *)
Definition decodes `{Zstd} `{AEAD} (r : restore.Restorer) (w : World)
    (h : string) (d : bytes) : Prop :=
  exists stored,
    store.Get (restore.cas r) h w = Ok stored /\
    pipeline.decode (restore.compressor r) (restore.encryptor r) stored = Ok d.

(** ** Stand-ins for the interfaces

    Instances used to run the model on concrete inputs.  They are not the
    libraries' algorithms; theorems are stated for every instance. *)

(** A rolling hash: the window, and the sum of its bytes as the value. *)
Definition sum_hash : RollingHash := {|
  rk_state := bytes;
  rk_New := [];
  rk_Write := fun s data => s ++ data;
  rk_Roll := fun s b => tail s ++ [b];
  rk_Sum64 := fun s => to_uint64 (fold_left (fun acc b => acc + byte_to_Z b) s 0);
  rk_Reset := fun _ => [];
|}.

(** An operating system that never fails a write: the source tree is
    [root], the file at path [p] reads as [files !! p] in one piece, and the
    nonce of the [t]-th request is [t] on twelve bytes. *)
Definition static_os (root : Result FsEntry) (files : gmap string bytes) : OS := {|
  os_now := fun t => 1700000000000000000 + Z.of_nat t;
  os_walk := fun _ _ => root;
  os_open := fun _ p =>
    match files !! p with
    | Some data => Ok (reader_of [data])
    | None => Err (ErrNotExist p)
    end;
  os_rand := fun t => Some (map byte_of_Z (sha256.be_bytes 12 (Z.of_nat t)));
  os_call := fun _ => None;
  os_write := fun _ => WriteOk;
|}.

Definition empty_world : World := mkWorld 0 ∅ ∅ ∅.

(** A codec: nothing for no data, else the zstd magic number and the data
    stored as it is. *)
Definition stored_magic : bytes := [x28; xb5; x2f; xfd].

Definition stored_zstd : Zstd := {|
  zstd_EncodeAll := fun _ data =>
    match data with
    | [] => []
    | _ => stored_magic ++ data
    end;
  zstd_DecodeAll := fun data =>
    match data with
    | [] => Ok []
    | _ =>
        if decide (take 4 data = stored_magic) then Ok (drop 4 data)
        else Err ErrDecode
    end;
|}.

Definition xor_bits (a b : bool * (bool * (bool * (bool * (bool * (bool * (bool * bool)))))))
  : bool * (bool * (bool * (bool * (bool * (bool * (bool * bool)))))) :=
  let '(a0, (a1, (a2, (a3, (a4, (a5, (a6, a7))))))) := a in
  let '(b0, (b1, (b2, (b3, (b4, (b5, (b6, b7))))))) := b in
  (xorb a0 b0, (xorb a1 b1, (xorb a2 b2, (xorb a3 b3,
   (xorb a4 b4, (xorb a5 b5, (xorb a6 b6, xorb a7 b7))))))).

Definition xor_byte (a b : byte) : byte :=
  Byte.of_bits (xor_bits (Byte.to_bits a) (Byte.to_bits b)).

Definition xor_bytes (a b : bytes) : bytes :=
  map (fun p => xor_byte (fst p) (snd p)) (combine a b).

(** An AEAD: the plaintext under a key stream derived from key and nonce,
    then a 16-byte tag over key, nonce and plaintext. *)
Definition toy_stream (key nonce : bytes) (n : nat) : bytes :=
  take n (concat (repeat (sha256.Sum256 (key ++ nonce)) (S (n / 32)))).

Definition toy_tag (key nonce plaintext : bytes) : bytes :=
  take 16 (sha256.Sum256 (key ++ nonce ++ plaintext)).

Definition toy_aead : AEAD := {|
  aead_Seal := fun key nonce plaintext =>
    xor_bytes plaintext (toy_stream key nonce (length plaintext))
      ++ toy_tag key nonce plaintext;
  aead_Open := fun key nonce sealed =>
    let n := (length sealed - 16)%nat in
    let plaintext := xor_bytes (take n sealed) (toy_stream key nonce n) in
    if decide (drop n sealed = toy_tag key nonce plaintext) then Some plaintext
    else None;
|}.

(** An operating system like [static_os] whose reads of the source fail
    from the [n]-th request on. *)
Definition flaky_os (n : nat) (root : Result FsEntry) (files : gmap string bytes) : OS := {|
  os_now := fun t => 1700000000000000000 + Z.of_nat t;
  os_walk := fun _ _ => root;
  os_open := fun t p =>
    if (t <? n)%nat then
      match files !! p with
      | Some data => Ok (reader_of [data])
      | None => Err (ErrNotExist p)
      end
    else Err (ErrIO "input/output error");
  os_rand := fun t => Some (map byte_of_Z (sha256.be_bytes 12 (Z.of_nat t)));
  os_call := fun _ => None;
  os_write := fun _ => WriteOk;
|}.

(** A source directory /d with the files a.txt and b.txt. *)
Definition demo_root : FsEntry :=
  FsDir "d" 493 4096 1000 [FsFile "a.txt" 420 5 1000; FsFile "b.txt" 420 5 2000].

Definition demo_files : gmap string bytes :=
  {[ "/d/a.txt" := bytes_of_string "hello"; "/d/b.txt" := bytes_of_string "world" ]}.

Definition demo_manager (compressor : option compress.Compressor)
    (encryptor : option crypto.Encryptor) : snapshot.Manager :=
  snapshot.mkManager "/r" (store.mkCAS "/r/objects" ∅) compressor encryptor
    chunker.NewDefault (scanner.New [] 4).

Definition demo_os : OS := static_os (Ok demo_root) demo_files.

Definition demo_progress : snapshot.Progress :=
  snapshot.mkProgress (models.FileTree.mk (scanner.rootNode "/d" demo_root) ∅ 0 0 0) 0 0 0.

Definition demo_key : crypto.Encryptor :=
  crypto.mkEncryptor (bytes_of_string "0123456789abcdef0123456789abcdef") [].

Definition demo_options : models.RestoreOptions.t :=
  models.RestoreOptions.mk "" "/t" [] [] false true false.

(** A backup of /d into the empty repository /r, then a restore into /t
    by a restorer opened on the same repository with the same settings:
    the errors of the restore, the number of files it reports restored, and
    the bytes of the files below /t. *)
Definition demo_round_trip (compressor : option compress.Compressor)
    (encryptor : option crypto.Encryptor)
  : option (list (string * error) * Z * list (string * bytes)) :=
  match snapshot.Create (H := demo_os) (H0 := sum_hash) (H1 := stored_zstd) (H2 := toy_aead)
          (demo_manager compressor encryptor) "/d" "demo" "" empty_world with
  | (Ok snap, _, w) =>
      let r := restore.NewRestorer (store.mkCAS "/r/objects" ∅) compressor encryptor in
      match restore.Restore (H := demo_os) (H0 := stored_zstd) (H1 := toy_aead)
              r snap demo_options w with
      | (Ok result, w') =>
          Some (restore.Errors result, restore.FilesRestored result,
                map (fun pf => (fst pf, tf_data (snd pf))) (map_to_list (targets w')))
      | (Err _, _) => None
      end
  | (Err _, _, _) => None
  end.

(** The record of a backup of /d that holds a.txt in one chunk, and a
    repository /r whose store holds that chunk. *)
Definition demo_node : models.FileNode.t :=
  models.FileNode.mk "/d/a.txt" "a.txt" false 420 5 1000
    (digest (bytes_of_string "hello")) [digest (bytes_of_string "hello")].

Definition demo_snapshot : models.Snapshot.t :=
  models.Snapshot.mk "1700000000000000003" 1700000000000000004 "" "demo"
    (models.FileTree.mk (scanner.rootNode "/d" demo_root) {[ "a.txt" := demo_node ]} 5 1 0)
    (models.SnapshotStats.mk 5 5 1 1 0 7 1 0 0 0) false false.

Definition demo_restorer : restore.Restorer :=
  restore.NewRestorer (store.mkCAS "/r/objects" ∅) None None.

Definition demo_store : World :=
  with_objects
    {[ store.objectPath (store.mkCAS "/r/objects" ∅) (digest (bytes_of_string "hello"))
       := bytes_of_string "hello" ]} empty_world.

(** A key derivation: the SHA-256 digest of password and salt, repeated
    and cut to the length asked for. *)
Definition toy_kdf : Argon2 := {|
  argon2_IDKey := fun password salt _ _ _ keyLen =>
    take (Z.to_nat keyLen)
      (concat (repeat (sha256.Sum256 (password ++ salt)) (S (Z.to_nat keyLen / 32))));
|}.

(** ** Repeated calls, as a test drives them *)
Module calls.
Section Calls.
Context `{OS}.

Fixpoint PutN (n : nat) (c : store.CAS) (data : bytes) (w : World)
  : list (Result string) * store.CAS * World :=
  match n with
  | O => ([], c, w)
  | S n' =>
      let '(r, c, w) := store.Put c data w in
      let '(rs, c, w) := PutN n' c data w in
      (r :: rs, c, w)
  end.

Fixpoint DeleteN (n : nat) (c : store.CAS) (hash : string) (w : World)
  : list (Result unit) * store.CAS * World :=
  match n with
  | O => ([], c, w)
  | S n' =>
      let '(r, c, w) := store.Delete c hash w in
      let '(rs, c, w) := DeleteN n' c hash w in
      (r :: rs, c, w)
  end.

End Calls.
End calls.

(** * Properties *)

(** ** Test vectors for the digest (FIPS 180-4) *)

Example digest_empty :
  digest [] = "e3b0c44298fc1c149afbf4c8996fb92427ae41e4649b934ca495991b7852b855".
Proof. vm_compute. reflexivity. Qed.

Example digest_abc :
  digest (bytes_of_string "abc")
  = "ba7816bf8f01cfea414140de5dae2223b00361a396177a9cb410ff61f20015ad".
Proof. vm_compute. reflexivity. Qed.

Example digest_two_blocks :
  digest (bytes_of_string "abcdbcdecdefdefgefghfghighijhijkijkljklmklmnlmnomnopnopq")
  = "248d6a61d20638b8e5c026930c3e6039a33ce45964ff2167f6ecedd419db06c1".
Proof. vm_compute. reflexivity. Qed.

(** ** The chunker *)
Section ChunkerFacts.
Context `{RollingHash}.
Import models chunker.

(** The bytes a state has consumed: the emitted chunks, then the chunk
    under construction. *)
Definition consumed (st : State) : bytes :=
  concat (map Chunk.Data (chunks st)) ++ currentChunk st.

(** Every emitted chunk lies within the size bounds and the chunk under
    construction is still below the maximum. *)
Record sized (c : Chunker) (st : State) : Prop := mkSized {
  sized_chunks :
    Forall (fun ch => minSize c <= Z.of_nat (length (Chunk.Data ch)) <= maxSize c)
           (chunks st);
  sized_current : Z.of_nat (length (currentChunk st)) < maxSize c;
}.

Lemma step_consumed c st b : consumed (step c st b) = consumed st ++ [b].
Proof.
  unfold consumed, step.
  repeat match goal with |- context [if ?x then _ else _] => destruct x end;
    cbn [chunks currentChunk]; rewrite ?map_app, ?concat_app; cbn;
    rewrite ?app_nil_r, ?app_assoc; reflexivity.
Qed.

Lemma fold_step_consumed c data st :
  consumed (fold_left (step c) data st) = consumed st ++ data.
Proof.
  revert st. induction data as [|b data IH]; intros st; cbn.
  - now rewrite app_nil_r.
  - rewrite IH, step_consumed, <- app_assoc. reflexivity.
Qed.

Lemma step_sized c st b :
  minSize c <= maxSize c -> sized c st -> sized c (step c st b).
Proof.
  intros Hmm [Hch Hcur]. unfold step.
  set (cur := currentChunk st ++ [b]).
  assert (Hlen : Z.of_nat (length cur) = Z.of_nat (length (currentChunk st)) + 1).
  { unfold cur. rewrite length_app. cbn. lia. }
  destruct (Z.of_nat (length cur) >=? maxSize c) eqn:Hmax.
  - split; cbn [chunks currentChunk].
    + apply Forall_app. split; [exact Hch|]. repeat constructor; cbn; lia.
    + cbn. lia.
  - destruct (Z.of_nat (length cur) >=? minSize c) eqn:Hmin.
    + match goal with |- context [if ?x then _ else _] => destruct x end.
      * split; cbn [chunks currentChunk].
        -- apply Forall_app. split; [exact Hch|]. repeat constructor; cbn; lia.
        -- cbn. lia.
      * split; cbn [chunks currentChunk]; [exact Hch | lia].
    + split; cbn [chunks currentChunk]; [exact Hch | lia].
Qed.

Lemma fold_step_sized c data st :
  minSize c <= maxSize c -> sized c st -> sized c (fold_left (step c) data st).
Proof.
  intros Hmm. revert st. induction data as [|b data IH]; intros st Hst; cbn.
  - exact Hst.
  - apply IH, step_sized; assumption.
Qed.

(** A reader that delivers [X] without error drives the loop through
    exactly the bytes of [X], however its reads are cut. *)
Lemma readLoop_ReadAll c r : forall st X,
  ReadAll r = Ok X -> readLoop c st r = Ok (fold_left (step c) X st).
Proof.
  induction r as [|[data err] r IH]; intros st X HX; cbn in HX.
  - injection HX as <-. reflexivity.
  - destruct err as [[|e]|].
    + injection HX as <-. destruct data; reflexivity.
    + discriminate.
    + destruct (ReadAll r) as [more|] eqn:Hr; [|discriminate].
      injection HX as <-. rewrite fold_left_app.
      destruct data as [|b data]; cbn.
      * apply IH. reflexivity.
      * apply IH. reflexivity.
Qed.

Lemma init_sized c : 0 < maxSize c -> sized c init.
Proof. intros Hmax. split; cbn; [constructor | lia]. Qed.

Lemma init_consumed : consumed init = [].
Proof. reflexivity. Qed.

(** The result of [Chunk] in terms of the final loop state. *)
Lemma Chunk_ReadAll c r X :
  ReadAll r = Ok X ->
  exists st, st = fold_left (step c) X init /\
    Chunk c r = Ok (if (0 <? length (currentChunk st))%nat
                    then chunks st ++ [createChunk (currentChunk st) (offset st)]
                    else chunks st).
Proof.
  intros HX. eexists. split; [reflexivity|].
  unfold Chunk. rewrite (readLoop_ReadAll c r init X HX).
  destruct (0 <? _)%nat; reflexivity.
Qed.

End ChunkerFacts.

Section ChunkerClaims.
Context `{RollingHash}.
Import models chunker.

(** C4 (chunk coverage).  For every reader that delivers the byte sequence
    [X] without error and every parameter triple with
    [0 < min <= avg <= max], [Chunker.Chunk] returns chunks whose
    concatenation, in emission order, is [X]; every chunk has between 1 and
    [max] bytes, and every chunk except possibly the last has at least
    [min] bytes. *)
Theorem Chunk_coverage (minS avgS maxS : Z) (r : Reader) (X : bytes) :
  0 < minS -> minS <= avgS -> avgS <= maxS ->
  ReadAll r = Ok X ->
  exists cs,
    Chunk (New minS avgS maxS) r = Ok cs /\
    concat (map Chunk.Data cs) = X /\
    Forall (fun ch => 1 <= Z.of_nat (length (Chunk.Data ch)) <= maxS) cs /\
    (forall pre last, cs = pre ++ [last] ->
       Forall (fun ch => minS <= Z.of_nat (length (Chunk.Data ch))) pre).
Proof.
  intros Hmin Havg Hmax HX.
  set (c := New minS avgS maxS).
  assert (Hcmin : minSize c = minS).
  { unfold c, New; cbn. destruct (Z.leb_spec minS 0); [lia | reflexivity]. }
  assert (Hcmax : maxSize c = maxS).
  { unfold c, New; cbn. destruct (Z.leb_spec maxS 0); [lia | reflexivity]. }
  destruct (Chunk_ReadAll c r X HX) as (st & Hst & HChunk).
  assert (Hsized : sized c st).
  { subst st. apply fold_step_sized; [lia|]. apply init_sized. lia. }
  assert (Hcons : consumed st = X).
  { subst st. rewrite fold_step_consumed. reflexivity. }
  destruct Hsized as [Hch Hcur]. rewrite Hcmin, Hcmax in *.
  assert (Hch1 : Forall (fun ch => 1 <= Z.of_nat (length (Chunk.Data ch)) <= maxS) (chunks st)).
  { eapply Forall_impl; [exact Hch|]. cbn. intros ch Hb. lia. }
  assert (Hchmin : Forall (fun ch => minS <= Z.of_nat (length (Chunk.Data ch))) (chunks st)).
  { eapply Forall_impl; [exact Hch|]. cbn. intros ch Hb. lia. }
  eexists. split; [exact HChunk|].
  destruct (Nat.ltb_spec 0 (length (currentChunk st))) as [Hpos|Hzero].
  - split; [|split].
    + rewrite map_app, concat_app. cbn. rewrite app_nil_r. exact Hcons.
    + apply Forall_app. split; [exact Hch1|].
      repeat constructor; cbn; lia.
    + intros pre last Heq. apply app_inj_tail in Heq as [<- _]. exact Hchmin.
  - split; [|split].
    + unfold consumed in Hcons.
      destruct (currentChunk st); [|cbn in Hzero; lia].
      rewrite app_nil_r in Hcons. exact Hcons.
    + exact Hch1.
    + intros pre last Heq. rewrite Heq in Hchmin.
      apply Forall_app in Hchmin as [Hpre _]. exact Hpre.
Qed.

(** C8 (chunker determinism).  For every parameter triple, two runs of
    [Chunker.Chunk] over readers that deliver the same byte sequence [X],
    cut into reads in whatever way, both succeed and produce the same
    ordered sequence of (offset, length, digest) triples. *)
Theorem Chunk_deterministic (minS avgS maxS : Z) (r1 r2 : Reader) (X : bytes) :
  ReadAll r1 = Ok X -> ReadAll r2 = Ok X ->
  exists cs1 cs2,
    Chunk (New minS avgS maxS) r1 = Ok cs1 /\
    Chunk (New minS avgS maxS) r2 = Ok cs2 /\
    map triple cs1 = map triple cs2.
Proof.
  intros H1 H2.
  destruct (Chunk_ReadAll (New minS avgS maxS) r1 X H1) as (st1 & Hst1 & HC1).
  destruct (Chunk_ReadAll (New minS avgS maxS) r2 X H2) as (st2 & Hst2 & HC2).
  rewrite <- Hst1 in Hst2. subst st2.
  do 2 eexists. split; [exact HC1|]. split; [exact HC2|]. reflexivity.
Qed.

End ChunkerClaims.

Lemma Chunk_coverage_witness :
  exists cs,
    chunker.Chunk (H := sum_hash) (chunker.New 2 4 8)
      (reader_of [bytes_of_string "abc"; bytes_of_string "defghijklmnopqrst"]) = Ok cs /\
    concat (map models.Chunk.Data cs) = bytes_of_string "abcdefghijklmnopqrst" /\
    Forall (fun ch => 1 <= Z.of_nat (length (models.Chunk.Data ch)) <= 8) cs /\
    (forall pre last, cs = pre ++ [last] ->
       Forall (fun ch => 2 <= Z.of_nat (length (models.Chunk.Data ch))) pre).
Proof.
  apply (Chunk_coverage (H := sum_hash) 2 4 8); [lia | lia | lia | reflexivity].
Defined.

Lemma Chunk_deterministic_witness :
  exists cs1 cs2,
    chunker.Chunk (H := sum_hash) (chunker.New 2 4 8)
      (reader_of [bytes_of_string "abc"; bytes_of_string "defghijklmnopqrst"]) = Ok cs1 /\
    chunker.Chunk (H := sum_hash) (chunker.New 2 4 8)
      (reader_of [bytes_of_string "abcdefghij"; []; bytes_of_string "klmnopqrst"]) = Ok cs2 /\
    map triple cs1 = map triple cs2.
Proof.
  apply (Chunk_deterministic (H := sum_hash) 2 4 8 _ _
           (bytes_of_string "abcdefghijklmnopqrst")); reflexivity.
Defined.

(** The offsets and sizes the stand-in hash produces on this input. *)
Example Chunk_example :
  match chunker.Chunk (H := sum_hash) (chunker.New 2 4 8)
          (reader_of [bytes_of_string "abc"; bytes_of_string "defghijklmnopqrst"]) with
  | Ok cs => map (fun ch => (models.Chunk.Offset ch, models.Chunk.Size ch)) cs
  | Err _ => []
  end = [(0, 2); (2, 8); (10, 2); (12, 2); (14, 2); (16, 2); (18, 2)].
Proof. vm_compute. reflexivity. Qed.

(** ** The content-addressable store *)

Lemma wrap64_small z : - 2 ^ 63 <= z < 2 ^ 63 -> wrap64 z = z.
Proof. intros Hz. unfold wrap64. rewrite Z.mod_small; lia. Qed.

Section StoreFacts.
Context `{OS}.
Import store calls.

Lemma objectPath_with_refCount rc c hash :
  objectPath (with_refCount rc c) hash = objectPath c hash.
Proof. reflexivity. Qed.

Lemma Has_true c hash w :
  Has c hash w = true <-> is_Some (objects w !! objectPath c hash).
Proof. unfold Has. apply bool_decide_eq_true. Qed.

Lemma Has_false c hash w :
  Has c hash w = false <-> objects w !! objectPath c hash = None.
Proof.
  unfold Has. rewrite bool_decide_eq_false. rewrite <- eq_None_not_Some. reflexivity.
Qed.

(** [Put] of data whose object file is present: the early return. *)
Lemma Put_present c data w :
  Has c (digest data) w = true ->
  Put c data w =
    (Ok (digest data),
     with_refCount
       (<[digest data := wrap64 (default 0 (refCount c !! digest data) + 1)]> (refCount c)) c,
     w).
Proof. intros HHas. unfold Put. rewrite HHas. reflexivity. Qed.

(** [Put] of data whose object file is absent, when the directory creation
    and the write succeed. *)
Lemma Put_absent c data w :
  Has c (digest data) w = false ->
  os_call (tick w) = None -> os_write (S (tick w)) = WriteOk ->
  Put c data w =
    (Ok (digest data),
     with_refCount (<[digest data := 1]> (refCount c)) c,
     next (with_objects (<[objectPath c (digest data) := data]> (objects w)) (next w))).
Proof.
  intros HHas Hcall Hwrite. unfold Put. rewrite HHas, Hcall. cbn.
  rewrite Hwrite. reflexivity.
Qed.

Lemma PutN_present n : forall c data w k,
  Has c (digest data) w = true ->
  default 0 (refCount c !! digest data) = k ->
  0 <= k -> k + Z.of_nat (S n) < 2 ^ 63 ->
  PutN (S n) c data w =
    (repeat (Ok (digest data)) (S n),
     with_refCount (<[digest data := k + Z.of_nat (S n)]> (refCount c)) c,
     w).
Proof.
  induction n as [|n IH]; intros c data w k HHas Hk Hk0 Hbound.
  - cbn [PutN]. rewrite (Put_present _ _ _ HHas), Hk.
    rewrite wrap64_small by lia. reflexivity.
  - change (PutN (S (S n)) c data w)
      with (let '(r, c, w) := Put c data w in
            let '(rs, c, w) := PutN (S n) c data w in (r :: rs, c, w)).
    rewrite (Put_present _ _ _ HHas), Hk.
    rewrite wrap64_small by lia.
    erewrite (IH _ data w (k + 1)); [| exact HHas | | lia | lia].
    + cbn [repeat]. f_equal. f_equal. unfold with_refCount; cbn.
      rewrite insert_insert_eq. do 2 f_equal. lia.
    + cbn. rewrite lookup_insert_eq. reflexivity.
Qed.

Lemma Remove_present path data w :
  objects w !! path = Some data -> os_call (tick w) = None ->
  Remove path w = (Ok tt, next (with_objects (delete path (objects w)) w)).
Proof. intros Hp Hcall. unfold Remove. rewrite Hp, Hcall. reflexivity. Qed.

Lemma Remove_absent path w :
  objects w !! path = None -> Remove path w = (Err (ErrNotExist path), w).
Proof. intros Hp. unfold Remove. rewrite Hp. reflexivity. Qed.

Lemma DeleteN_counted n : forall c hash data w,
  FaultFree ->
  refCount c !! hash = Some (Z.of_nat (S n)) -> Z.of_nat (S n) < 2 ^ 63 ->
  objects w !! objectPath c hash = Some data ->
  DeleteN (S n) c hash w =
    (repeat (Ok tt) (S n),
     with_refCount (delete hash (refCount c)) c,
     next (with_objects (delete (objectPath c hash) (objects w)) w)).
Proof.
  induction n as [|n IH]; intros c hash data w HF Hrc Hbound Hobj.
  - cbn [DeleteN]. unfold Delete. rewrite Hrc. cbn [Z.of_nat Z.gtb Z.compare Pos.compare Pos.of_succ_nat].
    rewrite objectPath_with_refCount.
    rewrite (Remove_present _ _ _ Hobj) by apply HF. reflexivity.
  - change (DeleteN (S (S n)) c hash w)
      with (let '(r, c, w) := Delete c hash w in
            let '(rs, c, w) := DeleteN (S n) c hash w in (r :: rs, c, w)).
    unfold Delete at 1. rewrite Hrc.
    destruct (Z.gtb_spec (Z.of_nat (S (S n))) 1) as [_|Hle]; [|lia].
    rewrite wrap64_small by lia.
    erewrite (IH _ hash data w HF); [| | lia | exact Hobj].
    + cbn [repeat]. f_equal. f_equal. unfold with_refCount; cbn.
      rewrite delete_insert_eq. reflexivity.
    + cbn. rewrite lookup_insert_eq. f_equal. lia.
Qed.

End StoreFacts.

Section StoreClaims.
Context `{OS}.
Import store calls.

(** C5 (CAS idempotence).  In an environment without write failures, and
    for data [X] that this process has not stored before: [n >= 1] calls of
    [Put X] all return the digest of [X] and leave the store with exactly
    one object file for it, at the digest's path (the file that was already
    there, or else [X]); [n] calls of [Delete] on that digest then all
    succeed and leave no file at that path; and one more [Delete] fails with
    the operating system's does-not-exist error, changing nothing. *)
Theorem Put_Delete_idempotent (n : nat) (c : CAS) (X : bytes) (w : World) :
  FaultFree ->
  (1 <= n)%nat -> Z.of_nat n < 2 ^ 63 ->
  refCount c !! digest X = None ->
  let h := digest X in
  let p := objectPath c h in
  exists c1 w1 c2 w2,
    PutN n c X w = (repeat (Ok h) n, c1, w1) /\
    objects w1 = <[p := default X (objects w !! p)]> (objects w) /\
    DeleteN n c1 h w1 = (repeat (Ok tt) n, c2, w2) /\
    objects w2 = delete p (objects w) /\
    Delete c2 h w2 = (Err (ErrNotExist p), c2, w2).
Proof.
  intros HF Hn Hbound Hfresh h p.
  destruct n as [|m]; [lia|].
  assert (Hlast : forall c2 w2,
    refCount c2 !! h = None -> basePath c2 = basePath c ->
    objects w2 !! p = None ->
    Delete c2 h w2 = (Err (ErrNotExist p), c2, w2)).
  { intros c2 w2 Hrc Hbase Hobj. unfold Delete. rewrite Hrc.
    assert (Hp : objectPath c2 h = p) by (unfold p, objectPath; now rewrite Hbase).
    rewrite Hp, (Remove_absent _ _ Hobj). reflexivity. }
  destruct (Has c h w) eqn:HHas.
  - (* the object file is already on disk *)
    pose proof (proj1 (Has_true _ _ _) HHas) as [d Hd]. fold p in Hd.
    do 4 eexists. split; [|split; [|split; [|split]]].
    + apply (PutN_present m c X w 0); [exact HHas | | lia | lia].
      now rewrite Hfresh.
    + rewrite Hd. cbn. symmetry. apply insert_id. exact Hd.
    + apply (DeleteN_counted m _ h d w HF); [| lia | exact Hd].
      cbn. rewrite lookup_insert_eq. reflexivity.
    + reflexivity.
    + apply Hlast; cbn.
      * rewrite delete_insert_eq. apply lookup_delete_eq.
      * reflexivity.
      * apply lookup_delete_eq.
  - (* the first Put writes the object file *)
    pose proof (proj1 (Has_false _ _ _) HHas) as Hnone. fold p in Hnone.
    set (c1 := with_refCount (<[h := 1]> (refCount c)) c).
    set (w1 := next (with_objects (<[p := X]> (objects w)) (next w))).
    assert (HPut : Put c X w = (Ok h, c1, w1)).
    { apply Put_absent; [exact HHas | apply HF | apply HF]. }
    assert (Hobj1 : objects w1 !! objectPath c1 h = Some X).
    { cbn. apply lookup_insert_eq. }
    assert (HPutN : exists c1', PutN (S m) c X w = (repeat (Ok h) (S m), c1', w1) /\
              refCount c1' !! h = Some (Z.of_nat (S m)) /\ basePath c1' = basePath c /\
              delete h (refCount c1') = delete h (refCount c)).
    { change (PutN (S m) c X w)
        with (let '(r, c, w) := Put c X w in
              let '(rs, c, w) := PutN m c X w in (r :: rs, c, w)).
      rewrite HPut. destruct m as [|m'].
      - exists c1. cbn. rewrite lookup_insert_eq, delete_insert_eq. auto.
      - erewrite (PutN_present m' c1 X w1 1); [| | | lia | lia].
        + eexists. split; [reflexivity|]. cbn.
          rewrite insert_insert_eq, lookup_insert_eq, delete_insert_eq.
          split; [f_equal; lia | auto].
        + apply Has_true. exists X. exact Hobj1.
        + cbn. rewrite lookup_insert_eq. reflexivity. }
    destruct HPutN as (c1' & HPutN & Hrc1 & Hbase1 & Hdel1).
    assert (Hp1 : objectPath c1' h = p).
    { unfold p, objectPath. now rewrite Hbase1. }
    exists c1', w1. do 2 eexists. split; [exact HPutN|]. split; [|split; [|split]].
    + rewrite Hnone. reflexivity.
    + apply (DeleteN_counted m c1' h X w1 HF Hrc1); [lia|].
      rewrite Hp1. cbn. apply lookup_insert_eq.
    + cbn. rewrite Hp1, delete_insert_eq. reflexivity.
    + apply Hlast; cbn.
      * apply lookup_delete_eq.
      * exact Hbase1.
      * rewrite Hp1. apply lookup_delete_eq.
Qed.

(** C6 ([CAS.Get]).  [Get] fails with the not-found error when there is no
    object file for the digest, fails with the corruption error when the
    file's bytes digest to something else, and returns the file's bytes
    when they digest to the requested digest; it returns bytes only when
    they are the file's bytes and digest to the requested digest. *)
Theorem Get_verified (c : CAS) (hash : string) (w : World) :
  (objects w !! objectPath c hash = None ->
     Get c hash w = Err (ErrNotFound hash)) /\
  (forall data, objects w !! objectPath c hash = Some data ->
     digest data <> hash -> Get c hash w = Err (ErrCorruption hash)) /\
  (forall data, objects w !! objectPath c hash = Some data ->
     digest data = hash -> Get c hash w = Ok data) /\
  (forall data, Get c hash w = Ok data ->
     objects w !! objectPath c hash = Some data /\ digest data = hash).
Proof.
  unfold Get. split; [|split; [|split]].
  - intros ->. reflexivity.
  - intros data -> Hne. destruct (decide (digest data = hash)); [contradiction | reflexivity].
  - intros data -> Heq. destruct (decide (digest data = hash)); [reflexivity | contradiction].
  - intros data. destruct (objects w !! objectPath c hash) as [d|]; [|discriminate].
    destruct (decide (digest d = hash)); [|discriminate].
    intros [= <-]. auto.
Qed.

(** C10 ([Put] of stored data).  When the object file for the digest of [X]
    is present, [Put X] returns the digest and leaves the whole file system
    as it was: no file is written or renamed.  Only the reference count of
    that digest changes: it is incremented (from 0 when the digest had no
    count yet). *)
Theorem Put_existing_frame (c : CAS) (X : bytes) (w : World) :
  Has c (digest X) w = true ->
  exists c',
    Put c X w = (Ok (digest X), c', w) /\
    basePath c' = basePath c /\
    refCount c' !! digest X
      = Some (wrap64 (default 0 (refCount c !! digest X) + 1)) /\
    (forall h, h <> digest X -> refCount c' !! h = refCount c !! h).
Proof.
  intros HHas. eexists. split; [apply Put_present; exact HHas|].
  cbn. split; [reflexivity|]. split.
  - apply lookup_insert_eq.
  - intros h Hne. apply lookup_insert_ne. congruence.
Qed.

End StoreClaims.

Lemma Put_Delete_idempotent_witness :
  let H := static_os (Err (ErrIO "")) ∅ in
  let c := store.mkCAS "/r/objects" ∅ in
  let X := bytes_of_string "abc" in
  exists c1 w1 c2 w2,
    calls.PutN 2 c X empty_world = ([Ok (digest X); Ok (digest X)], c1, w1) /\
    objects w1 = <[store.objectPath c (digest X) := X]> ∅ /\
    calls.DeleteN 2 c1 (digest X) w1 = ([Ok tt; Ok tt], c2, w2) /\
    objects w2 = delete (store.objectPath c (digest X)) ∅ /\
    store.Delete c2 (digest X) w2
      = (Err (ErrNotExist (store.objectPath c (digest X))), c2, w2).
Proof.
  intros H c X.
  apply (Put_Delete_idempotent (H := H) 2 c X empty_world).
  - intros t. split; reflexivity.
  - lia.
  - lia.
  - reflexivity.
Defined.

Lemma Put_existing_frame_witness :
  let H := static_os (Err (ErrIO "")) ∅ in
  let c := store.mkCAS "/r/objects" ∅ in
  let X := bytes_of_string "abc" in
  let w := with_objects {[ store.objectPath c (digest X) := X ]} empty_world in
  exists c',
    store.Put c X w = (Ok (digest X), c', w) /\
    store.basePath c' = store.basePath c /\
    store.refCount c' !! digest X
      = Some (wrap64 (default 0 (store.refCount c !! digest X) + 1)) /\
    (forall h, h <> digest X -> store.refCount c' !! h = store.refCount c !! h).
Proof.
  intros H c X w.
  apply (Put_existing_frame (H := H) c X w).
  vm_compute. reflexivity.
Defined.

(** The path of an object: two levels, the first two digits first. *)
Example objectPath_abc :
  store.objectPath (store.mkCAS "/r/objects" ∅) (digest (bytes_of_string "abc"))
  = "/r/objects/ba/ba7816bf8f01cfea414140de5dae2223b00361a396177a9cb410ff61f20015ad".
Proof. vm_compute. reflexivity. Qed.

(** ** Glob matching on examples *)

Example Match_examples :
  map (fun pn => filepath.Match (fst pn) (snd pn))
    [ ("*.log", "a.log"); ("*.log", "a.txt"); ("*", "a/b"); ("a/*", "a/b");
      ("?b", "ab"); ("[a-c]x", "bx"); ("[^a-c]x", "bx"); ("a*b*c", "aXbYbZc");
      ("a\*", "a*"); ("[", "["); ("*.go", ".go"); ("docs/*.md", "docs/a.md");
      ("docs/*.md", "a.md"); ("a*", "a/b"); ("", ""); ("*x", "xyx") ]
  = [ true; false; false; true;
      true; true; false; true;
      true; false; true; true;
      false; false; true; true ].
Proof. vm_compute. reflexivity. Qed.

Example Base_examples :
  map filepath.Base ["a/b/c.txt"; "c.txt"; "a/b/"; ""; "/"; "a//b"]
  = ["c.txt"; "c.txt"; "b"; "."; "/"; "b"].
Proof. vm_compute. reflexivity. Qed.

Example ReplaceAll_example :
  strings.ReplaceAll "src/**/a**" "**" "*" = "src/*/a*".
Proof. vm_compute. reflexivity. Qed.

(** ** Substrings *)

Lemma append_cons c a b : String c a +:+ b = String c (a +:+ b).
Proof. reflexivity. Qed.

Lemma append_nil b : "" +:+ b = b.
Proof. reflexivity. Qed.

Lemma HasPrefix_spec prefix : forall s,
  strings.HasPrefix s prefix = true <-> exists post, s = prefix +:+ post.
Proof.
  induction prefix as [|p prefix IH]; intros s; cbn.
  - split; [intros _; exists s; reflexivity | reflexivity].
  - destruct s as [|c s]; cbn.
    + split; [discriminate | intros [post Hpost]; rewrite append_cons in Hpost; discriminate].
    + destruct (decide (p = c)) as [->|Hne].
      * rewrite IH. split; intros [post Hpost]; exists post;
          rewrite append_cons in *; congruence.
      * split; [discriminate | intros [post Hpost]; rewrite append_cons in Hpost; congruence].
Qed.

Lemma Contains_of_prefix s substr :
  strings.HasPrefix s substr = true -> strings.Contains s substr = true.
Proof. intros Hp. destruct s; cbn [strings.Contains]; rewrite Hp; reflexivity. Qed.

Lemma Contains_spec substr : forall s,
  strings.Contains s substr = true <-> exists pre post, s = pre +:+ substr +:+ post.
Proof.
  intros s. split.
  - induction s as [|c s IH]; cbn.
    + destruct (strings.HasPrefix "" substr) eqn:Hp; [|discriminate].
      intros _. apply HasPrefix_spec in Hp as [post Hpost].
      exists "", post. exact Hpost.
    + destruct (strings.HasPrefix (String c s) substr) eqn:Hp.
      * intros _. apply HasPrefix_spec in Hp as [post Hpost].
        exists "", post. exact Hpost.
      * intros Hc. destruct (IH Hc) as (pre & post & ->).
        exists (String c pre), post. reflexivity.
  - intros (pre & post & ->). induction pre as [|c pre IH].
    + apply Contains_of_prefix, HasPrefix_spec. exists post. reflexivity.
    + rewrite append_cons. cbn [strings.Contains].
      destruct (strings.HasPrefix (String c (pre +:+ substr +:+ post)) substr);
        [reflexivity | exact IH].
Qed.

(** ** The scanner *)
Section ScannerFacts.
Import models scanner.

(** A pattern hits an entry when it equals the base name, glob-matches the
    base name, or occurs in the source-relative path. *)
Definition hits (pattern relPath name : string) : Prop :=
  pattern = name \/
  filepath.Match pattern name = true \/
  exists pre post, relPath = pre +:+ pattern +:+ post.

Lemma shouldExclude_hits s relPath name :
  shouldExclude s relPath name = true <->
  exists pattern, In pattern (exclusions s) /\ hits pattern relPath name.
Proof.
  unfold shouldExclude, hits. induction (exclusions s) as [|pattern rest IH].
  - split; [discriminate | intros (p & [] & _)].
  - destruct (decide (pattern = name)) as [Heq|Hne].
    { split; [|reflexivity]. intros _. exists pattern. cbn. auto. }
    destruct (filepath.Match pattern name) eqn:HM.
    { split; [|reflexivity]. intros _. exists pattern. cbn. auto. }
    destruct (strings.Contains relPath pattern) eqn:HC.
    { split; [|reflexivity]. intros _. exists pattern. split; [cbn; auto|].
      right. right. apply Contains_spec. exact HC. }
    rewrite IH. split.
    + intros (p & Hin & Hp). exists p. split; [right; exact Hin | exact Hp].
    + intros (p & [<-|Hin] & Hp).
      * destruct Hp as [Hp|[Hp|Hp]]; [contradiction | congruence |].
        apply Contains_spec in Hp. congruence.
      * exists p. auto.
Qed.

(** Induction on entries that reaches into the children of a directory. *)
Fixpoint FsEntry_ind' (P : FsEntry -> Prop)
    (Hfile : forall name mode size mtime, P (FsFile name mode size mtime))
    (Hdir : forall name mode size mtime children,
        Forall P children -> P (FsDir name mode size mtime children))
    (Hbroken : forall name e, P (FsBroken name e))
    (e : FsEntry) {struct e} : P e :=
  match e with
  | FsFile name mode size mtime => Hfile name mode size mtime
  | FsDir name mode size mtime children =>
      Hdir name mode size mtime children
        ((fix all (l : list FsEntry) : Forall P l :=
            match l with
            | [] => @List.Forall_nil _ P
            | x :: l' =>
                @List.Forall_cons _ P x l' (FsEntry_ind' P Hfile Hdir Hbroken x) (all l')
            end) children)
  | FsBroken name err => Hbroken name err
  end.

Lemma record_dom path relPath e tree k :
  k ∈ dom (FileTree.Files (record path relPath e tree)) ->
  k ∈ dom (FileTree.Files tree) \/ k = relPath.
Proof.
  destruct e; cbn; rewrite ?dom_insert_L, ?elem_of_union, ?elem_of_singleton; tauto.
Qed.

Lemma walk_kept s e : forall path relPath tree tree',
  walk s path relPath e tree = Ok tree' ->
  forall k, k ∈ dom (FileTree.Files tree') ->
    k ∈ dom (FileTree.Files tree) \/ kept s relPath e k.
Proof.
  induction e as [name mode size mtime | name mode size mtime children IH | name err]
    using FsEntry_ind'; intros path relPath tree tree' Hwalk k Hk; cbn in Hwalk.
  - destruct (shouldExclude s relPath name) eqn:Hex; injection Hwalk as <-.
    + left. exact Hk.
    + apply (record_dom path relPath (FsFile name mode size mtime)) in Hk as [Hk| ->];
        [left; exact Hk|].
      right. constructor. exact Hex.
  - destruct (shouldExclude s relPath name) eqn:Hex.
    { injection Hwalk as <-. left. exact Hk. }
    assert (Hloop : forall l t,
      (forall child, In child l -> In child children) ->
      eachChild (walk s) path relPath l t = Ok tree' ->
      k ∈ dom (FileTree.Files t) \/
      exists child, In child children /\ kept s (relChild relPath (entryName child)) child k).
    { induction l as [|child rest IHl]; intros t Hsub Hl; cbn [eachChild] in Hl.
      - injection Hl as <-. left. exact Hk.
      - destruct (walk s _ _ child t) as [t1|] eqn:Hchild; [|discriminate].
        destruct (IHl t1 (fun c Hc => Hsub c (or_intror Hc)) Hl) as [Hin|Hex'].
        + rewrite List.Forall_forall in IH.
          destruct (IH child (Hsub child (or_introl eq_refl)) _ _ _ _ Hchild k Hin) as [Hin'|Hkept].
          * left. exact Hin'.
          * right. exists child. split; [apply Hsub; left; reflexivity | exact Hkept].
        + right. exact Hex'. }
    destruct (Hloop children _ (fun c Hc => Hc) Hwalk) as [Hin|(child & Hc & Hkept)].
    + apply (record_dom path relPath (FsDir name mode size mtime children)) in Hin
        as [Hin| ->]; [left; exact Hin|].
      right. apply kept_dir. exact Hex.
    + right. eapply kept_below; eauto.
  - discriminate.
Qed.

End ScannerFacts.

Section ScannerClaims.
Import models scanner.

(** C3, as the code has it.  An entry is excluded exactly when some
    exclusion pattern equals its base name, glob-matches its base name, or
    occurs as a substring of its source-relative path (one hit is enough);
    the pattern is not glob-matched against the path.  An excluded
    directory is not entered: the walk leaves the tree as it was, and every
    path the walk does add is reached from the walk's root through
    directories that are not excluded. *)
Theorem shouldExclude_as_coded (s : Scanner) :
  (forall relPath name,
     shouldExclude s relPath name = true <->
     exists pattern, In pattern (exclusions s) /\
       (pattern = name \/ filepath.Match pattern name = true \/
        exists pre post, relPath = pre +:+ pattern +:+ post)) /\
  (forall path relPath name mode size mtime children tree,
     shouldExclude s relPath name = true ->
     walk s path relPath (FsDir name mode size mtime children) tree = Ok tree) /\
  (forall path relPath e tree tree' k,
     walk s path relPath e tree = Ok tree' ->
     k ∈ dom (FileTree.Files tree') ->
     k ∈ dom (FileTree.Files tree) \/ kept s relPath e k).
Proof.
  split; [|split].
  - intros relPath name. apply shouldExclude_hits.
  - intros path relPath name mode size mtime children tree Hex. cbn. rewrite Hex. reflexivity.
  - intros path relPath e tree tree' k Hwalk Hk. eapply walk_kept; eassumption.
Qed.

End ScannerClaims.

(** C3 as stated fails: the pattern "docs/*.md" glob-matches the
    source-relative path "docs/a.md", yet the entry is not excluded, and a
    scan of the tree with that exclusion records the file. *)
Lemma shouldExclude_ignores_path_glob :
  let s := scanner.New ["docs/*.md"] 4 in
  let src := FsDir "src" 493 0 0 [FsDir "docs" 493 0 0 [FsFile "a.md" 420 5 0]] in
  filepath.Match "docs/*.md" "docs/a.md" = true /\
  scanner.shouldExclude s "docs/a.md" "a.md" = false /\
  exists tree,
    scanner.walk s "/src" "." src (models.FileTree.mk (scanner.rootNode "/src" src) ∅ 0 0 0)
      = Ok tree /\
    dom (models.FileTree.Files tree) = {[ "."; "docs"; "docs/a.md" ]}.
Proof.
  cbv zeta. split; [vm_compute; reflexivity|]. split; [vm_compute; reflexivity|].
  eexists. split; [vm_compute; reflexivity|]. vm_compute. reflexivity.
Qed.

(** ** Restore filters *)
Section RestoreFilter.
Import models restore.

Lemma includeLoop_spec path includes : forall included,
  (fix loop (patterns : list string) (included : bool) : bool :=
     match patterns with
     | [] => included
     | pattern :: rest => if matchPattern path pattern then true else loop rest included
     end) includes included = true <->
  included = true \/ exists p, In p includes /\ matchPattern path p = true.
Proof.
  induction includes as [|p rest IH]; intros included.
  - split; [auto | intros [Hi|(p & [] & _)]; exact Hi].
  - destruct (matchPattern path p) eqn:Hp.
    + split; [|reflexivity]. intros _. right. exists p. cbn. auto.
    + rewrite IH. split.
      * intros [Hi|(q & Hq & Hm)]; [auto|]. right. exists q. cbn. auto.
      * intros [Hi|(q & [<-|Hq] & Hm)]; [auto | congruence |]. right. exists q. auto.
Qed.

Lemma excludeLoop_spec path excludes :
  (fix loop (patterns : list string) : bool :=
     match patterns with
     | [] => true
     | pattern :: rest => if matchPattern path pattern then false else loop rest
     end) excludes = true <->
  forall p, In p excludes -> matchPattern path p = false.
Proof.
  induction excludes as [|p rest IH].
  - split; [intros _ p [] | reflexivity].
  - destruct (matchPattern path p) eqn:Hp.
    + split; [discriminate|]. intros Hall. specialize (Hall p (or_introl eq_refl)). congruence.
    + rewrite IH. split.
      * intros Hall q [<-|Hq]; auto.
      * intros Hall q Hq. apply Hall. right. exact Hq.
Qed.

Lemma shouldRestore_spec path includes excludes :
  shouldRestore path includes excludes = true <->
  (includes = [] \/ exists p, In p includes /\ matchPattern path p = true) /\
  (forall p, In p excludes -> matchPattern path p = false).
Proof.
  unfold shouldRestore.
  match goal with |- context [negb ?b] => destruct b eqn:Hinc end; cbn [negb].
  - rewrite excludeLoop_spec. apply includeLoop_spec in Hinc.
    split; [|tauto]. intros Hex. split; [|exact Hex].
    destruct Hinc as [Hi|Hi]; [|auto].
    apply bool_decide_eq_true in Hi. left. now apply length_zero_iff_nil.
  - split; [discriminate|]. intros [Hi _]. exfalso.
    assert (Htrue : (fix loop (patterns : list string) (included : bool) : bool :=
       match patterns with
       | [] => included
       | pattern :: rest => if matchPattern path pattern then true else loop rest included
       end) includes (bool_decide (length includes = 0%nat)) = true).
    { apply includeLoop_spec. destruct Hi as [->|Hi]; [left; reflexivity | right; exact Hi]. }
    congruence.
Qed.

End RestoreFilter.

(** ** Relations that every step of a computation preserves *)
Section Keeps.
Context {S : Type} (R : S -> S -> Prop) `{!PreOrder R}.

(** [keeps R m]: whatever [m] returns, value or error, the state it leaves
    is [R]-related to the state it started in. *)
Definition keeps {A} (m : M S A) : Prop :=
  forall s r s', m s = (r, s') -> R s s'.

Lemma keeps_ret {A} (a : A) : keeps (ret a).
Proof. intros s r s' [= <- <-]. reflexivity. Qed.

Lemma keeps_fail {A} e : keeps (@fail S A e).
Proof. intros s r s' [= <- <-]. reflexivity. Qed.

Lemma keeps_lift {A} (x : Result A) : keeps (lift x).
Proof. intros s r s' [= <- <-]. reflexivity. Qed.

Lemma keeps_bind {A B} (m : M S A) (k : A -> M S B) :
  keeps m -> (forall a, keeps (k a)) -> keeps (bind m k).
Proof.
  intros Hm Hk s r s' Hb. unfold bind in Hb.
  destruct (m s) as [[a|e] s1] eqn:Hms.
  - transitivity s1; [eapply Hm | eapply Hk]; eassumption.
  - injection Hb as <- <-. eapply Hm; eassumption.
Qed.

Lemma keeps_wrapping {A} context (m : M S A) : keeps m -> keeps (wrapping context m).
Proof.
  intros Hm s r s' Hw. unfold wrapping in Hw.
  destruct (m s) as [[a|e] s1] eqn:Hms; injection Hw as <- <-; eapply Hm; eassumption.
Qed.

Lemma keeps_forM {A B} (f : B -> A -> M S B) (l : list A) :
  (forall acc a, keeps (f acc a)) -> forall acc, keeps (forM f l acc).
Proof.
  intros Hf. induction l as [|a l IH]; intros acc; cbn.
  - apply keeps_ret.
  - apply keeps_bind; [apply Hf | exact IH].
Qed.

Lemma keeps_forM_In {A B} (f : B -> A -> M S B) (l : list A) :
  (forall acc a, In a l -> keeps (f acc a)) -> forall acc, keeps (forM f l acc).
Proof.
  induction l as [|a l IH]; intros Hf acc; cbn [forM].
  - apply keeps_ret.
  - apply keeps_bind; [apply Hf; left; reflexivity|].
    intros acc'. apply IH. intros acc0 a0 Hin. apply Hf. right. exact Hin.
Qed.

Lemma keeps_if {A} (b : bool) (m1 m2 : M S A) :
  keeps m1 -> keeps m2 -> keeps (if b then m1 else m2).
Proof. destruct b; auto. Qed.

End Keeps.

(** What binding two computations returns. *)
Lemma bind_inv {S A B} (m : M S A) (k : A -> M S B) s r s' :
  bind m k s = (r, s') ->
  (exists e, m s = (Err e, s') /\ r = Err e) \/
  (exists a s1, m s = (Ok a, s1) /\ k a s1 = (r, s')).
Proof.
  unfold bind. destruct (m s) as [[a|e] s1] eqn:Hms; intros Hk.
  - right. eauto.
  - left. injection Hk as <- <-. eauto.
Qed.

(** ** The steps of a loop *)

Section Steps.
Context {S A B : Type} (f : B -> A -> M S B).

(** A loop that fails has come to a step that failed, and ends in the state
    in which that step ended. *)
Lemma reaches_failed l : forall acc0 s0 e sf,
  forM f l acc0 s0 = (Err e, sf) ->
  exists acc a s, reaches f l acc0 s0 acc a s /\ f acc a s = (Err e, sf).
Proof.
  induction l as [|a l IH]; intros acc0 s0 e sf Hf; [discriminate|].
  cbn [forM] in Hf. apply bind_inv in Hf as [(e' & Hstep & [= <-])|(acc' & s' & Hstep & Hf)].
  - exists acc0, a, s0. split; [constructor | exact Hstep].
  - destruct (IH _ _ _ _ Hf) as (acc & a1 & s1 & Hr & Hfail).
    exists acc, a1, s1. split; [econstructor; eassumption | exact Hfail].
Qed.

(** A loop that succeeds has come to every element. *)
Lemma reaches_all l : forall acc0 s0 r sf,
  forM f l acc0 s0 = (Ok r, sf) ->
  forall a, In a l -> exists acc s, reaches f l acc0 s0 acc a s.
Proof.
  induction l as [|a l IH]; intros acc0 s0 r sf Hf x Hin; [destruct Hin|].
  cbn [forM] in Hf. apply bind_inv in Hf as [(e' & _ & [=])|(acc' & s' & Hstep & Hf)].
  destruct Hin as [<-|Hin].
  - exists acc0, s0. constructor.
  - destruct (IH _ _ _ _ Hf x Hin) as (acc & s & Hr).
    exists acc, s. econstructor; eassumption.
Qed.

(** When every step leaves the state related to the one it started in, the
    state in which a step ends is related to the one in which the loop
    ends. *)
Lemma reaches_keeps (R : S -> S -> Prop) `{!PreOrder R} :
  (forall acc a, keeps R (f acc a)) ->
  forall l acc0 s0 acc a s, reaches f l acc0 s0 acc a s ->
  forall r sf, forM f l acc0 s0 = (r, sf) ->
  R s0 s /\ R (snd (f acc a s)) sf.
Proof.
  intros Hk l acc0 s0 acc a s Hr.
  induction Hr as [a rest acc s|a rest acc s acc' s' acc1 a1 s1 Hstep Hr IH];
    intros r sf Hf; cbn [forM] in Hf; unfold bind in Hf.
  - split; [reflexivity|].
    destruct (f acc a s) as [[acc'|e] s'] eqn:Hstep; cbn [snd].
    + eapply (keeps_forM R); [exact Hk | exact Hf].
    + injection Hf as _ <-. reflexivity.
  - rewrite Hstep in Hf. destruct (IH _ _ Hf) as [H1 H2].
    split; [|exact H2]. transitivity s'; [eapply Hk; exact Hstep | exact H1].
Qed.

(** When every step that succeeds leaves the accumulator related to the
    one it was given, the accumulator a step returns is related to the one
    the loop returns. *)
Lemma forM_result (Q : B -> B -> Prop) `{!PreOrder Q} :
  (forall acc a s acc' s', f acc a s = (Ok acc', s') -> Q acc acc') ->
  forall l acc0 s0 r sf, forM f l acc0 s0 = (Ok r, sf) -> Q acc0 r.
Proof.
  intros HQ l. induction l as [|a l IH]; intros acc0 s0 r sf Hf.
  - injection Hf as <- _. reflexivity.
  - cbn [forM] in Hf. apply bind_inv in Hf as [(e & _ & [=])|(acc' & s' & Hstep & Hf)].
    transitivity acc'; [eapply HQ; exact Hstep | eapply IH; exact Hf].
Qed.

Lemma reaches_result (Q : B -> B -> Prop) `{!PreOrder Q} :
  (forall acc a s acc' s', f acc a s = (Ok acc', s') -> Q acc acc') ->
  forall l acc0 s0 acc a s, reaches f l acc0 s0 acc a s ->
  forall r sf, forM f l acc0 s0 = (Ok r, sf) ->
  exists acc' s', f acc a s = (Ok acc', s') /\ Q acc' r.
Proof.
  intros HQ l acc0 s0 acc a s Hr.
  induction Hr as [a rest acc s|a rest acc s acc' s' acc1 a1 s1 Hstep Hr IH];
    intros r sf Hf; cbn [forM] in Hf.
  - apply bind_inv in Hf as [(e & _ & [=])|(acc' & s' & Hstep & Hf)].
    exists acc', s'. split; [exact Hstep|]. eapply (forM_result Q HQ). exact Hf.
  - unfold bind in Hf. rewrite Hstep in Hf. eapply IH. exact Hf.
Qed.

End Steps.

(** ** Restore writes below the target only *)

(** [touches P w w']: from [w] to [w'] the repository is unchanged, and so
    is every target file whose path is not in [P]. *)
Definition touches (P : string -> Prop) (w w' : World) : Prop :=
  objects w' = objects w /\ snapshots w' = snapshots w /\
  forall q, ~ P q -> targets w' !! q = targets w !! q.

#[local] Instance touches_preorder P : PreOrder (touches P).
Proof.
  split.
  - intros w. repeat split.
  - intros w1 w2 w3 (Ho1 & Hs1 & Ht1) (Ho2 & Hs2 & Ht2). repeat split.
    + congruence.
    + congruence.
    + intros q Hq. rewrite Ht2, Ht1 by assumption. reflexivity.
Qed.

Lemma touches_next P w : touches P w (next w).
Proof. repeat split. Qed.

Lemma touches_alter P f p w :
  P p -> touches P w (with_targets (alter f p (targets w)) w).
Proof.
  intros Hp. repeat split. intros q Hq. cbn.
  apply lookup_alter_ne. intros ->. contradiction.
Qed.

Lemma touches_insert P f p w :
  P p -> touches P w (with_targets (<[p := f]> (targets w)) w).
Proof.
  intros Hp. repeat split. intros q Hq. cbn.
  apply lookup_insert_ne. intros ->. contradiction.
Qed.

Section RestoreFrame.
Context `{OS} `{Zstd} `{AEAD}.
Import models restore.

Lemma osCall_touches P : keeps (touches P) osCall.
Proof.
  intros w r w' Hc. unfold osCall in Hc.
  destruct (os_call (tick w)); injection Hc as <- <-; apply touches_next.
Qed.

Lemma fileWrite_touches P p data : P p -> keeps (touches P) (fileWrite p data).
Proof.
  intros Hp w r w' Hw. unfold fileWrite in Hw.
  destruct (os_write (tick w)) as [|e [n|]]; injection Hw as <- <-.
  - transitivity (appendTo p data w); [apply touches_alter, Hp | apply touches_next].
  - transitivity (appendTo p (take n data) w); [apply touches_alter, Hp | apply touches_next].
  - apply touches_next.
Qed.

Lemma warnOnly_touches P m f :
  keeps (touches P) m -> (forall w, touches P w (f w)) -> keeps (touches P) (warnOnly m f).
Proof.
  intros Hm Hf w r w' Hw. unfold warnOnly in Hw.
  destruct (m w) as [[u|e] w1] eqn:Hmw; injection Hw as <- <-.
  - transitivity w1; [eapply Hm; eassumption | apply Hf].
  - eapply Hm; eassumption.
Qed.

Lemma restoreChunk_touches P r p u chunkHash :
  P p -> keeps (touches P) (restoreChunk r p u chunkHash).
Proof.
  intros Hp. unfold restoreChunk.
  apply keeps_bind; [apply _ | |].
  { apply keeps_wrapping. intros w x w' [= <- <-]. reflexivity. }
  intros data. apply keeps_bind; [apply _ | |].
  { destruct (encryptor r); [apply keeps_wrapping, keeps_lift | apply keeps_ret]; apply _. }
  intros data'. apply keeps_bind; [apply _ | |].
  { destruct (compressor r); [apply keeps_wrapping, keeps_lift | apply keeps_ret]; apply _. }
  intros data''. apply keeps_wrapping, fileWrite_touches. exact Hp.
Qed.

Lemma restoreFile_touches P r node p opts :
  P p -> keeps (touches P) (restoreFile r node p opts).
Proof.
  intros Hp. unfold restoreFile.
  destruct (RestoreOptions.DryRun opts); [apply keeps_ret; apply _|].
  apply keeps_bind; [apply _ | apply keeps_wrapping, osCall_touches |]. intros _.
  apply keeps_bind; [apply _ | |].
  { apply keeps_wrapping. unfold osCreate.
    apply keeps_bind; [apply _ | apply osCall_touches |].
    intros _ w x w' [= <- <-]. apply touches_insert. exact Hp. }
  intros _. apply keeps_bind; [apply _ | |].
  { apply keeps_forM; [apply _|]. intros u h. apply restoreChunk_touches. exact Hp. }
  intros _. apply keeps_bind; [apply _ | |].
  { destruct (RestoreOptions.PreservePerms opts); [|apply keeps_ret; apply _].
    apply warnOnly_touches; [apply osCall_touches|].
    intros w. apply touches_alter. exact Hp. }
  intros _. apply warnOnly_touches; [apply osCall_touches|].
  intros w. apply touches_alter. exact Hp.
Qed.

(** The target paths of the regular files of the snapshot that pass the
    filters. *)
Definition selected (snapshot : Snapshot.t) (opts : RestoreOptions.t) (q : string) : Prop :=
  exists relPath node,
    FileTree.Files (Snapshot.Tree snapshot) !! relPath = Some node /\
    FileNode.IsDir node = false /\
    shouldRestore relPath (RestoreOptions.IncludePattern opts)
      (RestoreOptions.ExcludePattern opts) = true /\
    q = filepath.Join [RestoreOptions.TargetPath opts; relPath].

Lemma restoreEntry_touches r snapshot opts result entry :
  FileTree.Files (Snapshot.Tree snapshot) !! fst entry = Some (snd entry) ->
  keeps (touches (selected snapshot opts)) (restoreEntry r opts result entry).
Proof.
  destruct entry as [relPath node]. cbn [fst snd]. intros Hin. unfold restoreEntry.
  destruct (FileNode.IsDir node) eqn:Hdir; [apply keeps_ret; apply _|].
  destruct (shouldRestore relPath _ _) eqn:Hsel; cbn [negb]; [|apply keeps_ret; apply _].
  intros w x w' Hr.
  destruct (negb (RestoreOptions.Overwrite opts) && _).
  { injection Hr as <- <-. reflexivity. }
  destruct (restoreFile r node _ opts w) as [[u|e] w1] eqn:Hrf; injection Hr as <- <-;
    (eapply restoreFile_touches; [|exact Hrf]); exists relPath, node; auto.
Qed.

Lemma Restore_touches r snapshot opts :
  keeps (touches (selected snapshot opts)) (Restore r snapshot opts).
Proof.
  unfold Restore. apply keeps_bind; [apply _ | apply keeps_wrapping, osCall_touches |].
  intros _. apply keeps_forM_In; [apply _|]. intros acc [relPath node] Hin.
  apply restoreEntry_touches. cbn [fst snd].
  apply elem_of_map_to_list, list_elem_of_In. exact Hin.
Qed.

End RestoreFrame.

(** ** Where [Join] is Go's [Join] *)

Lemma append_assoc a b c : (a +:+ b) +:+ c = a +:+ b +:+ c.
Proof. induction a as [|x a IH]; [reflexivity|]. rewrite !append_cons, IH. reflexivity. Qed.

Lemma append_empty_r a : a +:+ "" = a.
Proof. induction a as [|x a IH]; [reflexivity|]. rewrite append_cons, IH. reflexivity. Qed.

Lemma names_nonempty s : forall cur, filepath.names cur s <> [].
Proof.
  induction s as [|c s IH]; intros cur; cbn; [discriminate|].
  destruct (decide (c = filepath.Separator)); [discriminate | apply IH].
Qed.

Lemma names_append a : forall cur b,
  filepath.names cur (a +:+ "/" +:+ b) = filepath.names cur a ++ filepath.names "" b.
Proof.
  induction a as [|c a IH]; intros cur b.
  - reflexivity.
  - rewrite append_cons. cbn [filepath.names].
    destruct (decide (c = filepath.Separator)); rewrite IH; reflexivity.
Qed.

Lemma joinNames_cons n l :
  l <> [] -> filepath.joinNames (n :: l) = n +:+ "/" +:+ filepath.joinNames l.
Proof. destruct l; [contradiction | reflexivity]. Qed.

Lemma joinNames_names s : forall cur,
  filepath.joinNames (filepath.names cur s) = cur +:+ s.
Proof.
  induction s as [|c s IH]; intros cur; cbn [filepath.names].
  - cbn. symmetry. apply append_empty_r.
  - destruct (decide (c = filepath.Separator)) as [->|Hne].
    + rewrite joinNames_cons by apply names_nonempty. rewrite IH. reflexivity.
    + rewrite IH, append_assoc. reflexivity.
Qed.

Lemma joinNames_app l1 l2 :
  l1 <> [] -> l2 <> [] ->
  filepath.joinNames (l1 ++ l2) = filepath.joinNames l1 +:+ "/" +:+ filepath.joinNames l2.
Proof.
  intros H1 H2. induction l1 as [|n l1 IH]; [contradiction|].
  destruct l1 as [|n' l1].
  - cbn [app]. rewrite joinNames_cons by exact H2. reflexivity.
  - cbn [app] in *. rewrite joinNames_cons by discriminate.
    rewrite IH by discriminate. rewrite (joinNames_cons n (n' :: l1)) by discriminate.
    rewrite !append_assoc. reflexivity.
Qed.

Lemma cleanNames_app rooted l1 : forall l2 out,
  filepath.cleanNames rooted (l1 ++ l2) out
  = filepath.cleanNames rooted l2 (filepath.cleanNames rooted l1 out).
Proof.
  induction l1 as [|n l1 IH]; intros l2 out; [reflexivity|].
  cbn [app filepath.cleanNames].
  destruct (decide (n = "")); [apply IH|].
  destruct (decide (n = ".")); [apply IH|].
  destruct (decide (n = "..")); [|apply IH].
  destruct out as [|top below]; [destruct rooted; apply IH|].
  destruct (decide (top = "..")); apply IH.
Qed.

Lemma cleanNames_plain rooted l : forall out,
  forallb (fun n => negb (bool_decide (n = "") || bool_decide (n = ".")
                          || bool_decide (n = ".."))) l = true ->
  filepath.cleanNames rooted l out = rev l ++ out.
Proof.
  induction l as [|n l IH]; intros out Hl; [reflexivity|].
  cbn [forallb] in Hl. apply andb_true_iff in Hl as [Hn Hl].
  apply negb_true_iff, orb_false_iff in Hn as [Hn Hn3].
  apply orb_false_iff in Hn as [Hn1 Hn2].
  apply bool_decide_eq_false in Hn1, Hn2, Hn3.
  cbn [filepath.cleanNames].
  destruct (decide (n = "")); [contradiction|].
  destruct (decide (n = ".")); [contradiction|].
  destruct (decide (n = "..")); [contradiction|].
  rewrite IH by exact Hl. cbn [rev]. rewrite <- app_assoc. reflexivity.
Qed.

(** [Clean] of a clean relative path below a directory: the names that
    [Clean] keeps of the directory, then the path. *)
Lemma Clean_below c dir rel :
  filepath.cleanRel rel = true ->
  let rooted := bool_decide (c = filepath.Separator) in
  let kept := rev (filepath.cleanNames rooted (filepath.names "" (String c dir)) []) in
  filepath.Clean (String c dir +:+ "/" +:+ rel)
  = (if rooted then "/" else "")
    +:+ match kept with
        | [] => rel
        | _ => filepath.joinNames kept +:+ "/" +:+ rel
        end.
Proof.
  intros Hrel rooted kept. unfold filepath.Clean. rewrite append_cons.
  fold rooted. rewrite <- append_cons, names_append, cleanNames_app.
  rewrite (cleanNames_plain rooted _ _ Hrel), rev_app_distr, rev_involutive.
  fold kept.
  assert (Hnames : filepath.names "" rel <> []) by apply names_nonempty.
  assert (Hjoin : filepath.joinNames (kept ++ filepath.names "" rel)
                  = match kept with
                    | [] => rel
                    | _ => filepath.joinNames kept +:+ "/" +:+ rel
                    end).
  { destruct kept as [|k kept'] eqn:Hk.
    - cbn [app]. apply (joinNames_names rel "").
    - rewrite joinNames_app by (discriminate || exact Hnames).
      rewrite (joinNames_names rel ""). reflexivity. }
  destruct rooted.
  - rewrite Hjoin. reflexivity.
  - destruct (kept ++ filepath.names "" rel) eqn:Happ.
    + apply app_eq_nil in Happ as [_ Happ]. contradiction.
    + rewrite Hjoin. reflexivity.
Qed.

(** Go's [Join] of a directory and a clean relative path determines the
    relative path, whatever the directory: [Clean] merges no two of them. *)
Lemma Clean_Join_inj dir a b :
  dir <> "" -> filepath.cleanRel a = true -> filepath.cleanRel b = true ->
  filepath.Clean (dir +:+ "/" +:+ a) = filepath.Clean (dir +:+ "/" +:+ b) -> a = b.
Proof.
  intros Hdir Ha Hb. destruct dir as [|c dir]; [contradiction|].
  rewrite (Clean_below c dir a Ha), (Clean_below c dir b Hb). cbv zeta.
  intros Heq. apply String.app_inj in Heq.
  destruct (rev _) as [|k kept]; [exact Heq|].
  apply String.app_inj in Heq. apply String.app_inj in Heq. exact Heq.
Qed.

(** On a clean directory other than "." and "/" and a clean relative path,
    [Join] as defined here is Go's: the [Clean] that ends it changes
    nothing. *)
Lemma Join_is_Clean dir rel :
  filepath.Clean dir = dir -> dir <> "." -> dir <> "/" ->
  filepath.cleanRel rel = true ->
  filepath.Clean (dir +:+ "/" +:+ rel) = filepath.Join [dir; rel].
Proof.
  intros Hclean Hdot Hroot Hrel.
  assert (Hne : rel <> "") by (intros ->; discriminate).
  destruct dir as [|c dir]; [discriminate|].
  assert (HJ : filepath.Join [String c dir; rel] = String c dir +:+ "/" +:+ rel).
  { cbn. destruct (decide (rel = "")); [contradiction|]. destruct rel; [contradiction|].
    reflexivity. }
  rewrite HJ, (Clean_below c dir rel Hrel). cbv zeta.
  unfold filepath.Clean in Hclean.
  destruct (bool_decide (c = filepath.Separator));
    destruct (rev _) as [|k kept] eqn:Hk.
  - exfalso. apply Hroot. rewrite <- Hclean. reflexivity.
  - rewrite <- Hclean. rewrite !append_assoc. reflexivity.
  - exfalso. apply Hdot. rewrite <- Hclean. reflexivity.
  - rewrite <- Hclean. reflexivity.
Qed.

(** [filepath.Join] of a directory and a clean relative path determines
    the relative path, and does so after [Clean] as well. *)
Lemma Join_inj dir a b :
  filepath.cleanRel a = true -> filepath.cleanRel b = true ->
  filepath.Join [dir; a] = filepath.Join [dir; b] -> a = b.
Proof.
  intros Ha Hb.
  assert (HJ : forall rel, filepath.cleanRel rel = true ->
            filepath.Join [dir; rel]
            = if decide (dir = "") then rel else dir +:+ "/" +:+ rel).
  { intros rel Hrel. assert (Hne : rel <> "") by (intros ->; discriminate).
    cbn. destruct (decide (rel = "")); [contradiction|].
    destruct rel; [contradiction|]. reflexivity. }
  rewrite (HJ a Ha), (HJ b Hb). destruct (decide (dir = "")) as [_|Hdir]; [auto|].
  intros Heq. apply (Clean_Join_inj dir a b Hdir Ha Hb). rewrite Heq. reflexivity.
Qed.

Section RestoreClaims.
Context `{OS} `{Zstd} `{AEAD}.
Import models restore.

(** C9 (restore filters).  A path passes [shouldRestore] exactly when the
    include list is empty or some include pattern matches it, and no
    exclude pattern matches it: exclusion wins over inclusion.  Whatever
    [Restore] restores and whether or not it fails, a file below the
    target changes only if it is the target of a regular file of the
    snapshot that passes [shouldRestore].  So, in a snapshot whose regular
    files have clean relative paths, as the scanner records them, where
    two paths never name the same target, the target of every such path
    that does not pass is left as it was. *)
Theorem Restore_respects_filters :
  (forall path includes excludes,
     shouldRestore path includes excludes = true <->
     (includes = [] \/ exists p, In p includes /\ matchPattern path p = true) /\
     (forall p, In p excludes -> matchPattern path p = false)) /\
  (forall r snapshot opts w result w' q,
     Restore r snapshot opts w = (result, w') ->
     ~ (exists relPath node,
          FileTree.Files (Snapshot.Tree snapshot) !! relPath = Some node /\
          FileNode.IsDir node = false /\
          shouldRestore relPath (RestoreOptions.IncludePattern opts)
            (RestoreOptions.ExcludePattern opts) = true /\
          q = filepath.Join [RestoreOptions.TargetPath opts; relPath]) ->
     targets w' !! q = targets w !! q) /\
  (forall r snapshot opts w result w' relPath,
     Restore r snapshot opts w = (result, w') ->
     (forall path node,
        FileTree.Files (Snapshot.Tree snapshot) !! path = Some node ->
        FileNode.IsDir node = false ->
        filepath.cleanRel path = true) ->
     filepath.cleanRel relPath = true ->
     shouldRestore relPath (RestoreOptions.IncludePattern opts)
       (RestoreOptions.ExcludePattern opts) = false ->
     targets w' !! filepath.Join [RestoreOptions.TargetPath opts; relPath]
     = targets w !! filepath.Join [RestoreOptions.TargetPath opts; relPath]).
Proof.
  split; [|split].
  - apply shouldRestore_spec.
  - intros r snapshot opts w result w' q HR Hq.
    destruct (Restore_touches r snapshot opts w result w' HR) as (_ & _ & Ht).
    apply Ht. exact Hq.
  - intros r snapshot opts w result w' relPath HR Hclean Hrel Hsel.
    destruct (Restore_touches r snapshot opts w result w' HR) as (_ & _ & Ht).
    apply Ht. intros (relPath' & node & Hin & Hdir & Hsel' & Heq).
    apply Join_inj in Heq; [|exact Hrel | exact (Hclean _ _ Hin Hdir)].
    subst relPath'. congruence.
Qed.

End RestoreClaims.

Example shouldRestore_examples :
  map (fun t => restore.shouldRestore (fst (fst t)) (snd (fst t)) (snd t))
    [ ("a/b.txt", [], []);
      ("a/b.txt", ["*.txt"], []);
      ("a/b.txt", ["*.md"], []);
      ("a/b.txt", ["*.txt"], ["b.*"]);
      ("a/b.txt", [], ["a/*"]);
      ("a/b.txt", ["**/b.txt"], []) ]
  = [ true; true; false; false; false; true ].
Proof. vm_compute. reflexivity. Qed.

(** ** A backup only adds to the repository *)

(** [grows w w']: from [w] to [w'] the snapshot directory is unchanged and
    every object file is still there with the bytes it had. *)
Definition grows (w w' : World) : Prop :=
  snapshots w' = snapshots w /\ objects w ⊆ objects w'.

#[local] Instance grows_preorder : PreOrder grows.
Proof.
  split.
  - intros w. split; reflexivity.
  - intros w1 w2 w3 [Hs1 Ho1] [Hs2 Ho2]. split; [congruence | etrans; eassumption].
Qed.

Definition growsSt (s s' : store.CAS * World) : Prop := grows (snd s) (snd s').

#[local] Instance growsSt_preorder : PreOrder growsSt.
Proof.
  split.
  - intros s. unfold growsSt. reflexivity.
  - intros s1 s2 s3. unfold growsSt. intros H12 H23. etrans; eassumption.
Qed.

Lemma grows_next w : grows w (next w).
Proof. split; reflexivity. Qed.

Section BackupFrame.
Context `{OS} `{RollingHash} `{Zstd} `{AEAD}.
Import models snapshot.

Lemma inWorld_grows {A} (m : M World A) : keeps grows m -> keeps growsSt (inWorld m).
Proof.
  intros Hm [c w] r [c' w'] Hi. unfold inWorld in Hi. cbn in Hi.
  destruct (m w) as [x w1] eqn:Hmw. injection Hi as <- <- <-.
  unfold growsSt. cbn. eapply Hm. eassumption.
Qed.

Lemma now_grows : keeps grows now.
Proof. intros w r w' [= <- <-]. apply grows_next. Qed.

Lemma osOpen_grows path : keeps grows (osOpen path).
Proof. intros w r w' [= <- <-]. apply grows_next. Qed.

Lemma generateID_grows : keeps grows generateID.
Proof.
  unfold generateID. apply keeps_bind; [apply _ | apply now_grows |].
  intros t. apply keeps_ret. apply _.
Qed.

Lemma Encrypt_grows e data : keeps grows (crypto.Encrypt e data).
Proof.
  unfold crypto.Encrypt. apply keeps_bind; [apply _ | |].
  - apply keeps_wrapping. intros w r w' Hn. unfold crypto.readNonce in Hn.
    destruct (os_rand (tick w)); injection Hn as <- <-; apply grows_next.
  - intros nonce. apply keeps_ret. apply _.
Qed.

Lemma Scan_grows s sourcePath : keeps grows (scanner.Scan s sourcePath).
Proof.
  intros w r w' Hs. unfold scanner.Scan in Hs.
  destruct (os_walk (tick w) sourcePath) as [[| |]|]; injection Hs as <- <-; apply grows_next.
Qed.

Lemma hashFile_grows path : keeps grows (scanner.hashFile path).
Proof.
  intros w r w' Hh. unfold scanner.hashFile in Hh.
  destruct (os_open (tick w) path) as [file|]; [destruct (ReadAll file)|];
    injection Hh as <- <-; apply grows_next.
Qed.

Lemma ScanWithHashes_grows s sourcePath : keeps grows (scanner.ScanWithHashes s sourcePath).
Proof.
  unfold scanner.ScanWithHashes. apply keeps_bind; [apply _ | apply Scan_grows |].
  intros tree. apply keeps_forM; [apply _|]. intros acc [relPath node].
  destruct (FileNode.IsDir node); [apply keeps_ret; apply _|].
  apply keeps_bind; [apply _ | apply hashFile_grows |].
  intros hash. apply keeps_ret. apply _.
Qed.

(** [Put] writes at most the one object file that was not there. *)
Lemma casPut_grows data : keeps growsSt (casPut data).
Proof.
  intros [c w] r [c' w'] HP. unfold casPut, store.Put in HP. cbn in HP.
  destruct (store.Has c (digest data) w) eqn:HHas.
  { injection HP as <- <- <-. unfold growsSt. cbn. reflexivity. }
  apply Has_false in HHas.
  destruct (os_call (tick w)).
  { injection HP as <- <- <-. unfold growsSt. cbn. apply grows_next. }
  cbn in HP. destruct (os_write (S (tick w))) as [|e [n|]]; injection HP as <- <- <-;
    unfold growsSt; cbn; split; cbn; try reflexivity;
    apply insert_subseteq; exact HHas.
Qed.

Lemma casHas_grows hash : keeps growsSt (casHas hash).
Proof. intros s r s' [= <- <-]. reflexivity. Qed.

Lemma storeChunk_grows m acc chunk : keeps growsSt (storeChunk m acc chunk).
Proof.
  destruct acc as [chunkHashes p]. unfold storeChunk.
  apply keeps_bind; [apply _ | |].
  { destruct (compressor m); [apply keeps_wrapping, keeps_lift | apply keeps_ret]; apply _. }
  intros data. apply keeps_bind; [apply _ | |].
  { destruct (encryptor m); [|apply keeps_ret; apply _].
    apply keeps_wrapping, inWorld_grows, Encrypt_grows. }
  intros data'. apply keeps_bind; [apply _ | apply casHas_grows |].
  intros has. apply keeps_bind; [apply _ | |].
  { destruct has; [apply keeps_ret; apply _|].
    apply keeps_bind; [apply _ | apply keeps_wrapping, casPut_grows |].
    intros _. apply keeps_ret. apply _. }
  intros p'. apply keeps_ret. apply _.
Qed.

Lemma processFile_grows m p entry : keeps growsSt (processFile m p entry).
Proof.
  destruct entry as [relPath node]. unfold processFile.
  destruct (FileNode.IsDir node); [apply keeps_ret; apply _|].
  apply keeps_bind; [apply _ | |].
  { apply keeps_wrapping, inWorld_grows, osOpen_grows. }
  intros file. apply keeps_bind; [apply _ | apply keeps_wrapping, keeps_lift; apply _ |].
  intros chunks. apply keeps_bind; [apply _ | |].
  { apply keeps_forM; [apply _|]. intros acc chunk. apply storeChunk_grows. }
  intros [chunkHashes p']. apply keeps_ret. apply _.
Qed.

Lemma prepare_grows m sourcePath parentID : keeps growsSt (prepare m sourcePath parentID).
Proof.
  unfold prepare.
  apply keeps_bind; [apply _ | apply inWorld_grows, now_grows |]. intros startTime.
  apply keeps_bind;
    [apply _ | apply keeps_wrapping, inWorld_grows, ScanWithHashes_grows |].
  intros tree.
  apply keeps_bind; [apply _ | intros s r s' [= <- <-]; reflexivity |]. intros parentTree.
  apply keeps_bind; [apply _ | apply inWorld_grows, generateID_grows |]. intros id.
  apply keeps_bind; [apply _ | apply inWorld_grows, now_grows |]. intros timestamp.
  apply keeps_ret. apply _.
Qed.

(** [failsClean m]: when [m] fails with anything but a save error, it
    leaves the repository grown, with no record written. *)
Definition failsClean {A} (m : M St A) : Prop :=
  forall s e s', m s = (Err e, s') -> ~ saveError e -> growsSt s s'.

Lemma failsClean_bind {A B} (m : M St A) (k : A -> M St B) :
  keeps growsSt m -> (forall a, failsClean (k a)) -> failsClean (bind m k).
Proof.
  intros Hm Hk s e s' Hb Hne.
  apply bind_inv in Hb as [(e' & Hms & _)|(a & s1 & Hms & Hks)].
  - eapply Hm. eassumption.
  - transitivity s1; [eapply Hm; eassumption | eapply Hk; eassumption].
Qed.

Lemma create_failsClean m sourcePath description parentID :
  failsClean (create m sourcePath description parentID).
Proof.
  unfold create.
  apply failsClean_bind; [apply prepare_grows|]. intros prep.
  apply failsClean_bind.
  { apply keeps_forM; [apply _|]. intros p entry. apply processFile_grows. }
  intros p.
  apply failsClean_bind; [apply inWorld_grows, now_grows|]. intros finish.
  intros s e s' Hsave Hne. exfalso. apply Hne.
  apply bind_inv in Hsave as [(e' & Hw & [= ->])|(a & s1 & _ & Hret)];
    [|discriminate].
  unfold wrapping in Hw.
  match type of Hw with (match ?x with _ => _ end) = _ => destruct x as [[u|cause] s1] end;
    [discriminate|].
  injection Hw as <- _. exists cause. reflexivity.
Qed.

(** The preparation writes no object file and leaves the store's
    reference counts alone. *)
Definition sameStore (s s' : St) : Prop :=
  fst s' = fst s /\ objects (snd s') = objects (snd s).

#[local] Instance sameStore_preorder : PreOrder sameStore.
Proof.
  split.
  - intros s. split; reflexivity.
  - intros s1 s2 s3 [Hc1 Ho1] [Hc2 Ho2]. split; congruence.
Qed.

Lemma inWorld_sameStore {A} (m : M World A) :
  (forall w r w', m w = (r, w') -> objects w' = objects w) ->
  keeps sameStore (inWorld m).
Proof.
  intros Hm [c w] r [c' w'] Hi. unfold inWorld in Hi. cbn in Hi.
  destruct (m w) as [x w1] eqn:Hmw. injection Hi as <- <- <-.
  split; [reflexivity|]. cbn. eapply Hm. eassumption.
Qed.

Lemma ScanWithHashes_objects s sourcePath w r w' :
  scanner.ScanWithHashes s sourcePath w = (r, w') -> objects w' = objects w.
Proof.
  assert (Hk : keeps (fun w w' : World => objects w' = objects w)
                 (scanner.ScanWithHashes s sourcePath)).
  { assert (Hpre : PreOrder (fun w w' : World => objects w' = objects w)).
    { split; [intros x; reflexivity | intros x y z Hxy Hyz; congruence]. }
    unfold scanner.ScanWithHashes. apply keeps_bind; [exact Hpre | |].
    - intros w0 r0 w1 Hs. unfold scanner.Scan in Hs.
      destruct (os_walk (tick w0) sourcePath) as [[| |]|]; injection Hs as <- <-; reflexivity.
    - intros tree. apply keeps_forM; [exact Hpre|]. intros acc [relPath node].
      destruct (FileNode.IsDir node); [apply keeps_ret; exact Hpre|].
      apply keeps_bind; [exact Hpre | |].
      + intros w0 r0 w1 Hh. unfold scanner.hashFile in Hh.
        destruct (os_open (tick w0) (FileNode.Path node)) as [file|];
          [destruct (ReadAll file)|]; injection Hh as <- <-; reflexivity.
      + intros hash. apply keeps_ret. exact Hpre. }
  apply Hk.
Qed.

Lemma prepare_sameStore m sourcePath parentID :
  keeps sameStore (prepare m sourcePath parentID).
Proof.
  unfold prepare.
  apply keeps_bind; [apply _ | |].
  { apply inWorld_sameStore. intros w r w' [= <- <-]. reflexivity. }
  intros startTime. apply keeps_bind; [apply _ | |].
  { apply keeps_wrapping, inWorld_sameStore. apply ScanWithHashes_objects. }
  intros tree.
  apply keeps_bind; [apply _ | intros s r s' [= <- <-]; reflexivity |]. intros parentTree.
  apply keeps_bind; [apply _ | |].
  { apply inWorld_sameStore. intros w r w' Hg. unfold generateID, bind, now, ret in Hg.
    injection Hg as <- <-. reflexivity. }
  intros id. apply keeps_bind; [apply _ | |].
  { apply inWorld_sameStore. intros w r w' [= <- <-]. reflexivity. }
  intros timestamp. apply keeps_ret. apply _.
Qed.

(** The state in which a step on a file ends is the state in which its
    loop over the chunks ends. *)
Lemma processFile_chunks m p relPath node s file s1 chunks :
  FileNode.IsDir node = false ->
  inWorld (osOpen (FileNode.Path node)) s = (Ok file, s1) ->
  chunker.Chunk (chunker_ m) file = Ok chunks ->
  snd (processFile m p (relPath, node) s)
  = snd (forM (storeChunk m) chunks ([], p) s1).
Proof.
  intros Hdir Hopen Hchunk. unfold processFile. rewrite Hdir.
  unfold bind at 1. unfold wrapping at 1. rewrite Hopen.
  unfold bind at 1. unfold wrapping at 1. unfold lift. rewrite Hchunk.
  unfold bind.
  destruct (forM (storeChunk m) chunks ([], p) s1) as [[[hs p']|e] sc]; reflexivity.
Qed.

End BackupFrame.

Section BackupClaims.
Context `{OS} `{RollingHash} `{Zstd} `{AEAD}.
Import models snapshot.

(** C7 (no partial snapshot).  When [Create] fails at any step before the
    write of the record (scan, open, chunk, compress, encrypt or store: any
    error but the save error), the snapshot directory is as it was, so
    [Get], [List] and [Latest] answer as before, and every object file that
    was in the store is still there unchanged.  The chunks written before
    the failure stay on disk: the preparation writes no object file; when
    it fails, [Create] leaves the state in which it failed; when it
    succeeds, the loop over the files has come to a step that failed with
    the error returned, [Create] leaves the very state in which that step
    ended, and every object file that was there when a step on a file, or
    a step on a chunk of a file, ended before that is in the store
    unchanged in the end.  No step, failed or not, removes or rewrites an
    object file. *)
Theorem Create_failure_leaves_no_record
    (m : Manager) (sourcePath description parentID : string) (w : World)
    (e : error) (m' : Manager) (w' : World) :
  Create m sourcePath description parentID w = (Err e, m', w') ->
  ~ saveError e ->
  snapshots w' = snapshots w /\
  (forall id, Get m' id w' = Get m id w) /\
  List m' w' = List m w /\
  Latest m' w' = Latest m w /\
  objects w ⊆ objects w' /\
  (forall acc chunk s r s',
     storeChunk m acc chunk s = (r, s') -> objects (snd s) ⊆ objects (snd s')) /\
  (forall p entry s r s',
     processFile m p entry s = (r, s') -> objects (snd s) ⊆ objects (snd s')) /\
  objects (snd (snd (prepare m sourcePath parentID (cas m, w)))) = objects w /\
  match prepare m sourcePath parentID (cas m, w) with
  | (Err _, s0) => (cas m', w') = s0
  | (Ok prep, s0) =>
      let files := map_to_list (prepFiles prep) in
      let p0 := mkProgress (prepTree prep) 0 0 0 in
      (exists p entry s,
         reaches (processFile m) files p0 s0 p entry s /\
         processFile m p entry s = (Err e, (cas m', w'))) /\
      (forall p entry s,
         reaches (processFile m) files p0 s0 p entry s ->
         objects (snd (snd (processFile m p entry s))) ⊆ objects w') /\
      (forall p relPath node s file s1 chunks acc chunk s2,
         reaches (processFile m) files p0 s0 p (relPath, node) s ->
         FileNode.IsDir node = false ->
         inWorld (osOpen (FileNode.Path node)) s = (Ok file, s1) ->
         chunker.Chunk (chunker_ m) file = Ok chunks ->
         reaches (storeChunk m) chunks ([], p) s1 acc chunk s2 ->
         objects (snd (snd (storeChunk m acc chunk s2))) ⊆ objects w')
  end.
Proof.
  intros HC Hne. unfold Create in HC.
  destruct (create m sourcePath description parentID (cas m, w)) as [r [c1 w1]] eqn:Hc.
  injection HC as -> <- <-. cbn [fst snd].
  destruct (create_failsClean m _ _ _ _ _ _ Hc Hne) as [Hsnap Hobj]. cbn in Hsnap, Hobj.
  assert (HGet : forall id, Get (with_cas c1 m) id w1 = Get m id w).
  { intros id. unfold Get. cbn. rewrite Hsnap. reflexivity. }
  assert (HList : List (with_cas c1 m) w1 = List m w).
  { unfold List. rewrite Hsnap. apply foldr_ext; [|reflexivity..].
    intros entry acc. destruct (strings.HasSuffix entry.1 ".json"); [|reflexivity].
    rewrite HGet. reflexivity. }
  split; [exact Hsnap|]. split; [exact HGet|]. split; [exact HList|].
  split; [unfold Latest; rewrite HList; reflexivity|].
  split; [exact Hobj|]. split.
  { intros acc chunk s r s' Hs. eapply storeChunk_grows. eassumption. }
  split.
  { intros p entry s r s' Hp. eapply processFile_grows. eassumption. }
  destruct (prepare m sourcePath parentID (cas m, w)) as [r0 s0] eqn:Hprep.
  split.
  { apply (prepare_sameStore m sourcePath parentID _ _ _ Hprep). }
  unfold create in Hc.
  apply bind_inv in Hc as [(e0 & Hp & _)|(prep & sp & Hp & Hc)];
    rewrite Hprep in Hp; injection Hp as -> ->; [reflexivity|].
  cbv zeta.
  apply bind_inv in Hc as [(e0 & Hloop & [= <-])|(p & s6 & Hloop & Hc)].
  - assert (Hsteps : forall p entry s,
              reaches (processFile m) (map_to_list (prepFiles prep))
                (mkProgress (prepTree prep) 0 0 0) sp p entry s ->
              growsSt (snd (processFile m p entry s)) (c1, w1)).
    { intros p entry s Hr.
      apply (reaches_keeps (processFile m) growsSt (processFile_grows m) _ _ _ _ _ _ Hr
               _ _ Hloop). }
    split; [|split].
    + destruct (reaches_failed _ _ _ _ _ _ Hloop) as (p & entry & s & Hr & Hfail).
      exists p, entry, s. auto.
    + intros p entry s Hr. apply (Hsteps p entry s Hr).
    + intros p relPath node s file s1 chunks acc chunk s2 Hr Hdir Hopen Hchunk Hrc.
      transitivity (objects (snd (snd (processFile m p (relPath, node) s))));
        [|apply (Hsteps p (relPath, node) s Hr)].
      rewrite (processFile_chunks m p relPath node s file s1 chunks Hdir Hopen Hchunk).
      destruct (forM (storeChunk m) chunks ([], p) s1) as [rc sc] eqn:Hchunks.
      apply (reaches_keeps (storeChunk m) growsSt (storeChunk_grows m) _ _ _ _ _ _ Hrc
               _ _ Hchunks).
  - exfalso. apply Hne.
    apply bind_inv in Hc as [(e' & Hnow & _)|(finish & s7 & _ & Hsave)].
    { unfold inWorld, now in Hnow. discriminate. }
    apply bind_inv in Hsave as [(e' & Hw & [= ->])|(a & s8 & _ & Hret)]; [|discriminate].
    unfold wrapping in Hw.
    match type of Hw with (match ?x with _ => _ end) = _ => destruct x as [[u|cause] s9] end;
      [discriminate|].
    injection Hw as <- _. exists cause. reflexivity.
Qed.

End BackupClaims.

(** A backup of two files whose second file cannot be opened: no record is
    written, and the state left is the one in which the step on the second
    file failed. *)
Lemma Create_failure_leaves_no_record_witness :
  let os := flaky_os 7 (Ok demo_root) demo_files in
  let m := demo_manager None None in
  let out := snapshot.Create (H := os) (H0 := sum_hash) (H1 := stored_zstd) (H2 := toy_aead)
               m "/d" "demo" "" empty_world in
  fst (fst out) = Err (ErrWrap "failed to open b.txt" (ErrIO "input/output error")) /\
  snapshots (snd out) = snapshots empty_world /\
  (forall id, snapshot.Get (snd (fst out)) id (snd out) = snapshot.Get m id empty_world) /\
  snapshot.List (snd (fst out)) (snd out) = snapshot.List m empty_world /\
  snapshot.Latest (snd (fst out)) (snd out) = snapshot.Latest m empty_world /\
  objects empty_world ⊆ objects (snd out) /\
  exists prep s0 p entry s,
    snapshot.prepare (H := os) m "/d" "" (snapshot.cas m, empty_world) = (Ok prep, s0) /\
    reaches (snapshot.processFile (H := os) (H0 := sum_hash) (H1 := stored_zstd)
               (H2 := toy_aead) m)
      (map_to_list (snapshot.prepFiles prep))
      (snapshot.mkProgress (snapshot.prepTree prep) 0 0 0) s0 p entry s /\
    snapshot.processFile (H := os) (H0 := sum_hash) (H1 := stored_zstd) (H2 := toy_aead)
      m p entry s
    = (Err (ErrWrap "failed to open b.txt" (ErrIO "input/output error")),
       (snapshot.cas (snd (fst out)), snd out)).
Proof.
  intros os m out.
  assert (Hr : fst (fst out)
               = Err (ErrWrap "failed to open b.txt" (ErrIO "input/output error")))
    by (vm_compute; reflexivity).
  split; [exact Hr|].
  assert (Hprep : match snapshot.prepare (H := os) m "/d" "" (snapshot.cas m, empty_world) with
                  | (Ok _, _) => true
                  | (Err _, _) => false
                  end = true) by (vm_compute; reflexivity).
  destruct out as [[r m'] w'] eqn:HC. cbn [fst snd] in *. subst r.
  pose proof (Create_failure_leaves_no_record (H := os) (H0 := sum_hash)
                (H1 := stored_zstd) (H2 := toy_aead) m "/d" "demo" "" empty_world _ m' w' HC)
    as Hthm.
  destruct Hthm as (Hs & HG & HL & HLa & Ho & _ & _ & _ & Hrun).
  { intros [cause Hcause]. discriminate. }
  repeat (split; [assumption|]).
  destruct (snapshot.prepare m "/d" "" (snapshot.cas m, empty_world)) as [[prep|e0] s0];
    [|discriminate].
  destruct Hrun as ((p & entry & s & Hreach & Hfail) & _).
  exists prep, s0, p, entry, s. auto.
Defined.

(** In that run the first file's chunk is on disk. *)
Example failed_backup_keeps_chunk :
  map fst (map_to_list (objects (snd
    (snapshot.Create (H := flaky_os 7 (Ok demo_root) demo_files) (H0 := sum_hash)
       (H1 := stored_zstd) (H2 := toy_aead)
       (demo_manager None None) "/d" "demo" "" empty_world))))
  = [ "/r/objects/2c/2cf24dba5fb0a30e26e83b2ac5b9e29e1b161e5c1fa7425e73043362938b9824" ].
Proof. vm_compute. reflexivity. Qed.

(** ** Digests and object paths *)

Lemma be_bytes_length n z : length (sha256.be_bytes n z) = n.
Proof.
  revert z. induction n as [|n IH]; intros z; cbn; [reflexivity|].
  rewrite length_app, IH. cbn. lia.
Qed.

Lemma round_length st kw : length (sha256.round st kw) = length st.
Proof.
  unfold sha256.round.
  destruct st as [|a [|b [|c [|d [|e [|f [|g [|h [|i st]]]]]]]]]; reflexivity.
Qed.

Lemma block_length h blk : length (sha256.block h blk) = length h.
Proof.
  unfold sha256.block. rewrite length_map, length_combine.
  assert (Hfold : forall l st, length (fold_left sha256.round l st) = length st).
  { induction l as [|kw l IH]; intros st; cbn; [reflexivity|].
    rewrite IH. apply round_length. }
  rewrite Hfold. lia.
Qed.

Lemma blocks_length n : forall h msg, length (sha256.blocks n h msg) = length h.
Proof.
  induction n as [|n IH]; intros h msg; cbn; [reflexivity|].
  rewrite IH. apply block_length.
Qed.

Lemma Sum256_length data : length (sha256.Sum256 data) = 32%nat.
Proof.
  unfold sha256.Sum256. rewrite length_map.
  assert (Hflat : forall l, length (flat_map (sha256.be_bytes 4) l) = (4 * length l)%nat).
  { induction l as [|z l IH]; [reflexivity|].
    cbn [flat_map]. rewrite length_app, be_bytes_length, IH. cbn. lia. }
  rewrite Hflat, blocks_length. reflexivity.
Qed.

Lemma EncodeToString_length bs :
  String.length (hex.EncodeToString bs) = (2 * length bs)%nat.
Proof. induction bs as [|b bs IH]; cbn; [reflexivity|]. rewrite IH. lia. Qed.

(** A digest string has 64 characters. *)
Lemma digest_length data : String.length (digest data) = 64%nat.
Proof. unfold digest. rewrite EncodeToString_length, Sum256_length. reflexivity. Qed.

(** Strings of 64 characters with the same object path are equal. *)
Lemma objectPath_inj c h1 h2 :
  String.length h1 = 64%nat -> String.length h2 = 64%nat ->
  store.objectPath c h1 = store.objectPath c h2 -> h1 = h2.
Proof.
  intros H1 H2. unfold store.objectPath. rewrite H1, H2. cbn [Nat.ltb Nat.leb].
  destruct h1 as [|a1 [|b1 r1]]; try discriminate.
  destruct h2 as [|a2 [|b2 r2]]; try discriminate.
  cbn [substring].
  assert (Hsub : forall s, substring 0 0 s = "") by (intros []; reflexivity).
  rewrite !Hsub.
  assert (HJ : forall a b r,
    filepath.Join [store.basePath c; String a (String b ""); String a (String b r)]
    = if decide (store.basePath c = "")
      then String a (String b (String "/" (String a (String b r))))
      else store.basePath c +:+ String "/" (String a (String b (String "/" (String a (String b r)))))).
  { intros a b r. cbn. destruct (decide (store.basePath c = "")); reflexivity. }
  rewrite !HJ. destruct (decide (store.basePath c = "")); intros Heq.
  - injection Heq as -> -> _ _ ->. reflexivity.
  - apply String.app_inj in Heq. injection Heq as -> -> _ _ ->. reflexivity.
Qed.

Section PipelineFacts.
Context `{OS} `{RollingHash} `{Zstd} `{AEAD}.
Import models snapshot.

Lemma readNonce_length w nonce w' :
  crypto.readNonce w = (Ok nonce, w') -> length nonce = 12%nat /\ w' = next w.
Proof.
  unfold crypto.readNonce. destruct (os_rand (tick w)) as [r|]; [|discriminate].
  intros [= <- <-]. split; [|reflexivity].
  unfold crypto.nonceSize. rewrite length_take, length_app. cbn [length]. lia.
Qed.

(** What a successful [Put] did. *)
Lemma Put_inv c data w h c' w' :
  store.Put c data w = (Ok h, c', w') ->
  h = digest data /\ store.basePath c' = store.basePath c /\
  ((store.Has c (digest data) w = true /\ objects w' = objects w) \/
   (store.Has c (digest data) w = false /\
    objects w' = <[store.objectPath c (digest data) := data]> (objects w))).
Proof.
  unfold store.Put. destruct (store.Has c (digest data) w) eqn:HHas.
  - intros [= <- <- <-]. auto.
  - destruct (os_call (tick w)); [discriminate|]. cbn.
    destruct (os_write (S (tick w))) as [|e [n|]]; try discriminate.
    intros [= <- <- <-]. auto.
Qed.

(** What a successful [storeChunk] did for a chunk whose digest had no
    object file: it encoded the chunk's bytes and [Put] the result; the
    chunk list gets the chunk's own digest. *)
Lemma storeChunk_inv m hs p ch s r s' :
  storeChunk m (hs, p) ch s = (Ok r, s') ->
  store.Has (fst s) (Chunk.Hash ch) (snd s) = false ->
  exists nonce stored w1,
    length nonce = 12%nat /\
    pipeline.encode (compressor m) (encryptor m) nonce (Chunk.Data ch) = Ok stored /\
    objects w1 = objects (snd s) /\
    store.Put (fst s) stored w1 = (Ok (digest stored), fst s', snd s') /\
    fst r = hs ++ [Chunk.Hash ch].
Proof.
  intros Hs HHas. unfold storeChunk in Hs.
  apply bind_inv in Hs as [(e & _ & [=])|(d1 & s1 & Hc & Hs)].
  assert (Hd1 : (match compressor m with
                 | Some c => compress.Compress c (Chunk.Data ch)
                 | None => Ok (Chunk.Data ch)
                 end) = Ok d1 /\ s1 = s).
  { destruct (compressor m) as [c|].
    - unfold wrapping, lift in Hc. destruct (compress.Compress c (Chunk.Data ch));
        [injection Hc as <- <-; auto | discriminate].
    - injection Hc as <- <-. auto. }
  destruct Hd1 as [Hd1 ->]. clear Hc.
  apply bind_inv in Hs as [(e & _ & [=])|(d2 & s2 & He & Hs)].
  assert (Hd2 : exists nonce, length nonce = 12%nat /\
            (match encryptor m with
             | Some e => Ok (nonce ++ aead_Seal (crypto.key e) nonce d1)
             | None => Ok d1
             end) = Ok d2 /\ fst s2 = fst s /\ objects (snd s2) = objects (snd s)).
  { destruct (encryptor m) as [e|].
    - unfold wrapping, inWorld, crypto.Encrypt in He.
      destruct (bind _ _ (snd s)) as [[x|err] w2] eqn:Hb; [|discriminate].
      injection He as <- <-.
      apply bind_inv in Hb as [(err & _ & [=])|(nonce & w3 & Hn & Hret)].
      injection Hret as <- <-.
      unfold wrapping in Hn. destruct (crypto.readNonce (snd s)) as [[n|err] w4] eqn:Hrn;
        [|discriminate].
      injection Hn as <- <-. apply readNonce_length in Hrn as [Hlen ->].
      exists n. auto.
    - injection He as <- <-. exists (repeat x00 12). auto. }
  destruct Hd2 as (nonce & Hlen & Hd2 & Hc2 & Ho2).
  apply bind_inv in Hs as [(e & _ & [=])|(has & s3 & Hh & Hs)].
  injection Hh as <- <-.
  assert (HHas2 : store.Has (fst s2) (Chunk.Hash ch) (snd s2) = false).
  { apply Has_false. rewrite Hc2, Ho2. apply Has_false. exact HHas. }
  rewrite HHas2 in Hs.
  apply bind_inv in Hs as [(e & _ & [=])|(p' & s4 & Hput & Hret)].
  injection Hret as <- <-.
  apply bind_inv in Hput as [(e & _ & [=])|(h & s5 & Hput & Hret)].
  injection Hret as <- <-.
  unfold wrapping, casPut in Hput.
  destruct (store.Put (fst s2) d2 (snd s2)) as [[[h'|e] c'] w'] eqn:HP; [|discriminate].
  injection Hput as <- <-.
  exists nonce, d2, (snd s2). split; [exact Hlen|]. split.
  { unfold pipeline.encode. rewrite Hd1. exact Hd2. }
  split; [exact Ho2|]. split; [|reflexivity].
  rewrite <- Hc2. rewrite HP. cbn.
  apply Put_inv in HP as (-> & _). reflexivity.
Qed.

(** Decoding undoes encoding, for codecs that keep their contracts. *)
Lemma decode_encode compressor encryptor nonce data stored :
  ZstdRoundTrip -> AEADRoundTrip -> length nonce = 12%nat ->
  pipeline.encode compressor encryptor nonce data = Ok stored ->
  pipeline.decode compressor encryptor stored = Ok data.
Proof.
  intros HZ HA Hlen. unfold pipeline.encode, pipeline.decode.
  assert (HD : forall c d x, compress.Compress c d = Ok x -> compress.Decompress c x = Ok d).
  { intros c d x. unfold compress.Compress, compress.Decompress.
    repeat match goal with |- context [decide ?P] => destruct (decide P) end;
      try discriminate; intros [= <-]; try apply HZ; reflexivity. }
  destruct compressor as [c|], encryptor as [e|].
  - destruct (compress.Compress c data) as [x|] eqn:Hx; [|discriminate]. intros [= <-].
    unfold crypto.Decrypt.
    destruct (Nat.ltb_spec (length (nonce ++ aead_Seal (crypto.key e) nonce x)) crypto.nonceSize)
      as [Hlt|_].
    { rewrite length_app in Hlt. unfold crypto.nonceSize in Hlt. lia. }
    unfold crypto.nonceSize. rewrite <- Hlen, take_app_length, drop_app_length, HA.
    apply HD. exact Hx.
  - destruct (compress.Compress c data) as [x|] eqn:Hx; [|discriminate]. intros [= <-].
    apply HD. exact Hx.
  - intros [= <-]. unfold crypto.Decrypt.
    destruct (Nat.ltb_spec (length (nonce ++ aead_Seal (crypto.key e) nonce data)) crypto.nonceSize)
      as [Hlt|_].
    { rewrite length_app in Hlt. unfold crypto.nonceSize in Hlt. lia. }
    unfold crypto.nonceSize. rewrite <- Hlen, take_app_length, drop_app_length, HA.
    reflexivity.
  - intros [= <-]. reflexivity.
Qed.

End PipelineFacts.

(** ** The stand-ins keep the contracts *)

Lemma stored_zstd_round_trip : ZstdRoundTrip (H := stored_zstd).
Proof.
  intros level data. destruct data as [|b data]; [reflexivity|].
  cbn. destruct (decide _) as [_|Hne]; [reflexivity|]. now contradict Hne.
Qed.

Lemma xor_byte_twice a b : xor_byte (xor_byte a b) b = a.
Proof.
  unfold xor_byte. rewrite Byte.to_bits_of_bits.
  rewrite <- (Byte.of_bits_to_bits a) at 2.
  destruct (Byte.to_bits a) as (a0 & a1 & a2 & a3 & a4 & a5 & a6 & a7).
  destruct (Byte.to_bits b) as (b0 & b1 & b2 & b3 & b4 & b5 & b6 & b7).
  cbn [xor_bits]. f_equal.
  rewrite !xorb_assoc, !xorb_nilpotent, !xorb_false_r. reflexivity.
Qed.

Lemma xor_bytes_twice a : forall b,
  (length a <= length b)%nat -> xor_bytes (xor_bytes a b) b = a.
Proof.
  induction a as [|x a IH]; intros [|y b] Hlen; cbn in *; try reflexivity; try lia.
  rewrite xor_byte_twice. f_equal. apply IH. lia.
Qed.

Lemma xor_bytes_length a b :
  (length a <= length b)%nat -> length (xor_bytes a b) = length a.
Proof. intros Hlen. unfold xor_bytes. rewrite length_map, length_combine. lia. Qed.

Lemma toy_stream_length key nonce n : length (toy_stream key nonce n) = n.
Proof.
  unfold toy_stream. rewrite length_take.
  assert (Hc : forall k, length (concat (repeat (sha256.Sum256 (key ++ nonce)) k)) = (32 * k)%nat).
  { induction k as [|k IH]; [reflexivity|].
    cbn [repeat concat]. rewrite length_app, Sum256_length, IH. lia. }
  rewrite Hc. pose proof (Nat.div_mod_eq n 32) as Hdiv.
  pose proof (Nat.mod_upper_bound n 32). lia.
Qed.

Lemma toy_aead_round_trip : AEADRoundTrip (H := toy_aead).
Proof.
  intros key nonce plaintext. cbn [aead_Open aead_Seal toy_aead].
  assert (Htag : length (toy_tag key nonce plaintext) = 16%nat).
  { unfold toy_tag. rewrite length_take, Sum256_length. reflexivity. }
  assert (Hx : length (xor_bytes plaintext (toy_stream key nonce (length plaintext)))
               = length plaintext).
  { apply xor_bytes_length. rewrite toy_stream_length. lia. }
  rewrite length_app, Htag, Hx.
  replace (length plaintext + 16 - 16)%nat with (length plaintext) by lia.
  rewrite (take_app_length' _ _ _ (eq_sym Hx)), (drop_app_length' _ _ _ (eq_sym Hx)).
  rewrite xor_bytes_twice by (rewrite toy_stream_length; lia).
  destruct (decide _) as [_|Hne]; [reflexivity|]. now contradict Hne.
Qed.

(** ** What a backup stores, and under which name *)
Section PipelineClaims.
Context `{OS} `{RollingHash} `{Zstd} `{AEAD}.
Import models snapshot.

(** C1, where the code departs from it.  Take a chunk as the chunker makes
    it (its digest is the digest of its bytes) whose digest has no object
    file yet, and a manager whose encoding (compression, encryption or
    both) changes the digest of the chunk's bytes.  When [storeChunk]
    succeeds, the snapshot's chunk list gets the chunk's digest, but no
    object file has that name: [Get] of the recorded digest fails with the
    not-found error, and so does the step of [restoreFile] that fetches the
    chunk, for every restorer on the same store.  The bytes are never
    written to the restored file. *)
Theorem encoded_chunk_is_not_found
    (m : Manager) (hs : list string) (p : Progress) (ch : Chunk.t)
    (s : St) (r : list string * Progress) (s' : St) :
  Chunk.Hash ch = digest (Chunk.Data ch) ->
  store.Has (fst s) (Chunk.Hash ch) (snd s) = false ->
  (forall nonce stored,
     pipeline.encode (compressor m) (encryptor m) nonce (Chunk.Data ch) = Ok stored ->
     digest stored <> digest (Chunk.Data ch)) ->
  storeChunk m (hs, p) ch s = (Ok r, s') ->
  fst r = hs ++ [Chunk.Hash ch] /\
  store.Get (fst s') (Chunk.Hash ch) (snd s') = Err (ErrNotFound (Chunk.Hash ch)) /\
  (forall rr targetPath,
     store.basePath (restore.cas rr) = store.basePath (fst s) ->
     restore.restoreChunk rr targetPath tt (Chunk.Hash ch) (snd s')
     = (Err (ErrWrap ("failed to get chunk " +:+ Chunk.Hash ch)
               (ErrNotFound (Chunk.Hash ch))), snd s')).
Proof.
  intros Hhash HHas Hchanged Hs.
  destruct (storeChunk_inv _ _ _ _ _ _ _ Hs HHas)
    as (nonce & stored & w1 & _ & Henc & Hobj & HPut & Hr).
  apply Put_inv in HPut as (_ & Hbase & Hwritten).
  assert (Hnone : forall c, store.basePath c = store.basePath (fst s) ->
            objects (snd s') !! store.objectPath c (Chunk.Hash ch) = None).
  { intros c Hc.
    assert (Hpath : store.objectPath c (Chunk.Hash ch)
                    = store.objectPath (fst s) (Chunk.Hash ch)).
    { unfold store.objectPath. rewrite Hc. reflexivity. }
    rewrite Hpath. apply Has_false in HHas.
    destruct Hwritten as [[_ ->]|[_ ->]].
    - rewrite Hobj. exact HHas.
    - rewrite lookup_insert_ne; [rewrite Hobj; exact HHas|].
      intros Heq. apply objectPath_inj in Heq.
      + apply (Hchanged _ _ Henc). rewrite Heq. exact Hhash.
      + apply digest_length.
      + rewrite Hhash. apply digest_length. }
  split; [exact Hr|]. split.
  - unfold store.Get. rewrite (Hnone _ Hbase). reflexivity.
  - intros rr targetPath Hrr. unfold restore.restoreChunk, bind, wrapping, store.Get.
    rewrite (Hnone _ Hrr). reflexivity.
Qed.

(** C2, where the code departs from it.  For a chunk whose digest has no
    object file yet, a successful [storeChunk] leaves an object file named
    by the digest of the bytes it stored, which are the encoded bytes
    (written then, unless a file of that name was there); decoding them, as
    restore does, gives the chunk's bytes back; and the chunk list gets the
    chunk's own digest.  The name and the recorded digest are the same only
    if encoding does not change the digest: otherwise no object file has
    the recorded digest as its name. *)
Theorem stored_object_is_named_by_its_own_digest
    (m : Manager) (hs : list string) (p : Progress) (ch : Chunk.t)
    (s : St) (r : list string * Progress) (s' : St) :
  ZstdRoundTrip -> AEADRoundTrip ->
  Chunk.Hash ch = digest (Chunk.Data ch) ->
  store.Has (fst s) (Chunk.Hash ch) (snd s) = false ->
  storeChunk m (hs, p) ch s = (Ok r, s') ->
  exists stored,
    store.Has (fst s') (digest stored) (snd s') = true /\
    (store.Has (fst s) (digest stored) (snd s) = false ->
     objects (snd s') = <[store.objectPath (fst s) (digest stored) := stored]> (objects (snd s))) /\
    pipeline.decode (compressor m) (encryptor m) stored = Ok (Chunk.Data ch) /\
    fst r = hs ++ [Chunk.Hash ch] /\
    (digest stored <> Chunk.Hash ch ->
     store.Has (fst s') (Chunk.Hash ch) (snd s') = false).
Proof.
  intros HZ HA Hhash HHas Hs.
  destruct (storeChunk_inv _ _ _ _ _ _ _ Hs HHas)
    as (nonce & stored & w1 & Hlen & Henc & Hobj & HPut & Hr).
  apply Put_inv in HPut as (_ & Hbase & Hwritten).
  assert (Hpath : forall h, store.objectPath (fst s') h = store.objectPath (fst s) h).
  { intros h. unfold store.objectPath. rewrite Hbase. reflexivity. }
  assert (HHas1 : forall h, store.Has (fst s) h w1 = store.Has (fst s) h (snd s)).
  { intros h. unfold store.Has. rewrite Hobj. reflexivity. }
  exists stored. split; [|split; [|split; [|split]]].
  - apply Has_true. rewrite Hpath.
    destruct Hwritten as [[Hthere ->]|[_ ->]].
    + apply Has_true in Hthere. exact Hthere.
    + rewrite lookup_insert_eq. eauto.
  - intros Hfresh. destruct Hwritten as [[Hthere _]|[_ ->]].
    + rewrite HHas1 in Hthere. congruence.
    + rewrite Hobj. reflexivity.
  - eapply decode_encode; eassumption.
  - exact Hr.
  - intros Hne. apply Has_false. rewrite Hpath. apply Has_false in HHas.
    destruct Hwritten as [[_ ->]|[_ ->]].
    + rewrite Hobj. exact HHas.
    + rewrite lookup_insert_ne; [rewrite Hobj; exact HHas|].
      intros Heq. apply objectPath_inj in Heq; [contradiction | apply digest_length |].
      rewrite Hhash. apply digest_length.
Qed.

(** The case in which the round trip does hold: with neither compression
    nor encryption, a chunk that [storeChunk] stores is fetched back, byte
    for byte, under the digest that the chunk list records. *)
Lemma plain_chunk_round_trip
    (m : Manager) (hs : list string) (p : Progress) (ch : Chunk.t)
    (s : St) (r : list string * Progress) (s' : St) :
  compressor m = None -> encryptor m = None ->
  Chunk.Hash ch = digest (Chunk.Data ch) ->
  store.Has (fst s) (Chunk.Hash ch) (snd s) = false ->
  storeChunk m (hs, p) ch s = (Ok r, s') ->
  fst r = hs ++ [Chunk.Hash ch] /\
  store.Get (fst s') (Chunk.Hash ch) (snd s') = Ok (Chunk.Data ch).
Proof.
  intros Hc He Hhash HHas Hs.
  destruct (storeChunk_inv _ _ _ _ _ _ _ Hs HHas)
    as (nonce & stored & w1 & _ & Henc & Hobj & HPut & Hr).
  unfold pipeline.encode in Henc. rewrite Hc, He in Henc. injection Henc as <-.
  apply Put_inv in HPut as (_ & Hbase & Hwritten).
  split; [exact Hr|].
  assert (Hfresh : store.Has (fst s) (digest (Chunk.Data ch)) w1 = false).
  { apply Has_false. rewrite Hobj, <- Hhash. apply Has_false. exact HHas. }
  destruct Hwritten as [[Hthere _]|[_ Hnew]]; [congruence|].
  unfold store.Get.
  assert (Hpath : store.objectPath (fst s') (Chunk.Hash ch)
                  = store.objectPath (fst s) (digest (Chunk.Data ch))).
  { unfold store.objectPath. rewrite Hbase, Hhash. reflexivity. }
  rewrite Hpath, Hnew, lookup_insert_eq.
  destruct (decide (digest (Chunk.Data ch) = Chunk.Hash ch)); [reflexivity | congruence].
Qed.

End PipelineClaims.

(** The stand-in codec changes the digest of "hello". *)
Lemma demo_digest_changes :
  digest (zstd_EncodeAll (Zstd := stored_zstd) SpeedDefault (bytes_of_string "hello"))
  <> digest (bytes_of_string "hello").
Proof.
  apply (proj1 (bool_decide_eq_false _)). vm_compute. reflexivity.
Qed.

(** With the zstd compressor, the chunk "hello" is stored under the digest
    of its compressed bytes and cannot be fetched under its own. *)
Lemma encoded_chunk_is_not_found_witness :
  let m := demo_manager (Some compress.NewDefault) None in
  let ch := chunker.createChunk (bytes_of_string "hello") 0 in
  let s := (snapshot.cas m, empty_world) in
  let out := snapshot.storeChunk (H := demo_os) (H1 := stored_zstd) (H2 := toy_aead)
               m ([], demo_progress) ch s in
  (exists r, fst out = Ok r /\ fst r = [] ++ [models.Chunk.Hash ch]) /\
  store.Get (fst (snd out)) (models.Chunk.Hash ch) (snd (snd out))
    = Err (ErrNotFound (models.Chunk.Hash ch)) /\
  (forall rr targetPath,
     store.basePath (restore.cas rr) = store.basePath (fst s) ->
     restore.restoreChunk (H := demo_os) (H0 := stored_zstd) (H1 := toy_aead)
       rr targetPath tt (models.Chunk.Hash ch) (snd (snd out))
     = (Err (ErrWrap ("failed to get chunk " +:+ models.Chunk.Hash ch)
               (ErrNotFound (models.Chunk.Hash ch))), snd (snd out))).
Proof.
  intros m ch s out.
  assert (Hok : match fst out with Ok _ => true | Err _ => false end = true)
    by (vm_compute; reflexivity).
  destruct out as [[r|e] s'] eqn:HC; [|discriminate Hok]. cbn [fst snd].
  destruct (encoded_chunk_is_not_found (H := demo_os) (H1 := stored_zstd)
              (H2 := toy_aead) m [] demo_progress ch s r s') as (Hr & HGet & Hrestore).
  - reflexivity.
  - vm_compute. reflexivity.
  - intros nonce stored Henc. injection Henc as <-. exact demo_digest_changes.
  - exact HC.
  - split; [exists r; split; [reflexivity | exact Hr]|]. split; assumption.
Defined.

(** With compression and encryption, the object that holds "hello" is named
    by the digest of its stored bytes and decodes to "hello". *)
Lemma stored_object_is_named_by_its_own_digest_witness :
  let m := demo_manager (Some compress.NewDefault) (Some demo_key) in
  let ch := chunker.createChunk (bytes_of_string "hello") 0 in
  let s := (snapshot.cas m, empty_world) in
  let out := snapshot.storeChunk (H := demo_os) (H1 := stored_zstd) (H2 := toy_aead)
               m ([], demo_progress) ch s in
  exists r stored,
    fst out = Ok r /\
    store.Has (fst (snd out)) (digest stored) (snd (snd out)) = true /\
    (store.Has (fst s) (digest stored) (snd s) = false ->
     objects (snd (snd out))
     = <[store.objectPath (fst s) (digest stored) := stored]> (objects (snd s))) /\
    pipeline.decode (H := stored_zstd) (H0 := toy_aead)
      (snapshot.compressor m) (snapshot.encryptor m) stored = Ok (models.Chunk.Data ch) /\
    fst r = [] ++ [models.Chunk.Hash ch] /\
    (digest stored <> models.Chunk.Hash ch ->
     store.Has (fst (snd out)) (models.Chunk.Hash ch) (snd (snd out)) = false).
Proof.
  intros m ch s out.
  assert (Hok : match fst out with Ok _ => true | Err _ => false end = true)
    by (vm_compute; reflexivity).
  assert (HHas : store.Has (fst s) (models.Chunk.Hash ch) (snd s) = false)
    by (vm_compute; reflexivity).
  destruct out as [[r|e] s'] eqn:HC; [|discriminate Hok]. cbn [fst snd].
  destruct (stored_object_is_named_by_its_own_digest (H := demo_os)
              (H1 := stored_zstd) (H2 := toy_aead) m [] demo_progress ch s r s'
              stored_zstd_round_trip toy_aead_round_trip)
    as (stored & Hthm).
  - reflexivity.
  - exact HHas.
  - exact HC.
  - exists r, stored. split; [reflexivity | exact Hthm].
Defined.

(** ** The round trip on a small tree

    A backup of /d (a.txt = "hello", b.txt = "world") into an empty
    repository, then a restore into /t. *)

(** Without compression and encryption both files come back. *)
Example round_trip_plain :
  demo_round_trip None None
  = Some ([], 2,
          [("/t/a.txt", bytes_of_string "hello"); ("/t/b.txt", bytes_of_string "world")]).
Proof. vm_compute. reflexivity. Qed.

(** With the zstd compressor the restore reports both files in error, the
    chunk not found, and leaves them empty. *)
Example round_trip_compressed :
  demo_round_trip (Some compress.NewDefault) None
  = Some ([("a.txt",
            ErrWrap ("failed to get chunk " +:+ digest (bytes_of_string "hello"))
              (ErrNotFound (digest (bytes_of_string "hello"))));
           ("b.txt",
            ErrWrap ("failed to get chunk " +:+ digest (bytes_of_string "world"))
              (ErrNotFound (digest (bytes_of_string "world"))))],
          0, [("/t/a.txt", []); ("/t/b.txt", [])]).
Proof. vm_compute. reflexivity. Qed.

(** With encryption alone, the same. *)
Example round_trip_encrypted :
  demo_round_trip None (Some demo_key)
  = Some ([("a.txt",
            ErrWrap ("failed to get chunk " +:+ digest (bytes_of_string "hello"))
              (ErrNotFound (digest (bytes_of_string "hello"))));
           ("b.txt",
            ErrWrap ("failed to get chunk " +:+ digest (bytes_of_string "world"))
              (ErrNotFound (digest (bytes_of_string "world"))))],
          0, [("/t/a.txt", []); ("/t/b.txt", [])]).
Proof. vm_compute. reflexivity. Qed.

(** The object names after the compressed backup are not the digests that
    the snapshot records. *)
Example compressed_backup_names :
  match snapshot.Create (H := demo_os) (H0 := sum_hash) (H1 := stored_zstd) (H2 := toy_aead)
          (demo_manager (Some compress.NewDefault) None) "/d" "demo" "" empty_world with
  | (Ok snap, _, w) =>
      (map fst (map_to_list (objects w)),
       omap (fun n => head (models.FileNode.Chunks n))
         (map snd (map_to_list (models.FileTree.Files (models.Snapshot.Tree snap)))))
  | _ => ([], [])
  end
  = ([ "/r/objects/e0/e061426904d29871cecfec989824ff5c94558505649c0a04c8d61fd0a147583e";
       "/r/objects/4c/4c88ca7ace5aefe611f7f73a23385c9591186f2b5f9d0d98ce06ff85b24d8842" ],
     [ "2cf24dba5fb0a30e26e83b2ac5b9e29e1b161e5c1fa7425e73043362938b9824";
       "486ea46224d1bb4fb680f34f7c9ad96a8f24ec88be73ea8e5a6c65260e9cb8a7" ]).
Proof. vm_compute. reflexivity. Qed.

(** ** More on the chunker *)
Section ChunkerMore.
Context `{RollingHash}.
Import models chunker.

(** The chunks of [cs] carry consecutive offsets from [start] on, each
    with the digest and the length of its bytes. *)
Fixpoint laidOut (start : Z) (cs : list Chunk.t) : Prop :=
  match cs with
  | [] => True
  | ch :: rest =>
      ch = createChunk (Chunk.Data ch) (wrap64 start) /\
      laidOut (start + Z.of_nat (length (Chunk.Data ch))) rest
  end.

Definition total (cs : list Chunk.t) : Z :=
  Z.of_nat (length (concat (map Chunk.Data cs))).

Lemma laidOut_app start cs1 cs2 :
  laidOut start (cs1 ++ cs2) <-> laidOut start cs1 /\ laidOut (start + total cs1) cs2.
Proof.
  revert start. induction cs1 as [|ch cs1 IH]; intros start; cbn [app laidOut].
  - unfold total. cbn. rewrite Z.add_0_r. tauto.
  - rewrite IH. unfold total. cbn [map concat]. rewrite length_app.
    replace (start + Z.of_nat (length (Chunk.Data ch) + length (concat (map Chunk.Data cs1))))
      with (start + Z.of_nat (length (Chunk.Data ch))
            + Z.of_nat (length (concat (map Chunk.Data cs1)))) by lia.
    tauto.
Qed.

Lemma wrap64_add_l a b : wrap64 (wrap64 a + b) = wrap64 (a + b).
Proof.
  unfold wrap64. f_equal.
  replace ((a + 2 ^ 63) mod 2 ^ 64 - 2 ^ 63 + b + 2 ^ 63)
    with ((a + 2 ^ 63) mod 2 ^ 64 + b) by lia.
  rewrite Zplus_mod_idemp_l. f_equal. lia.
Qed.

(** The loop keeps the emitted chunks laid out from offset 0, and its
    [offset] variable at the (wrapped) number of bytes emitted. *)
Definition tiled (st : State) : Prop :=
  laidOut 0 (chunks st) /\ offset st = wrap64 (total (chunks st)).

Lemma createChunk_Data data off : Chunk.Data (createChunk data off) = data.
Proof. reflexivity. Qed.

Lemma step_tiled c st b : tiled st -> tiled (step c st b).
Proof.
  intros [Hlaid Hoff]. unfold step.
  match goal with |- tiled (if ?x then _ else _) => destruct x end;
    [|split; assumption].
  split; cbn [chunks offset].
  - apply laidOut_app. split; [exact Hlaid|]. cbn [laidOut].
    rewrite createChunk_Data, Hoff. split; [reflexivity | exact I].
  - rewrite Hoff, wrap64_add_l. f_equal. unfold total.
    rewrite map_app, concat_app. cbn [map concat].
    rewrite app_nil_r, createChunk_Data, !length_app. cbn [length]. lia.
Qed.

Lemma fold_step_tiled c data : forall st, tiled st -> tiled (fold_left (step c) data st).
Proof.
  induction data as [|b data IH]; intros st Hst; cbn; [exact Hst|].
  apply IH, step_tiled, Hst.
Qed.

Lemma init_tiled : tiled init.
Proof. split; [exact I | reflexivity]. Qed.

(** What [Chunk] returns for a reader that delivers [X]: chunks laid out
    from offset 0 whose bytes make up [X]. *)
Lemma Chunk_laidOut c r X :
  ReadAll r = Ok X ->
  exists cs, Chunk c r = Ok cs /\ laidOut 0 cs /\ concat (map Chunk.Data cs) = X.
Proof.
  intros HX. destruct (Chunk_ReadAll c r X HX) as (st & Hst & HC).
  assert (Ht : tiled st) by (subst st; apply fold_step_tiled, init_tiled).
  assert (Hc : consumed st = X) by (subst st; apply fold_step_consumed).
  destruct Ht as [Hlaid Hoff]. eexists. split; [exact HC|].
  destruct (Nat.ltb_spec 0 (length (currentChunk st))) as [Hpos|Hzero].
  - split.
    + apply laidOut_app. split; [exact Hlaid|]. cbn [laidOut].
      rewrite createChunk_Data, Hoff, Z.add_0_l. split; [reflexivity | exact I].
    + rewrite map_app, concat_app. cbn. rewrite app_nil_r. exact Hc.
  - split; [exact Hlaid|]. unfold consumed in Hc.
    destruct (currentChunk st); [|cbn in Hzero; lia].
    rewrite app_nil_r in Hc. exact Hc.
Qed.

(** X1 (chunk metadata).  For every chunker and every reader that delivers
    the bytes [X] without error, the chunks that [Chunker.Chunk] returns tile
    [X]: their bytes, one chunk after the other, are [X] (so no byte is
    dropped and none is added); a chunk's bytes follow those of the chunks
    before it, its [Offset] is the number of bytes before it (as an
    [int64]), its [Size] is the number of its bytes and its [Hash] is the
    SHA-256 digest of its bytes. *)
Theorem Chunk_tiles_input (c : Chunker) (r : Reader) (X : bytes) :
  ReadAll r = Ok X ->
  exists cs,
    Chunk c r = Ok cs /\
    concat (map Chunk.Data cs) = X /\
    forall pre ch post, cs = pre ++ ch :: post ->
      X = concat (map Chunk.Data pre) ++ Chunk.Data ch ++ concat (map Chunk.Data post) /\
      Chunk.Offset ch = wrap64 (Z.of_nat (length (concat (map Chunk.Data pre)))) /\
      (Z.of_nat (length X) < 2 ^ 63 ->
       Chunk.Offset ch = Z.of_nat (length (concat (map Chunk.Data pre)))) /\
      Chunk.Size ch = Z.of_nat (length (Chunk.Data ch)) /\
      Chunk.Hash ch = digest (Chunk.Data ch).
Proof.
  intros HX. destruct (Chunk_laidOut c r X HX) as (cs & HC & Hlaid & Hcat).
  exists cs. split; [exact HC|]. split; [exact Hcat|]. intros pre ch post ->.
  apply laidOut_app in Hlaid as [_ [Hch _]]. rewrite Z.add_0_l in Hch.
  assert (HX' : X = concat (map Chunk.Data pre) ++ Chunk.Data ch ++ concat (map Chunk.Data post)).
  { rewrite <- Hcat, map_app, concat_app. reflexivity. }
  assert (Hoff : Chunk.Offset ch = wrap64 (total pre)) by (rewrite Hch; reflexivity).
  split; [exact HX'|]. split; [exact Hoff|]. split; [|split].
  - intros Hbound. rewrite Hoff. apply wrap64_small. unfold total.
    rewrite HX', length_app in Hbound. lia.
  - rewrite Hch. reflexivity.
  - rewrite Hch. reflexivity.
Qed.

(** X2 (small inputs).  With parameters [0 < min <= avg <= max], an input
    of at most [min] bytes is never split: a non-empty one comes back as one
    chunk at offset 0 that holds the whole input, so that the chunk's digest
    is the digest of the input; an empty one gives no chunk at all. *)
Theorem Chunk_small_input (minS avgS maxS : Z) (r : Reader) (X : bytes) :
  0 < minS -> minS <= avgS -> avgS <= maxS ->
  ReadAll r = Ok X ->
  Z.of_nat (length X) <= minS ->
  Chunk (New minS avgS maxS) r = Ok (match X with [] => [] | _ => [createChunk X 0] end).
Proof.
  intros Hmin Havg Hmax HX Hsmall.
  set (c := New minS avgS maxS).
  assert (Hcmin : minSize c = minS).
  { unfold c, New; cbn. destruct (Z.leb_spec minS 0); [lia | reflexivity]. }
  assert (Hcmax : maxSize c = maxS).
  { unfold c, New; cbn. destruct (Z.leb_spec maxS 0); [lia | reflexivity]. }
  destruct (Chunk_ReadAll c r X HX) as (st & Hst & HC).
  assert (Ht : tiled st) by (subst st; apply fold_step_tiled, init_tiled).
  assert (Hc : consumed st = X) by (subst st; apply fold_step_consumed).
  assert (Hsz : sized c st).
  { subst st. apply fold_step_sized; [lia|]. apply init_sized. lia. }
  destruct Ht as [Hlaid Hoff]. destruct Hsz as [Hch Hcur]. rewrite Hcmin, Hcmax in *.
  rewrite HC. unfold consumed in Hc.
  destruct (chunks st) as [|ch [|ch2 rest]] eqn:Hchunks.
  - cbn in Hc. rewrite Hc. rewrite Hoff. destruct X; reflexivity.
  - cbn in Hc. rewrite app_nil_r in Hc.
    apply Forall_cons in Hch as [Hlen _]. cbn [laidOut] in Hlaid. destruct Hlaid as [Hch0 _].
    assert (Hcurnil : currentChunk st = []).
    { apply length_zero_iff_nil. rewrite <- Hc, length_app in Hsmall. lia. }
    rewrite Hcurnil in *. rewrite app_nil_r in Hc. cbn.
    rewrite Hch0, Hc. destruct X; [cbn in Hlen; rewrite Hc in Hlen; cbn in Hlen; lia | reflexivity].
  - exfalso. apply Forall_cons in Hch as [Hl1 Hch]. apply Forall_cons in Hch as [Hl2 _].
    rewrite <- Hc in Hsmall. cbn in Hsmall. rewrite !length_app in Hsmall. lia.
Qed.

(** X3 (read errors).  When a [Read] returns no bytes and an error that is
    not end of file, after any number of reads that succeeded, [Chunk]
    returns that error and no chunk.  An error that a [Read] returns
    together with bytes is not acted on: the bytes are consumed and the
    reader is read again. *)
Theorem Chunk_read_error (c : Chunker) (blocks : list bytes) (e : error) (rest : Reader) :
  Chunk c (reader_of blocks ++ ([], Some (ReadError e)) :: rest) = Err e /\
  forall b data,
    Chunk c (reader_of blocks ++ (b :: data, Some (ReadError e)) :: rest)
    = Chunk c (reader_of blocks ++ (b :: data, None) :: rest).
Proof.
  assert (Hloop : forall st,
    readLoop c st (reader_of blocks ++ ([], Some (ReadError e)) :: rest) = Err e).
  { induction blocks as [|blk blocks IH]; intros st; [reflexivity|].
    destruct blk as [|b blk]; cbn; apply IH. }
  assert (Hsame : forall b data st,
    readLoop c st (reader_of blocks ++ (b :: data, Some (ReadError e)) :: rest)
    = readLoop c st (reader_of blocks ++ (b :: data, None) :: rest)).
  { clear Hloop. intros b data.
    induction blocks as [|blk blocks IH]; intros st; [reflexivity|].
    destruct blk as [|b' blk]; cbn; apply IH. }
  split.
  - unfold Chunk. rewrite Hloop. reflexivity.
  - intros b data. unfold Chunk. rewrite Hsame. reflexivity.
Qed.

End ChunkerMore.

Lemma Chunk_tiles_input_witness :
  exists cs,
    chunker.Chunk (H := sum_hash) (chunker.New 2 4 8)
      (reader_of [bytes_of_string "abc"; bytes_of_string "defghijklmnopqrst"]) = Ok cs /\
    concat (map models.Chunk.Data cs) = bytes_of_string "abcdefghijklmnopqrst" /\
    forall pre ch post, cs = pre ++ ch :: post ->
      bytes_of_string "abcdefghijklmnopqrst"
      = concat (map models.Chunk.Data pre) ++ models.Chunk.Data ch
          ++ concat (map models.Chunk.Data post) /\
      models.Chunk.Offset ch = wrap64 (Z.of_nat (length (concat (map models.Chunk.Data pre)))) /\
      (Z.of_nat (length (bytes_of_string "abcdefghijklmnopqrst")) < 2 ^ 63 ->
       models.Chunk.Offset ch = Z.of_nat (length (concat (map models.Chunk.Data pre)))) /\
      models.Chunk.Size ch = Z.of_nat (length (models.Chunk.Data ch)) /\
      models.Chunk.Hash ch = digest (models.Chunk.Data ch).
Proof.
  apply (Chunk_tiles_input (H := sum_hash) (chunker.New 2 4 8)). reflexivity.
Defined.

Lemma Chunk_small_input_witness :
  chunker.Chunk (H := sum_hash) (chunker.New 8 16 32)
    (reader_of [bytes_of_string "abc"; bytes_of_string "de"])
  = Ok [chunker.createChunk (bytes_of_string "abcde") 0].
Proof.
  apply (Chunk_small_input (H := sum_hash) 8 16 32 _ (bytes_of_string "abcde"));
    [lia | lia | lia | reflexivity | cbn; lia].
Defined.

(** ** More on the store *)
Section StoreMore.
Context `{OS}.
Import store.

(** X4 ([Put], then [Get]).  A [Put] that succeeds returns the digest of
    the data.  If no object file had that name, [Get] of the digest now
    returns the data.  If a file had that name, [Put] wrote nothing and
    [Get] answers as it did before: with the file's bytes if they digest to
    the name, with the corruption error otherwise.  [Put] does not repair a
    damaged object. *)
Theorem Put_then_Get (c : CAS) (data : bytes) (w : World) (h : string) (c' : CAS) (w' : World) :
  Put c data w = (Ok h, c', w') ->
  h = digest data /\
  match objects w !! objectPath c h with
  | None => Get c' h w' = Ok data
  | Some old =>
      w' = w /\
      Get c' h w' = (if decide (digest old = h) then Ok old else Err (ErrCorruption h))
  end.
Proof.
  intros HP. unfold Put in HP.
  destruct (Has c (digest data) w) eqn:HHas.
  - injection HP as <- <- <-. split; [reflexivity|].
    apply Has_true in HHas as [old Hold]. rewrite Hold. split; [reflexivity|].
    unfold Get. rewrite objectPath_with_refCount, Hold. reflexivity.
  - apply Has_false in HHas.
    destruct (os_call (tick w)); [discriminate|]. cbn in HP.
    destruct (os_write (S (tick w))) as [|e [n|]]; try discriminate.
    injection HP as <- <- <-. split; [reflexivity|]. rewrite HHas.
    unfold Get. rewrite objectPath_with_refCount. cbn. rewrite lookup_insert_eq.
    destruct (decide (digest data = digest data)); [reflexivity | congruence].
Qed.

(** X5 ([Put] touches one object).  Whatever [Put] returns, it leaves every
    object file but the one named by the data's digest as it was, changes no
    reference count but that digest's, and touches neither the snapshot
    records nor restored files.  A [Put] that fails changes no reference
    count at all. *)
Theorem Put_frame (c : CAS) (data : bytes) (w : World)
    (r : Result string) (c' : CAS) (w' : World) :
  Put c data w = (r, c', w') ->
  basePath c' = basePath c /\
  snapshots w' = snapshots w /\ targets w' = targets w /\
  (forall p, p <> objectPath c (digest data) -> objects w' !! p = objects w !! p) /\
  (forall h, h <> digest data -> refCount c' !! h = refCount c !! h) /\
  (forall e, r = Err e -> c' = c).
Proof.
  intros HP. unfold Put in HP.
  destruct (Has c (digest data) w).
  { injection HP as <- <- <-. cbn. repeat split; try reflexivity.
    - intros h Hne. apply lookup_insert_ne. congruence.
    - discriminate. }
  destruct (os_call (tick w)).
  { injection HP as <- <- <-. repeat split; reflexivity. }
  cbn in HP. destruct (os_write (S (tick w))) as [|e [n|]]; injection HP as <- <- <-; cbn;
    repeat split; try reflexivity; try discriminate;
    try (intros p Hne; apply lookup_insert_ne; congruence).
Qed.

(** X6 ([Delete]).  [Delete] leaves every other object file and every
    other reference count as they were.  While the digest's count is above
    one it only decrements the count.  Otherwise (count at most one, or no
    count) it drops the count and removes the file: after success the file
    is gone, and after a failed removal the file is as it was but the count
    is lost all the same. *)
Theorem Delete_frame (c : CAS) (hash : string) (w : World)
    (r : Result unit) (c' : CAS) (w' : World) :
  Delete c hash w = (r, c', w') ->
  basePath c' = basePath c /\
  (forall p, p <> objectPath c hash -> objects w' !! p = objects w !! p) /\
  (forall h, h <> hash -> refCount c' !! h = refCount c !! h) /\
  match refCount c !! hash with
  | Some count =>
      if 1 <? count
      then r = Ok tt /\ w' = w /\ refCount c' !! hash = Some (wrap64 (count - 1))
      else refCount c' !! hash = None
  | None => refCount c' !! hash = None
  end /\
  (refCount c' !! hash = None ->
   match r with
   | Ok _ => objects w' !! objectPath c hash = None
   | Err _ => objects w' = objects w
   end).
Proof.
  intros HD. unfold Delete in HD.
  assert (HR : forall r0 w0, Remove (objectPath c hash) w = (r0, w0) ->
    (forall p, p <> objectPath c hash -> objects w0 !! p = objects w !! p) /\
    match r0 with
    | Ok _ => objects w0 !! objectPath c hash = None
    | Err _ => objects w0 = objects w
    end).
  { intros r0 w0 HRm. unfold Remove in HRm.
    destruct (objects w !! objectPath c hash); [|injection HRm as <- <-; auto].
    destruct (os_call (tick w)); injection HRm as <- <-; cbn; [auto|].
    split; [|apply lookup_delete_eq]. intros p Hne. apply lookup_delete_ne. congruence. }
  destruct (refCount c !! hash) as [count|] eqn:Hrc.
  - destruct (Z.gtb_spec count 1) as [Hgt|Hle].
    + injection HD as <- <- <-. cbn.
      destruct (Z.ltb_spec 1 count); [|lia].
      split; [reflexivity|]. split; [reflexivity|]. split.
      { intros h Hne. apply lookup_insert_ne. congruence. }
      split; [rewrite lookup_insert_eq; auto|].
      rewrite lookup_insert_eq. discriminate.
    + rewrite objectPath_with_refCount in HD.
      destruct (Remove (objectPath c hash) w) as [r0 w0] eqn:HRm.
      injection HD as <- <- <-. cbn.
      destruct (HR r0 w0 eq_refl) as [Hframe Hout].
      destruct (Z.ltb_spec 1 count); [lia|].
      split; [reflexivity|]. split; [exact Hframe|]. split.
      { intros h Hne. apply lookup_delete_ne. congruence. }
      split; [apply lookup_delete_eq|]. intros _. exact Hout.
  - destruct (Remove (objectPath c hash) w) as [r0 w0] eqn:HRm.
    injection HD as <- <- <-.
    destruct (HR r0 w0 eq_refl) as [Hframe Hout].
    split; [reflexivity|]. split; [exact Hframe|]. split; [reflexivity|].
    split; [exact Hrc|]. intros _. exact Hout.
Qed.

(** X7 (reference counts live in one instance).  A store opened with
    [NewCAS] starts without counts, so its first [Delete] of an object
    removes the file, however many references an instance opened earlier on
    the same repository has counted: that instance's [Get] then fails with
    the not-found error. *)
Theorem fresh_instance_deletes (repo : string) (w w1 : World) (c : CAS)
    (hash : string) (data : bytes) :
  FaultFree ->
  NewCAS repo w = (Ok c, w1) ->
  objects w !! objectPath c hash = Some data ->
  refCount c = ∅ /\
  exists w2,
    Delete c hash w1 = (Ok tt, c, w2) /\
    objects w2 = delete (objectPath c hash) (objects w) /\
    forall earlier, basePath earlier = basePath c ->
      Get earlier hash w2 = Err (ErrNotFound hash).
Proof.
  intros HF HN Hobj. unfold NewCAS in HN.
  destruct (os_call (tick w)); [discriminate|]. injection HN as <- <-.
  split; [reflexivity|]. eexists. split; [|split].
  - unfold Delete. cbn [refCount]. rewrite lookup_empty.
    rewrite (Remove_present _ data) by (try apply HF; exact Hobj). reflexivity.
  - reflexivity.
  - intros earlier Hbase. unfold Get.
    assert (Hp : objectPath earlier hash
                 = objectPath (mkCAS (filepath.Join [repo; "objects"]) ∅) hash).
    { unfold objectPath. rewrite Hbase. reflexivity. }
    rewrite Hp. cbn [objects with_objects next with_tick].
    rewrite lookup_delete_eq. reflexivity.
Qed.

End StoreMore.

Lemma Put_then_Get_witness :
  let H := static_os (Err (ErrIO "")) ∅ in
  let c := store.mkCAS "/r/objects" ∅ in
  let X := bytes_of_string "abc" in
  let out := store.Put c X empty_world in
  fst (fst out) = Ok (digest X) /\
  store.Get (snd (fst out)) (digest X) (snd out) = Ok X.
Proof.
  intros H c X out.
  assert (Hr : fst (fst out) = Ok (digest X)) by (vm_compute; reflexivity).
  split; [exact Hr|].
  destruct out as [[r c'] w'] eqn:HP. cbn [fst snd] in *. subst r.
  destruct (Put_then_Get (H := H) c X empty_world _ c' w' HP) as [_ HG].
  exact HG.
Defined.

Lemma Put_frame_witness :
  let H := static_os (Err (ErrIO "")) ∅ in
  let c := store.mkCAS "/r/objects" ∅ in
  let X := bytes_of_string "abc" in
  let out := store.Put c X empty_world in
  store.basePath (snd (fst out)) = store.basePath c /\
  snapshots (snd out) = snapshots empty_world /\ targets (snd out) = targets empty_world /\
  (forall p, p <> store.objectPath c (digest X) ->
     objects (snd out) !! p = objects empty_world !! p) /\
  (forall h, h <> digest X -> store.refCount (snd (fst out)) !! h = store.refCount c !! h) /\
  (forall e, fst (fst out) = Err e -> snd (fst out) = c).
Proof.
  intros H c X out.
  destruct out as [[r c'] w'] eqn:HP. cbn [fst snd].
  exact (Put_frame (H := H) c X empty_world r c' w' HP).
Defined.

Lemma Delete_frame_witness :
  let H := static_os (Err (ErrIO "")) ∅ in
  let c := store.mkCAS "/r/objects" {[ "ab" := 2 ]} in
  let out := store.Delete c "ab" empty_world in
  fst (fst out) = Ok tt /\ snd out = empty_world /\
  store.refCount (snd (fst out)) !! "ab" = Some 1.
Proof.
  intros H c out.
  destruct out as [[r c'] w'] eqn:HD. cbn [fst snd].
  destruct (Delete_frame (H := H) c "ab" empty_world r c' w' HD) as (_ & _ & _ & Hcount & _).
  exact Hcount.
Defined.

Lemma fresh_instance_deletes_witness :
  let H := static_os (Err (ErrIO "")) ∅ in
  let X := bytes_of_string "abc" in
  let c := store.mkCAS "/r/objects" ∅ in
  let w := with_objects {[ store.objectPath c (digest X) := X ]} empty_world in
  store.refCount c = ∅ /\
  exists w2,
    store.Delete c (digest X) (next w) = (Ok tt, c, w2) /\
    objects w2 = delete (store.objectPath c (digest X)) (objects w) /\
    forall earlier, store.basePath earlier = store.basePath c ->
      store.Get earlier (digest X) w2 = Err (ErrNotFound (digest X)).
Proof.
  intros H X c w.
  apply (fresh_instance_deletes (H := H) "/r" w (next w) c (digest X) X).
  - intros t. split; reflexivity.
  - reflexivity.
  - vm_compute. reflexivity.
Defined.

(** ** More on the scanner *)
Section ScannerMore.
Import models scanner.

Lemma Contains_empty s : strings.Contains s "" = true.
Proof. apply Contains_spec. exists "", s. reflexivity. Qed.

(** The walk of an entry succeeds exactly when it meets no unreadable
    entry; its error is that of an entry it met. *)
Lemma walk_reachesBroken s e : forall path relPath tree,
  (forall err, walk s path relPath e tree = Err err -> reachesBroken s relPath e err) /\
  ((exists err, reachesBroken s relPath e err) ->
   exists err, walk s path relPath e tree = Err err).
Proof.
  induction e as [name mode size mtime | name mode size mtime children IH | name err0]
    using FsEntry_ind'; intros path relPath tree.
  - split.
    + intros err Hw. cbn in Hw. destruct (shouldExclude s relPath name); discriminate.
    + intros [err Hr]. inversion Hr.
  - rewrite List.Forall_forall in IH. split.
    + intros err Hw. cbn in Hw.
      destruct (shouldExclude s relPath name) eqn:Hex; [discriminate|].
      assert (Hloop : forall l t,
        (forall child, In child l -> In child children) ->
        eachChild (walk s) path relPath l t = Err err ->
        exists child, In child children /\
          reachesBroken s (relChild relPath (entryName child)) child err).
      { induction l as [|child rest IHl]; intros t Hsub Hl; cbn [eachChild] in Hl;
          [discriminate|].
        destruct (walk s _ _ child t) as [t1|err1] eqn:Hchild.
        - apply (IHl t1); [|exact Hl]. intros c Hc. apply Hsub. right. exact Hc.
        - injection Hl as ->. exists child. split; [apply Hsub; left; reflexivity|].
          eapply (proj1 (IH child (Hsub child (or_introl eq_refl)) _ _ _)). exact Hchild. }
      destruct (Hloop children _ (fun c Hc => Hc) Hw) as (child & Hin & Hr).
      eapply broken_below; eassumption.
    + intros [err Hr]. inversion Hr as [|? ? ? ? ? ? child ? Hex Hin Hchild]; subst.
      cbn. rewrite Hex.
      assert (Hloop : forall l,
        (forall c, In c l -> In c children) -> In child l ->
        forall t, exists err', eachChild (walk s) path relPath l t = Err err').
      { induction l as [|c rest IHl]; intros Hsub Hl t; [destruct Hl|].
        cbn [eachChild].
        destruct (walk s _ _ c t) as [t1|err1] eqn:Hc; [|eauto].
        destruct Hl as [->|Hl].
        - destruct (proj2 (IH child Hin (filepath.Join [path; entryName child])
                             (relChild relPath (entryName child)) t)) as [err' Herr'];
            [eauto | congruence].
        - apply IHl; [|exact Hl]. intros c' Hc'. apply Hsub. right. exact Hc'. }
      exact (Hloop children (fun c Hc => Hc) Hin _).
  - split.
    + intros err Hw. cbn in Hw. injection Hw as <-. constructor.
    + intros _. exists err0. reflexivity.
Qed.

End ScannerMore.

Section ScanMore.
Context `{OS}.
Import models scanner.

(** X8 (patterns that exclude everything).  The empty pattern occurs in
    every relative path, so a scanner that has it among its exclusions
    excludes every entry.  The walk's root has the relative path ".": with
    the pattern "" or "." among the exclusions the root itself is excluded,
    and a scan of a readable source succeeds with no entry at all. *)
Theorem Scan_excludes_everything (s : Scanner) (sourcePath : string) (w : World)
    (root : FsEntry) :
  (In "" (exclusions s) \/ In "." (exclusions s)) ->
  os_walk (tick w) sourcePath = Ok root ->
  (forall name err, root <> FsBroken name err) ->
  (In "" (exclusions s) -> forall relPath name, shouldExclude s relPath name = true) /\
  Scan s sourcePath w = (Ok (FileTree.mk (rootNode sourcePath root) ∅ 0 0 0), next w).
Proof.
  intros Hpat Hwalk Hroot.
  assert (Hall : In "" (exclusions s) -> forall relPath name,
            shouldExclude s relPath name = true).
  { intros Hin relPath name. apply shouldExclude_hits. exists "". split; [exact Hin|].
    right. right. exists "", relPath. reflexivity. }
  split; [exact Hall|].
  assert (Hdot : forall name, shouldExclude s "." name = true).
  { intros name. destruct Hpat as [Hin|Hin]; [apply Hall, Hin|].
    apply shouldExclude_hits. exists ".". split; [exact Hin|].
    right. right. exists "", "". reflexivity. }
  unfold Scan. rewrite Hwalk.
  destruct root as [name mode size mtime | name mode size mtime children | name err].
  - cbn [walk]. rewrite Hdot. reflexivity.
  - cbn [walk]. rewrite Hdot. reflexivity.
  - exfalso. eapply Hroot. reflexivity.
Qed.

(** X9 (unreadable entries).  [Scan] succeeds exactly when the walk meets
    no unreadable entry: an entry whose [lstat] or directory read fails
    makes the scan fail unless it lies below an excluded directory, and the
    error that [Scan] returns is the error of an unreadable entry that the
    walk met. *)
Theorem Scan_fails_on_unreadable (s : Scanner) (sourcePath : string) (w : World) :
  match os_walk (tick w) sourcePath with
  | Err e => Scan s sourcePath w = (Err e, next w)
  | Ok root =>
      ((exists tree, Scan s sourcePath w = (Ok tree, next w)) <->
       (forall err, ~ reachesBroken s "." root err)) /\
      (forall err, Scan s sourcePath w = (Err err, next w) ->
         reachesBroken s "." root err)
  end.
Proof.
  unfold Scan. destruct (os_walk (tick w) sourcePath) as [root|e]; [|reflexivity].
  set (t0 := FileTree.mk (rootNode sourcePath root) ∅ 0 0 0).
  destruct (walk_reachesBroken s root sourcePath "." t0) as [Hsound Hcomplete].
  assert (Hscan : (match root with
                   | FsBroken _ e => (Err e, next w)
                   | _ => (walk s sourcePath "." root t0, next w)
                   end) = (walk s sourcePath "." root t0, next w)).
  { destruct root; reflexivity. }
  rewrite Hscan. split; [split|].
  - intros [tree Ht] err Hr. destruct Hcomplete as [err' Herr']; [eauto|]. congruence.
  - intros Hnone. destruct (walk s sourcePath "." root t0) as [tree|err] eqn:Hw; [eauto|].
    exfalso. apply (Hnone err), Hsound. reflexivity.
  - intros err Herr. apply Hsound. congruence.
Qed.

End ScanMore.

Lemma Scan_excludes_everything_witness :
  let H := demo_os in
  let s := scanner.New ["."] 4 in
  scanner.Scan s "/d" empty_world
  = (Ok (models.FileTree.mk (scanner.rootNode "/d" demo_root) ∅ 0 0 0), next empty_world).
Proof.
  intros H s.
  apply (Scan_excludes_everything (H := H) s "/d" empty_world demo_root).
  - right. left. reflexivity.
  - reflexivity.
  - intros name err. discriminate.
Defined.

(** ** The differ *)
Section DiffFacts.
Import models diff.

(** What the first loop of [Compare] appends for one entry of the new
    tree. *)
Definition addedOf (oldTree : FileTree.t) (entry : string * FileNode.t) : option FileDiff.t :=
  let '(path, n) := entry in
  if FileNode.IsDir n then None
  else match FileTree.Files oldTree !! path with
       | None => Some (FileDiff.mk path DiffAdded "" (FileNode.Hash n) 0 (FileNode.Size n)
                         [] (FileNode.Chunks n))
       | Some _ => None
       end.

Definition modifiedOf (oldTree : FileTree.t) (entry : string * FileNode.t) : option FileDiff.t :=
  let '(path, n) := entry in
  if FileNode.IsDir n then None
  else match FileTree.Files oldTree !! path with
       | Some o =>
           if decide (FileNode.Hash n <> FileNode.Hash o)
           then Some (FileDiff.mk path DiffModified (FileNode.Hash o) (FileNode.Hash n)
                        (FileNode.Size o) (FileNode.Size n) (FileNode.Chunks o)
                        (FileNode.Chunks n))
           else None
       | None => None
       end.

Definition unchangedOf (oldTree : FileTree.t) (entry : string * FileNode.t) : option FileDiff.t :=
  let '(path, n) := entry in
  if FileNode.IsDir n then None
  else match FileTree.Files oldTree !! path with
       | Some o =>
           if decide (FileNode.Hash n <> FileNode.Hash o) then None
           else Some (FileDiff.mk path DiffUnchanged (FileNode.Hash o) (FileNode.Hash n)
                        0 0 [] [])
       | None => None
       end.

(** What the second loop appends for one entry of the old tree. *)
Definition deletedOf (processed : gmap string bool) (entry : string * FileNode.t)
  : option FileDiff.t :=
  let '(path, o) := entry in
  if FileNode.IsDir o then None
  else if default false (processed !! path) then None
  else Some (FileDiff.mk path DiffDeleted (FileNode.Hash o) "" (FileNode.Size o) 0
               (FileNode.Chunks o) []).

Lemma compareNew_fold oldTree l : forall r0 p0,
  let out := fold_left (compareNew oldTree) l (r0, p0) in
  Added (fst out) = Added r0 ++ omap (addedOf oldTree) l /\
  Modified (fst out) = Modified r0 ++ omap (modifiedOf oldTree) l /\
  Unchanged (fst out) = Unchanged r0 ++ omap (unchangedOf oldTree) l /\
  Deleted (fst out) = Deleted r0 /\
  (forall k, default false (snd out !! k) = true <->
     default false (p0 !! k) = true \/
     exists n, In (k, n) l /\ FileNode.IsDir n = false).
Proof.
  induction l as [|[path n] l IH]; intros r0 p0.
  - cbn. rewrite !app_nil_r. repeat split; try reflexivity; [tauto|].
    intros [Hp|(n & [] & _)]. exact Hp.
  - cbn [fold_left]. cbv zeta in IH |- *.
    set (acc := compareNew oldTree (r0, p0) (path, n)).
    specialize (IH (fst acc) (snd acc)). rewrite <- surjective_pairing in IH.
    destruct IH as (HA & HM & HU & HD & HP).
    rewrite HA, HM, HU, HD. cbn [omap addedOf modifiedOf unchangedOf].
    assert (Hproc : forall k, default false (snd acc !! k) = true <->
              default false (p0 !! k) = true \/ (k = path /\ FileNode.IsDir n = false)).
    { intros k. unfold acc, compareNew. destruct (FileNode.IsDir n) eqn:Hdir.
      - cbn. split; [auto | intros [Hk|[_ Hf]]; [exact Hk | discriminate]].
      - assert (Hins : default false (<[path := true]> p0 !! k) = true <->
                  default false (p0 !! k) = true \/ (k = path /\ false = false)).
        { destruct (decide (k = path)) as [->|Hne].
          - rewrite lookup_insert_eq. cbn. tauto.
          - rewrite lookup_insert_ne by congruence. split; [auto|].
            intros [Hk|[Hk _]]; [exact Hk | contradiction]. }
        destruct (FileTree.Files oldTree !! path) as [o|]; [|exact Hins].
        destruct (decide (FileNode.Hash n <> FileNode.Hash o)); exact Hins. }
    assert (Hlists :
      Added (fst acc) ++ omap (addedOf oldTree) l
        = Added r0 ++ (match addedOf oldTree (path, n) with
                       | Some d => d :: omap (addedOf oldTree) l
                       | None => omap (addedOf oldTree) l end) /\
      Modified (fst acc) ++ omap (modifiedOf oldTree) l
        = Modified r0 ++ (match modifiedOf oldTree (path, n) with
                          | Some d => d :: omap (modifiedOf oldTree) l
                          | None => omap (modifiedOf oldTree) l end) /\
      Unchanged (fst acc) ++ omap (unchangedOf oldTree) l
        = Unchanged r0 ++ (match unchangedOf oldTree (path, n) with
                           | Some d => d :: omap (unchangedOf oldTree) l
                           | None => omap (unchangedOf oldTree) l end) /\
      Deleted (fst acc) = Deleted r0).
    { unfold acc, compareNew, addedOf, modifiedOf, unchangedOf.
      destruct (FileNode.IsDir n); [auto|].
      destruct (FileTree.Files oldTree !! path) as [o|].
      - destruct (decide (FileNode.Hash n <> FileNode.Hash o)); cbn;
          rewrite <- ?app_assoc; auto.
      - cbn. rewrite <- ?app_assoc. auto. }
    destruct Hlists as (-> & -> & -> & ->).
    repeat split; try reflexivity.
    + intros Hk. apply HP in Hk as [Hk|(n' & Hin & Hf)].
      * apply Hproc in Hk as [Hk|[-> Hf]]; [auto|]. right. exists n. split; [left|]; auto.
      * right. exists n'. split; [right|]; auto.
    + intros [Hk|(n' & [Heq|Hin] & Hf)]; apply HP.
      * left. apply Hproc. auto.
      * injection Heq as <- <-. left. apply Hproc. auto.
      * right. eauto.
Qed.

Lemma compareOld_fold processed l : forall r0,
  let out := fold_left (compareOld processed) l r0 in
  Added out = Added r0 /\ Modified out = Modified r0 /\ Unchanged out = Unchanged r0 /\
  Deleted out = Deleted r0 ++ omap (deletedOf processed) l.
Proof.
  induction l as [|[path o] l IH]; intros r0.
  - cbn. rewrite app_nil_r. auto.
  - cbn [fold_left]. cbv zeta in IH |- *.
    destruct (IH (compareOld processed r0 (path, o))) as (HA & HM & HU & HD).
    rewrite HA, HM, HU, HD. clear HA HM HU HD.
    change (omap (deletedOf processed) ((path, o) :: l))
      with (match deletedOf processed (path, o) with
            | Some d => d :: omap (deletedOf processed) l
            | None => omap (deletedOf processed) l
            end).
    unfold compareOld, deletedOf.
    destruct (FileNode.IsDir o); [repeat split; reflexivity|].
    destruct (default false (processed !! path)); [repeat split; reflexivity|].
    cbn [Added Modified Unchanged Deleted]. rewrite <- app_assoc. repeat split; reflexivity.
Qed.

(** [Compare] in closed form. *)
Lemma Compare_lists oldTree newTree :
  exists processed,
    Added (Compare oldTree newTree)
      = omap (addedOf oldTree) (map_to_list (FileTree.Files newTree)) /\
    Modified (Compare oldTree newTree)
      = omap (modifiedOf oldTree) (map_to_list (FileTree.Files newTree)) /\
    Unchanged (Compare oldTree newTree)
      = omap (unchangedOf oldTree) (map_to_list (FileTree.Files newTree)) /\
    Deleted (Compare oldTree newTree)
      = omap (deletedOf processed) (map_to_list (FileTree.Files oldTree)) /\
    (forall k, default false (processed !! k) = true <->
       exists n, FileTree.Files newTree !! k = Some n /\ FileNode.IsDir n = false).
Proof.
  unfold Compare.
  pose proof (compareNew_fold oldTree (map_to_list (FileTree.Files newTree))
                (mkDiffResult [] [] [] [] 0 0 0) ∅) as Hnew.
  cbv zeta in Hnew.
  destruct (fold_left (compareNew oldTree) _ _) as [result processed].
  cbn [fst snd Added Modified Unchanged Deleted] in Hnew.
  destruct Hnew as (HA & HM & HU & HD & HP).
  pose proof (compareOld_fold processed (map_to_list (FileTree.Files oldTree)) result) as Hold.
  cbv zeta in Hold. destruct Hold as (-> & -> & -> & ->).
  exists processed. rewrite HA, HM, HU, HD. cbn [app].
  repeat split; try reflexivity.
  - intros Hk. apply HP in Hk as [Hk|(n & Hin & Hf)].
    + rewrite lookup_empty in Hk. discriminate.
    + exists n. split; [|exact Hf]. apply elem_of_map_to_list, list_elem_of_In. exact Hin.
  - intros (n & Hn & Hf). apply HP. right. exists n. split; [|exact Hf].
    apply list_elem_of_In, elem_of_map_to_list. exact Hn.
Qed.

Lemma In_omap {A B} (f : A -> option B) l y :
  In y (omap f l) <-> exists x, In x l /\ f x = Some y.
Proof.
  rewrite <- list_elem_of_In, list_elem_of_omap.
  split; intros (x & Hx & Hf); exists x; (split; [|exact Hf]); apply list_elem_of_In; exact Hx.
Qed.

Lemma In_map_to_list {V} (m : gmap string V) k v :
  In (k, v) (map_to_list m) <-> m !! k = Some v.
Proof. rewrite <- list_elem_of_In. apply elem_of_map_to_list. Qed.

(** X10 (classification of files).  [Compare] lists a regular file of the
    new tree as added when the old tree has no entry at its path, as
    modified when the old tree has an entry (of whatever kind) whose hash
    differs, and as unchanged when that entry's hash is the same; it lists a
    regular file of the old tree as deleted when the new tree has no regular
    file at its path.  The lists hold nothing else, and each record carries
    the hashes, sizes and chunk lists of the nodes it was made from. *)
Theorem Compare_classifies (oldTree newTree : FileTree.t) (d : FileDiff.t) :
  (In d (Added (Compare oldTree newTree)) <->
   exists path n,
     FileTree.Files newTree !! path = Some n /\ FileNode.IsDir n = false /\
     FileTree.Files oldTree !! path = None /\
     d = FileDiff.mk path DiffAdded "" (FileNode.Hash n) 0 (FileNode.Size n)
           [] (FileNode.Chunks n)) /\
  (In d (Modified (Compare oldTree newTree)) <->
   exists path n o,
     FileTree.Files newTree !! path = Some n /\ FileNode.IsDir n = false /\
     FileTree.Files oldTree !! path = Some o /\ FileNode.Hash n <> FileNode.Hash o /\
     d = FileDiff.mk path DiffModified (FileNode.Hash o) (FileNode.Hash n)
           (FileNode.Size o) (FileNode.Size n) (FileNode.Chunks o) (FileNode.Chunks n)) /\
  (In d (Unchanged (Compare oldTree newTree)) <->
   exists path n o,
     FileTree.Files newTree !! path = Some n /\ FileNode.IsDir n = false /\
     FileTree.Files oldTree !! path = Some o /\ FileNode.Hash n = FileNode.Hash o /\
     d = FileDiff.mk path DiffUnchanged (FileNode.Hash o) (FileNode.Hash n) 0 0 [] []) /\
  (In d (Deleted (Compare oldTree newTree)) <->
   exists path o,
     FileTree.Files oldTree !! path = Some o /\ FileNode.IsDir o = false /\
     (forall n, FileTree.Files newTree !! path = Some n -> FileNode.IsDir n = true) /\
     d = FileDiff.mk path DiffDeleted (FileNode.Hash o) "" (FileNode.Size o) 0
           (FileNode.Chunks o) []).
Proof.
  destruct (Compare_lists oldTree newTree) as (processed & -> & -> & -> & -> & HP).
  rewrite !In_omap. split; [|split; [|split]].
  - split.
    + intros ([path n] & Hin & Hf). apply In_map_to_list in Hin. unfold addedOf in Hf.
      destruct (FileNode.IsDir n) eqn:Hdir; [discriminate|].
      destruct (FileTree.Files oldTree !! path) eqn:Hold; [discriminate|].
      injection Hf as <-. exists path, n. auto.
    + intros (path & n & Hn & Hdir & Hold & ->). exists (path, n).
      split; [apply In_map_to_list; exact Hn|]. unfold addedOf. rewrite Hdir, Hold. reflexivity.
  - split.
    + intros ([path n] & Hin & Hf). apply In_map_to_list in Hin. unfold modifiedOf in Hf.
      destruct (FileNode.IsDir n) eqn:Hdir; [discriminate|].
      destruct (FileTree.Files oldTree !! path) as [o|] eqn:Hold; [|discriminate].
      destruct (decide (FileNode.Hash n <> FileNode.Hash o)); [|discriminate].
      injection Hf as <-. exists path, n, o. auto.
    + intros (path & n & o & Hn & Hdir & Hold & Hne & ->). exists (path, n).
      split; [apply In_map_to_list; exact Hn|]. unfold modifiedOf. rewrite Hdir, Hold.
      destruct (decide (FileNode.Hash n <> FileNode.Hash o)); [reflexivity | contradiction].
  - split.
    + intros ([path n] & Hin & Hf). apply In_map_to_list in Hin. unfold unchangedOf in Hf.
      destruct (FileNode.IsDir n) eqn:Hdir; [discriminate|].
      destruct (FileTree.Files oldTree !! path) as [o|] eqn:Hold; [|discriminate].
      destruct (decide (FileNode.Hash n <> FileNode.Hash o)) as [|Heq]; [discriminate|].
      injection Hf as <-. exists path, n, o. repeat split; auto.
      destruct (decide (FileNode.Hash n = FileNode.Hash o)); [assumption | contradiction].
    + intros (path & n & o & Hn & Hdir & Hold & Heq & ->). exists (path, n).
      split; [apply In_map_to_list; exact Hn|]. unfold unchangedOf. rewrite Hdir, Hold.
      destruct (decide (FileNode.Hash n <> FileNode.Hash o)); [contradiction | reflexivity].
  - split.
    + intros ([path o] & Hin & Hf). apply In_map_to_list in Hin. unfold deletedOf in Hf.
      destruct (FileNode.IsDir o) eqn:Hdir; [discriminate|].
      destruct (default false (processed !! path)) eqn:Hproc; [discriminate|].
      injection Hf as <-. exists path, o. repeat split; auto.
      intros n Hn. destruct (FileNode.IsDir n) eqn:Hndir; [reflexivity|].
      assert (Ht : default false (processed !! path) = true) by (apply HP; eauto).
      congruence.
    + intros (path & o & Ho & Hdir & Hnew & ->). exists (path, o).
      split; [apply In_map_to_list; exact Ho|]. unfold deletedOf. rewrite Hdir.
      destruct (default false (processed !! path)) eqn:Hproc; [|reflexivity].
      apply HP in Hproc as (n & Hn & Hf). rewrite (Hnew n Hn) in Hf. discriminate.
Qed.

Lemma omap_none {A B} (f : A -> option B) l :
  (forall x, In x l -> f x = None) -> omap f l = [].
Proof.
  induction l as [|x l IH]; intros Hall; [reflexivity|].
  cbn. rewrite (Hall x (or_introl eq_refl)). apply IH. intros y Hy. apply Hall. right. exact Hy.
Qed.

(** X11 (a tree against itself).  Comparing a tree with itself reports no
    file as added, modified or deleted. *)
Theorem Compare_same_tree (tree : FileTree.t) :
  Added (Compare tree tree) = [] /\
  Modified (Compare tree tree) = [] /\
  Deleted (Compare tree tree) = [] /\
  AllChangedFiles (Compare tree tree) = [].
Proof.
  destruct (Compare_lists tree tree) as (processed & HA & HM & _ & HD & HP).
  assert (HA' : Added (Compare tree tree) = []).
  { rewrite HA. apply omap_none. intros [path n] Hin. apply In_map_to_list in Hin.
    unfold addedOf. rewrite Hin. destruct (FileNode.IsDir n); reflexivity. }
  assert (HM' : Modified (Compare tree tree) = []).
  { rewrite HM. apply omap_none. intros [path n] Hin. apply In_map_to_list in Hin.
    unfold modifiedOf. rewrite Hin. destruct (FileNode.IsDir n); [reflexivity|].
    destruct (decide (FileNode.Hash n <> FileNode.Hash n)); [contradiction | reflexivity]. }
  split; [exact HA'|]. split; [exact HM'|]. split.
  - rewrite HD. apply omap_none. intros [path o] Hin. apply In_map_to_list in Hin.
    unfold deletedOf. destruct (FileNode.IsDir o) eqn:Hdir; [reflexivity|].
    assert (Ht : default false (processed !! path) = true) by (apply HP; eauto).
    rewrite Ht. reflexivity.
  - unfold AllChangedFiles. rewrite HA', HM'. reflexivity.
Qed.

End DiffFacts.


(** ** More on strings *)

Lemma length_append a b : String.length (a +:+ b) = (String.length a + String.length b)%nat.
Proof. induction a as [|c a IH]; [reflexivity|]. rewrite append_cons. cbn. lia. Qed.

Lemma append_inj_r a : forall b s, a +:+ s = b +:+ s -> a = b.
Proof.
  induction a as [|c a IH]; intros [|d b] s Heq.
  - reflexivity.
  - apply (f_equal String.length) in Heq. rewrite !length_append in Heq. cbn in Heq. lia.
  - apply (f_equal String.length) in Heq. rewrite !length_append in Heq. cbn in Heq. lia.
  - rewrite !append_cons in Heq. injection Heq as -> Heq. f_equal. eapply IH. exact Heq.
Qed.

Lemma HasSuffix_spec suffix : forall s,
  strings.HasSuffix s suffix = true <-> exists pre, s = pre +:+ suffix.
Proof.
  induction s as [|c s IH]; cbn [strings.HasSuffix].
  - destruct (decide ("" = suffix)) as [<-|Hne].
    + split; [intros _; exists ""; reflexivity | reflexivity].
    + split; [discriminate|]. intros [[|d pre] Hpre]; [contradiction|].
      rewrite append_cons in Hpre. discriminate.
  - destruct (decide (String c s = suffix)) as [<-|Hne].
    + split; [intros _; exists ""; reflexivity | reflexivity].
    + rewrite IH. split.
      * intros [pre ->]. exists (String c pre). reflexivity.
      * intros [[|d pre] Hpre]; [contradiction|].
        rewrite append_cons in Hpre. injection Hpre as -> ->. exists pre. reflexivity.
Qed.

Lemma substring_append pre : forall s, substring 0 (String.length pre) (pre +:+ s) = pre.
Proof.
  induction pre as [|c pre IH]; intros s.
  - cbn. destruct s; reflexivity.
  - rewrite append_cons. cbn. rewrite IH. reflexivity.
Qed.

(** ** More on the snapshot manager *)
Section ManagerMore.
Context `{OS} `{RollingHash} `{Zstd} `{AEAD}.
Import models snapshot.

(** What a successful [create] did: it grew the repository, then saved the
    record it returns. *)
Lemma create_inv m sourcePath description parentID s snap s' :
  create m sourcePath description parentID s = (Ok snap, s') ->
  exists s1 t,
    growsSt s s1 /\
    inWorld (saveSnapshot m snap) s1 = (Ok tt, s') /\
    Snapshot.ID snap = pretty (os_now t) /\
    Snapshot.Parent snap = parentID /\ Snapshot.Description snap = description /\
    Snapshot.Compressed snap = bool_decide (is_Some (compressor m)) /\
    Snapshot.Encrypted snap = bool_decide (is_Some (encryptor m)).
Proof.
  intros Hc. unfold create in Hc.
  apply bind_inv in Hc as [(e & _ & [=])|(prep & s5 & E0 & Hc)].
  unfold prepare in E0.
  apply bind_inv in E0 as [(e & _ & [=])|(startTime & s1 & E1 & E0)].
  apply bind_inv in E0 as [(e & _ & [=])|(tree & s2 & E2 & E0)].
  apply bind_inv in E0 as [(e & _ & [=])|(parentTree & s3 & E3 & E0)].
  apply bind_inv in E0 as [(e & _ & [=])|(id & s4 & E4 & E0)].
  apply bind_inv in E0 as [(e & _ & [=])|(timestamp & s5' & E5 & E0)].
  injection E0 as <- <-.
  cbn [prepStart prepTree prepDiff prepID prepTimestamp prepFiles] in Hc.
  apply bind_inv in Hc as [(e & _ & [=])|(p & s6 & E6 & Hc)].
  apply bind_inv in Hc as [(e & _ & [=])|(finish & s7 & E7 & Hc)].
  apply bind_inv in Hc as [(e & _ & [=])|(u & s8 & E8 & Hc)].
  injection Hc as <- <-.
  assert (G1 : growsSt s s1) by (eapply (inWorld_grows _ now_grows); exact E1).
  assert (G2 : growsSt s1 s2).
  { eapply (keeps_wrapping growsSt); [|exact E2]. apply inWorld_grows, ScanWithHashes_grows. }
  assert (G3 : growsSt s2 s3) by (injection E3 as _ <-; reflexivity).
  assert (G4 : growsSt s3 s4) by (eapply (inWorld_grows _ generateID_grows); exact E4).
  assert (G5 : growsSt s4 s5') by (eapply (inWorld_grows _ now_grows); exact E5).
  assert (G6 : growsSt s5' s6).
  { eapply (keeps_forM growsSt); [|exact E6]. intros acc entry. apply processFile_grows. }
  assert (G7 : growsSt s6 s7) by (eapply (inWorld_grows _ now_grows); exact E7).
  assert (Hid : exists t, id = pretty (os_now t)).
  { unfold inWorld, generateID, bind, now, ret in E4. cbn in E4. injection E4 as <- _. eauto. }
  destruct Hid as [t Hid].
  exists s7, t. split.
  { transitivity s1; [exact G1|]. transitivity s2; [exact G2|]. transitivity s3; [exact G3|].
    transitivity s4; [exact G4|]. transitivity s5'; [exact G5|]. transitivity s6; [exact G6|].
    exact G7. }
  split.
  { unfold wrapping in E8.
    match type of E8 with (match ?x with _ => _ end) = _ => destruct x as [[[]|e] s9] eqn:Hs end;
      [|discriminate].
    injection E8 as <- <-. reflexivity. }
  cbn. repeat split; try reflexivity. exact Hid.
Qed.

(** X12 (a successful backup is on record).  When [Create] succeeds, the
    snapshot directory has gained exactly the file <ID>.json holding the
    returned record (replacing a file of that name, if there was one), [Get]
    of the returned ID reads that record back, and every object file that
    was in the store is still there unchanged.  The ID is the clock's
    nanosecond count in decimal; the record names the parent and the
    description it was given, and says whether a compressor and an
    encryptor were set. *)
Theorem Create_success_is_recorded
    (m : Manager) (sourcePath description parentID : string) (w : World)
    (snap : Snapshot.t) (m' : Manager) (w' : World) :
  Create m sourcePath description parentID w = (Ok snap, m', w') ->
  snapshots w' = <[Snapshot.ID snap +:+ ".json" := Some snap]> (snapshots w) /\
  Get m' (Snapshot.ID snap) w' = Ok snap /\
  objects w ⊆ objects w' /\
  (exists t, Snapshot.ID snap = pretty (os_now t)) /\
  Snapshot.Parent snap = parentID /\ Snapshot.Description snap = description /\
  Snapshot.Compressed snap = bool_decide (is_Some (compressor m)) /\
  Snapshot.Encrypted snap = bool_decide (is_Some (encryptor m)).
Proof.
  intros HC. unfold Create in HC.
  destruct (create m sourcePath description parentID (cas m, w)) as [r [c1 w1]] eqn:Hc.
  injection HC as -> <- <-. cbn [fst snd].
  destruct (create_inv _ _ _ _ _ _ _ Hc) as ([c0 w0] & t & [Hsnap Hobj] & Hsave & Hid & Hrest).
  cbn [fst snd] in Hsnap, Hobj.
  unfold inWorld, saveSnapshot in Hsave. cbn [fst snd] in Hsave.
  destruct (os_call (tick w0)); [discriminate|]. cbn in Hsave.
  destruct (os_write (S (tick w0))) as [|e [n|]]; try discriminate.
  injection Hsave as <- <-. cbn [snapshots objects with_snapshots next with_tick].
  split; [rewrite Hsnap; reflexivity|]. split.
  { unfold Get. cbn. rewrite lookup_insert_eq. reflexivity. }
  split; [exact Hobj|]. split; [eauto | exact Hrest].
Qed.

Lemma insertNewest_In s x l : In s (insertNewest x l) <-> s = x \/ In s l.
Proof.
  induction l as [|y l IH]; cbn [insertNewest].
  - cbn. intuition.
  - destruct (Snapshot.Timestamp y <? Snapshot.Timestamp x); cbn [In].
    + intuition.
    + rewrite IH. intuition.
Qed.

(** Newest first: every element is at least as new as those after it. *)
Fixpoint newestFirst (l : list Snapshot.t) : Prop :=
  match l with
  | [] => True
  | x :: rest =>
      (forall y, In y rest -> Snapshot.Timestamp y <= Snapshot.Timestamp x) /\ newestFirst rest
  end.

Lemma insertNewest_newestFirst x l : newestFirst l -> newestFirst (insertNewest x l).
Proof.
  induction l as [|y l IH]; intros Hl; cbn [insertNewest].
  - cbn. intuition.
  - destruct Hl as [Hy Hl].
    destruct (Z.ltb_spec (Snapshot.Timestamp y) (Snapshot.Timestamp x)) as [Hlt|Hge].
    + cbn [newestFirst]. split; [|split; assumption].
      intros z [<-|Hz]; [lia|]. specialize (Hy z Hz). lia.
    + cbn [newestFirst]. split; [|apply IH, Hl].
      intros z Hz. apply insertNewest_In in Hz as [->|Hz]; [lia | apply Hy, Hz].
Qed.

Lemma newestFirst_app l1 : forall l2,
  newestFirst (l1 ++ l2) -> newestFirst l2.
Proof. induction l1 as [|x l1 IH]; intros l2 Hl; [exact Hl|]. apply IH, Hl. Qed.

Lemma List_entries m w :
  newestFirst (List m w) /\
  forall s, In s (List m w) <->
    exists id, snapshots w !! (id +:+ ".json") = Some (Some s).
Proof.
  unfold List.
  assert (Hfold : forall l,
    newestFirst (fold_right
      (fun (entry : string * option Snapshot.t) acc =>
         let name := fst entry in
         if strings.HasSuffix name ".json" then
           let id := substring 0 (String.length name - 5) name in
           match Get m id w with
           | Ok snap => insertNewest snap acc
           | Err _ => acc
           end
         else acc) [] l) /\
    forall s, In s (fold_right
      (fun (entry : string * option Snapshot.t) acc =>
         let name := fst entry in
         if strings.HasSuffix name ".json" then
           let id := substring 0 (String.length name - 5) name in
           match Get m id w with
           | Ok snap => insertNewest snap acc
           | Err _ => acc
           end
         else acc) [] l) <->
      exists name id, In name (map fst l) /\ name = id +:+ ".json" /\
        snapshots w !! name = Some (Some s)).
  { induction l as [|[name v] l [IHs IHi]]; cbn [fold_right map fst].
    - split; [exact I|]. intros s. split; [intros [] | intros (? & ? & [] & _)].
    - cbv zeta.
      destruct (strings.HasSuffix name ".json") eqn:Hsuf.
      + apply HasSuffix_spec in Hsuf as [id ->].
        rewrite length_append. cbn [String.length].
        replace (String.length id + 5 - 5)%nat with (String.length id) by lia.
        rewrite substring_append.
        destruct (Get m id w) as [snap|e] eqn:HG.
        * assert (Hlook : snapshots w !! (id +:+ ".json") = Some (Some snap)).
          { unfold Get in HG.
            destruct (snapshots w !! (id +:+ ".json")) as [[x|]|]; [|discriminate..].
            congruence. }
          split; [apply insertNewest_newestFirst, IHs|].
          intros s. rewrite insertNewest_In, IHi. split.
          -- intros [->|(name & id' & Hin & Hname & Hs)].
             ++ exists (id +:+ ".json"), id. cbn. auto.
             ++ exists name, id'. cbn. auto.
          -- intros (name & id' & [<-|Hin] & Hname & Hs).
             ++ left. congruence.
             ++ right. eauto.
        * assert (Hlook : forall s, snapshots w !! (id +:+ ".json") <> Some (Some s)).
          { intros s Hs. unfold Get in HG. rewrite Hs in HG. discriminate. }
          split; [exact IHs|]. intros s. rewrite IHi. split.
          -- intros (name & id' & Hin & Hname & Hs). exists name, id'. cbn. auto.
          -- intros (name & id' & [<-|Hin] & Hname & Hs); [|eauto].
             exfalso. apply (Hlook s). exact Hs.
      + split; [exact IHs|]. intros s. rewrite IHi. split.
        * intros (name' & id' & Hin & Hname & Hs). exists name', id'. cbn. auto.
        * intros (name' & id' & [<-|Hin] & Hname & Hs); [|eauto].
          assert (Ht : strings.HasSuffix name ".json" = true)
            by (apply HasSuffix_spec; eauto).
          congruence. }
  destruct (Hfold (map_to_list (snapshots w))) as [Hs Hi]. split; [exact Hs|].
  intros s. rewrite Hi. split.
  - intros (name & id & _ & -> & Hs'). eauto.
  - intros (id & Hid). exists (id +:+ ".json"), id. split; [|auto].
    apply in_map_iff. exists (id +:+ ".json", Some s). split; [reflexivity|].
    apply list_elem_of_In, elem_of_map_to_list. exact Hid.
Qed.

(** X13 (listing).  [List] returns exactly the records that the snapshot
    directory holds in well-formed files named <id>.json, whatever else is
    in the directory, ordered newest first; [Latest] returns nothing when
    there is no such record, and otherwise a listed record that no listed
    record is newer than. *)
Theorem List_newest_first (m : Manager) (w : World) :
  (forall s, In s (List m w) <->
     exists id, snapshots w !! (id +:+ ".json") = Some (Some s)) /\
  (forall pre a mid b post, List m w = pre ++ a :: mid ++ b :: post ->
     Snapshot.Timestamp b <= Snapshot.Timestamp a) /\
  match Latest m w with
  | None => forall id s, snapshots w !! (id +:+ ".json") <> Some (Some s)
  | Some s =>
      In s (List m w) /\
      forall s', In s' (List m w) -> Snapshot.Timestamp s' <= Snapshot.Timestamp s
  end.
Proof.
  destruct (List_entries m w) as [Hsorted Hin]. split; [exact Hin|]. split.
  - intros pre a mid b post Heq. rewrite Heq in Hsorted.
    apply newestFirst_app in Hsorted. destruct Hsorted as [Ha _].
    apply Ha. apply in_or_app. right. left. reflexivity.
  - unfold Latest. destruct (List m w) as [|s l] eqn:HL; cbn [head].
    + intros id s Hs. apply (proj2 (Hin s)). eauto.
    + split; [left; reflexivity|]. intros s' [<-|Hs']; [lia|].
      destruct Hsorted as [Hs _]. apply Hs, Hs'.
Qed.

(** X14 (deleting a snapshot).  For an ID that is a plain name, without
    a path separator, so that <ID>.json names a file of the snapshot
    directory: [Manager.Delete] removes at most the record file of the
    snapshot it names: no object file is removed, so the chunks of a
    deleted snapshot stay in the store, and the record of every other
    plain ID reads as before.  After a successful delete, [Get] of the ID
    and a second [Delete] both fail with the does-not-exist error; a
    failed delete changes no file. *)
Theorem Delete_removes_the_record_only (m : Manager) (id : string) (w : World)
    (r : Result unit) (w' : World) :
  strings.Contains id "/" = false ->
  Delete m id w = (r, w') ->
  objects w' = objects w /\ targets w' = targets w /\
  (forall id', strings.Contains id' "/" = false -> id' <> id ->
     Get m id' w' = Get m id' w) /\
  match r with
  | Ok _ =>
      Get m id w' = Err (ErrNotExist (filepath.Join [repoPath m; "snapshots"; id +:+ ".json"])) /\
      Delete m id w' = (Err (ErrNotExist (filepath.Join [repoPath m; "snapshots"; id +:+ ".json"])), w')
  | Err _ => snapshots w' = snapshots w
  end.
Proof.
  intros _ HD. unfold Delete in HD.
  destruct (snapshots w !! (id +:+ ".json")) as [x|] eqn:Hlook.
  - destruct (os_call (tick w)); injection HD as <- <-; cbn.
    + repeat split; reflexivity.
    + split; [reflexivity|]. split; [reflexivity|]. split.
      * intros id' _ Hne. unfold Get. cbn.
        rewrite lookup_delete_ne; [reflexivity|]. intros Heq. apply Hne.
        symmetry. eapply append_inj_r. exact Heq.
      * unfold Get, Delete. cbn. rewrite lookup_delete_eq. auto.
  - injection HD as <- <-. repeat split; reflexivity.
Qed.

(** X15 (a chunk the store already has).  When an object file is named by
    the chunk's digest, a successful [storeChunk] writes no object file and
    leaves the reference counts as they are; the chunk's digest is appended
    to the file's chunk list and counted as a chunk, but not as a new chunk
    and not in the stored size.  With neither compressor nor encryptor the
    step cannot fail and changes nothing at all. *)
Theorem storeChunk_known_chunk (m : Manager) (hs : list string) (p : Progress)
    (ch : Chunk.t) (s : St) :
  store.Has (fst s) (Chunk.Hash ch) (snd s) = true ->
  let r := (hs ++ [Chunk.Hash ch],
            mkProgress (tree p) (newChunks p) (wrap64 (totalChunks p + 1)) (storedSize p)) in
  (forall r' s', storeChunk m (hs, p) ch s = (Ok r', s') ->
     r' = r /\ fst s' = fst s /\ objects (snd s') = objects (snd s)) /\
  (compressor m = None -> encryptor m = None -> storeChunk m (hs, p) ch s = (Ok r, s)).
Proof.
  intros HHas r. split.
  - intros r' s' Hs. unfold storeChunk in Hs.
    apply bind_inv in Hs as [(e & _ & [=])|(d1 & s1 & Hc & Hs)].
    assert (Hs1 : s1 = s).
    { destruct (compressor m) as [c|].
      - unfold wrapping, lift in Hc. destruct (compress.Compress c (Chunk.Data ch));
          [injection Hc as _ <-; reflexivity | discriminate].
      - injection Hc as _ <-. reflexivity. }
    subst s1. clear Hc.
    apply bind_inv in Hs as [(e & _ & [=])|(d2 & s2 & He & Hs)].
    assert (Hs2 : fst s2 = fst s /\ objects (snd s2) = objects (snd s)).
    { destruct (encryptor m) as [e|].
      - unfold wrapping, inWorld in He.
        destruct (crypto.Encrypt e d1 (snd s)) as [[x|err] w2] eqn:Hb; [|discriminate].
        injection He as _ <-. cbn. split; [reflexivity|].
        destruct (Encrypt_grows e d1 _ _ _ Hb) as [_ Hsub].
        unfold crypto.Encrypt in Hb.
        apply bind_inv in Hb as [(err & _ & [=])|(nonce & w3 & Hn & Hret)].
        injection Hret as _ <-. unfold wrapping in Hn.
        destruct (crypto.readNonce (snd s)) as [[n|err] w4] eqn:Hrn; [|discriminate].
        injection Hn as _ <-. apply readNonce_length in Hrn as [_ ->]. reflexivity.
      - injection He as _ <-. auto. }
    destruct Hs2 as [Hc2 Ho2].
    apply bind_inv in Hs as [(e & _ & [=])|(has & s3 & Hh & Hs)].
    injection Hh as <- <-.
    assert (HHas2 : store.Has (fst s2) (Chunk.Hash ch) (snd s2) = true).
    { apply Has_true. rewrite Hc2, Ho2. apply Has_true. exact HHas. }
    rewrite HHas2 in Hs. cbn in Hs. injection Hs as <- <-. auto.
  - intros Hc He. unfold storeChunk. rewrite Hc, He.
    unfold bind, ret, casHas. rewrite HHas. reflexivity.
Qed.

End ManagerMore.


(** ** More on restore *)

(** [changes I]: a step that keeps the property [I] of the state. *)
Definition changes {S} (I : S -> Prop) (s s' : S) : Prop := I s -> I s'.

#[local] Instance changes_preorder {S} (I : S -> Prop) : PreOrder (changes I).
Proof. split; [intros s Hs; exact Hs | intros s1 s2 s3 H12 H23 Hs; auto]. Qed.

Lemma bind_ok {S A B} (m : M S A) (k : A -> M S B) s a s1 :
  m s = (Ok a, s1) -> bind m k s = k a s1.
Proof. intros Hm. unfold bind. rewrite Hm. reflexivity. Qed.

Lemma bind_err {S A B} (m : M S A) (k : A -> M S B) s e s1 :
  m s = (Err e, s1) -> bind m k s = (Err e, s1).
Proof. intros Hm. unfold bind. rewrite Hm. reflexivity. Qed.

Section RestoreMore.
Context `{OS} `{Zstd} `{AEAD}.
Import models restore.

Lemma Get_objects c h w1 w2 :
  objects w1 = objects w2 -> store.Get c h w1 = store.Get c h w2.
Proof. intros Ho. unfold store.Get. rewrite Ho. reflexivity. Qed.


Lemma wouldRestore_targets opts w1 w2 entry :
  targets w1 = targets w2 -> wouldRestore opts w1 entry = wouldRestore opts w2 entry.
Proof. intros Ht. unfold wouldRestore. rewrite Ht. reflexivity. Qed.



(** One iteration of the loop of [Restore] when existing files are not
    overwritten: a file that is there stays as it is. *)
Lemma restoreEntry_keeps_existing r opts result entry (Keep : string -> TargetFile -> Prop) :
  RestoreOptions.Overwrite opts = false ->
  keeps (changes (fun w => forall q f, Keep q f -> targets w !! q = Some f))
    (restoreEntry r opts result entry).
Proof.
  intros Hover w x w' Hr Hinv. destruct entry as [relPath node]. unfold restoreEntry in Hr.
  destruct (FileNode.IsDir node); [injection Hr as <- <-; exact Hinv|].
  destruct (shouldRestore relPath _ _); cbn [negb] in Hr; [|injection Hr as <- <-; exact Hinv].
  rewrite Hover in Hr. cbn [negb andb] in Hr.
  destruct (bool_decide _) eqn:Hthere; [injection Hr as <- <-; exact Hinv|].
  apply bool_decide_eq_false in Hthere.
  set (p := filepath.Join [RestoreOptions.TargetPath opts; relPath]) in *.
  assert (Ht : touches (fun q => q = p) w w').
  { destruct (restoreFile r node p opts w) as [[u|e] w1] eqn:Hrf; injection Hr as <- <-;
      eapply (restoreFile_touches (fun q => q = p)); try exact Hrf; reflexivity. }
  destruct Ht as (_ & _ & Ht). intros q f Hq.
  destruct (decide (q = p)) as [->|Hne].
  - exfalso. apply Hthere. rewrite (Hinv _ _ Hq). eauto.
  - rewrite (Ht q Hne). apply Hinv, Hq.
Qed.

(** X17 (existing files).  Without [Overwrite], [Restore] changes no file
    that was in the target directory before it ran: whatever it restores
    and whether or not it fails, such a file has the bytes, the mode and the
    modification time it had. *)
Theorem Restore_keeps_existing (r : Restorer) (snapshot : Snapshot.t)
    (opts : RestoreOptions.t) (w : World) (res : Result RestoreResult) (w' : World) :
  RestoreOptions.Overwrite opts = false ->
  Restore r snapshot opts w = (res, w') ->
  forall q f, targets w !! q = Some f -> targets w' !! q = Some f.
Proof.
  intros Hover HR.
  assert (Hk : keeps (changes (fun w0 => forall q f,
                 targets w !! q = Some f -> targets w0 !! q = Some f))
                 (Restore r snapshot opts)).
  { unfold Restore. apply keeps_bind; [apply _ | |].
    - apply keeps_wrapping. intros w0 x w1 Hc Hinv. unfold osCall in Hc.
      destruct (os_call (tick w0)); injection Hc as <- <-; exact Hinv.
    - intros _. apply keeps_forM; [apply _|]. intros acc entry.
      apply (restoreEntry_keeps_existing r opts acc entry
               (fun q f => targets w !! q = Some f) Hover). }
  apply (Hk w res w' HR). auto.
Qed.

(** The errors collected are never dropped. *)
Definition errorsGrow (result result' : RestoreResult) : Prop :=
  exists more, Errors result' = Errors result ++ more.

#[local] Instance errorsGrow_preorder : PreOrder errorsGrow.
Proof.
  split.
  - intros x. exists []. rewrite app_nil_r. reflexivity.
  - intros x y z [m1 E1] [m2 E2]. exists (m1 ++ m2). rewrite E2, E1, app_assoc. reflexivity.
Qed.

Lemma restoreEntry_errorsGrow r opts result entry w result' w' :
  restoreEntry r opts result entry w = (Ok result', w') -> errorsGrow result result'.
Proof.
  destruct entry as [relPath node]. unfold restoreEntry.
  destruct (FileNode.IsDir node); [intros [= <- _]; reflexivity|].
  destruct (negb (shouldRestore relPath _ _)); [intros [= <- _]; reflexivity|].
  destruct (negb (RestoreOptions.Overwrite opts) && _); [intros [= <- _]; reflexivity|].
  destruct (restoreFile r node _ opts w) as [[u|e] w1]; intros [= <- _].
  - exists []. cbn. rewrite app_nil_r. reflexivity.
  - exists [(relPath, e)]. reflexivity.
Qed.

(** The loop of [Restore] never fails; the errors it collects are those of
    regular files that pass the filters. *)
Lemma forM_restoreEntry_total r opts l : forall result w,
  exists result' w',
    forM (restoreEntry r opts) l result w = (Ok result', w') /\
    forall path e, In (path, e) (Errors result') ->
      In (path, e) (Errors result) \/
      exists node, In (path, node) l /\ FileNode.IsDir node = false /\
        shouldRestore path (RestoreOptions.IncludePattern opts)
          (RestoreOptions.ExcludePattern opts) = true.
Proof.
  induction l as [|[relPath node] l IH]; intros result w.
  - exists result, w. split; [reflexivity | auto].
  - cbn [forM]. unfold bind.
    assert (Hstep : exists result1 w1,
      restoreEntry r opts result (relPath, node) w = (Ok result1, w1) /\
      forall path e, In (path, e) (Errors result1) ->
        In (path, e) (Errors result) \/
        (path = relPath /\ FileNode.IsDir node = false /\
         shouldRestore path (RestoreOptions.IncludePattern opts)
           (RestoreOptions.ExcludePattern opts) = true)).
    { unfold restoreEntry. destruct (FileNode.IsDir node) eqn:Hdir; [unfold ret; eauto|].
      destruct (shouldRestore relPath _ _) eqn:Hsel; cbn [negb]; [|unfold ret; eauto].
      destruct (negb (RestoreOptions.Overwrite opts) && _); [eauto|].
      destruct (restoreFile r node _ opts w) as [[u|e] w1]; do 2 eexists;
        (split; [reflexivity|]); cbn [Errors]; [auto|].
      intros path e' Hin. apply in_app_or in Hin as [Hin|[Heq|[]]]; [auto|].
      injection Heq as <- <-. auto. }
    destruct Hstep as (result1 & w1 & -> & Herr1).
    destruct (IH result1 w1) as (result' & w' & -> & Herr').
    exists result', w'. split; [reflexivity|].
    intros path e Hin. apply Herr' in Hin as [Hin|(n & Hn & Hd & Hs)].
    + apply Herr1 in Hin as [Hin|(-> & Hd & Hs)]; [auto|].
      right. exists node. split; [left; reflexivity | auto].
    + right. exists n. split; [right; exact Hn | auto].
Qed.

(** X18 (errors of single files).  [Restore] fails as a whole only when the
    target directory cannot be created, and then writes nothing.  Once the
    directory is there it returns a result whatever happens to single
    files, and its loop comes to every file of the snapshot.  When the loop
    comes to a regular file that passes the filters and is not skipped as
    existing, and [restoreFile] fails on it there, that error is collected
    in [Errors] under the file's path.  Every collected error belongs to a
    regular file of the snapshot that passes the filters. *)
Theorem Restore_collects_errors (r : Restorer) (snapshot : Snapshot.t)
    (opts : RestoreOptions.t) (w : World) :
  match os_call (tick w) with
  | Some e =>
      Restore r snapshot opts w
      = (Err (ErrWrap "failed to create target directory" e), next w)
  | None =>
      let entries := map_to_list (FileTree.Files (Snapshot.Tree snapshot)) in
      let start := mkRestoreResult 0 0 [] in
      exists result w',
        Restore r snapshot opts w = (Ok result, w') /\
        (forall path e, In (path, e) (Errors result) ->
           exists node,
             FileTree.Files (Snapshot.Tree snapshot) !! path = Some node /\
             FileNode.IsDir node = false /\
             shouldRestore path (RestoreOptions.IncludePattern opts)
               (RestoreOptions.ExcludePattern opts) = true) /\
        (forall path node,
           FileTree.Files (Snapshot.Tree snapshot) !! path = Some node ->
           exists acc w1,
             reaches (restoreEntry r opts) entries start (next w) acc (path, node) w1) /\
        (forall acc path node w1 e w2,
           reaches (restoreEntry r opts) entries start (next w) acc (path, node) w1 ->
           FileNode.IsDir node = false ->
           shouldRestore path (RestoreOptions.IncludePattern opts)
             (RestoreOptions.ExcludePattern opts) = true ->
           negb (RestoreOptions.Overwrite opts)
           && bool_decide (is_Some (targets w1 !!
                filepath.Join [RestoreOptions.TargetPath opts; path])) = false ->
           restoreFile r node (filepath.Join [RestoreOptions.TargetPath opts; path]) opts w1
           = (Err e, w2) ->
           In (path, e) (Errors result))
  end.
Proof.
  unfold Restore, bind, wrapping, osCall.
  destruct (os_call (tick w)); [reflexivity|].
  destruct (forM_restoreEntry_total r opts
              (map_to_list (FileTree.Files (Snapshot.Tree snapshot)))
              (mkRestoreResult 0 0 []) (next w)) as (result & w' & Hf & Herr).
  cbv zeta. exists result, w'. split; [exact Hf|]. split; [|split].
  - intros path e Hin. apply Herr in Hin as [[]|(node & Hn & Hd & Hs)].
    exists node. split; [|auto]. apply In_map_to_list. exact Hn.
  - intros path node Hin.
    apply (reaches_all (restoreEntry r opts) _ _ _ _ _ Hf (path, node)).
    apply In_map_to_list. exact Hin.
  - intros acc path node w1 e w2 Hr Hdir Hsel Hskip Hfail.
    destruct (reaches_result (restoreEntry r opts) errorsGrow (restoreEntry_errorsGrow r opts)
                _ _ _ _ _ _ Hr _ _ Hf) as (acc' & w1' & Hstep & more & Hmore).
    rewrite Hmore. apply in_or_app. left.
    unfold restoreEntry in Hstep. rewrite Hdir, Hsel in Hstep. cbn [negb] in Hstep.
    rewrite Hskip, Hfail in Hstep. injection Hstep as <- _.
    cbn [Errors]. apply in_or_app. right. left. reflexivity.
Qed.

(** X19 (a failed restore truncates).  When the first chunk of a file
    cannot be fetched, [restoreFile] has already created the target file:
    it returns the error of [Get], and the target is left empty, whatever it
    held before.  No other file is touched. *)
Theorem restoreFile_failure_truncates (r : Restorer) (node : FileNode.t)
    (targetPath : string) (opts : RestoreOptions.t) (w : World)
    (h : string) (rest : list string) (e : error) :
  RestoreOptions.DryRun opts = false ->
  os_call (tick w) = None -> os_call (S (tick w)) = None ->
  FileNode.Chunks node = h :: rest ->
  store.Get (cas r) h w = Err e ->
  exists w',
    restoreFile r node targetPath opts w
    = (Err (ErrWrap ("failed to get chunk " +:+ h) e), w') /\
    (exists mode, targets w' !! targetPath = Some (mkTargetFile [] mode None)) /\
    (forall q, q <> targetPath -> targets w' !! q = targets w !! q) /\
    objects w' = objects w.
Proof.
  intros Hdry Hc1 Hc2 Hchunks HGet.
  set (mode0 := match targets w !! targetPath with
                | Some f => tf_mode f
                | None => None
                end).
  set (w1 := with_targets (<[targetPath := mkTargetFile [] mode0 None]> (targets w))
               (next (next w))).
  assert (E1 : wrapping "failed to create directories" osCall w = (Ok tt, next w)).
  { unfold wrapping, osCall. rewrite Hc1. reflexivity. }
  assert (E2 : wrapping "failed to create file" (osCreate targetPath) (next w) = (Ok tt, w1)).
  { unfold wrapping, osCreate, bind, osCall. cbn [tick next with_tick]. rewrite Hc2.
    reflexivity. }
  assert (E3 : forM (restoreChunk r targetPath) (h :: rest) tt w1
               = (Err (ErrWrap ("failed to get chunk " +:+ h) e), w1)).
  { cbn [forM]. apply bind_err. unfold restoreChunk. apply bind_err.
    unfold wrapping. rewrite (Get_objects (cas r) h w1 w) by reflexivity.
    rewrite HGet. reflexivity. }
  exists w1. split.
  { unfold restoreFile. rewrite Hdry, Hchunks.
    rewrite (bind_ok _ _ _ _ _ E1), (bind_ok _ _ _ _ _ E2). apply bind_err. exact E3. }
  unfold w1. cbn [targets with_targets next with_tick objects].
  split; [|split; [|reflexivity]].
  - eexists. apply lookup_insert_eq.
  - intros q Hne. apply lookup_insert_ne. congruence.
Qed.

(** The loop of [restoreFile] over chunks that the store has and that
    decode: each chunk's bytes are appended to the target. *)
Lemma forM_restoreChunk r targetPath hs : forall datas w,
  FaultFree ->
  Forall2 (decodes r w) hs datas ->
  exists w',
    forM (restoreChunk r targetPath) hs tt w = (Ok tt, w') /\
    objects w' = objects w /\ snapshots w' = snapshots w /\
    targets w'
    = alter (fun f => mkTargetFile (tf_data f ++ concat datas) (tf_mode f) (tf_mtime f))
        targetPath (targets w).
Proof.
  induction hs as [|h hs IH]; intros datas w HF Hall.
  - apply Forall2_nil_inv_l in Hall as ->. exists w. cbn.
    split; [reflexivity|]. split; [reflexivity|]. split; [reflexivity|].
    symmetry. rewrite alter_alt. destruct (targets w !! targetPath) as [f|] eqn:Hf; [|reflexivity].
    rewrite app_nil_r. destruct f. apply insert_id. exact Hf.
  - apply Forall2_cons_inv_l in Hall as (d & datas' & (stored & HGet & Hdec) & Hall & ->).
    assert (Hstep : restoreChunk r targetPath tt h w = (Ok tt, next (appendTo targetPath d w))).
    { unfold restoreChunk, bind, wrapping. rewrite HGet.
      unfold pipeline.decode in Hdec.
      destruct (encryptor r) as [enc|].
      - unfold lift. destruct (crypto.Decrypt enc stored) as [d1|]; [|discriminate].
        destruct (compressor r) as [c|].
        + rewrite Hdec. unfold fileWrite. rewrite (proj2 (HF _)). reflexivity.
        + injection Hdec as <-. unfold ret, fileWrite. rewrite (proj2 (HF _)). reflexivity.
      - unfold ret at 1. destruct (compressor r) as [c|].
        + unfold lift. rewrite Hdec. unfold fileWrite. rewrite (proj2 (HF _)). reflexivity.
        + injection Hdec as <-. unfold ret, fileWrite. rewrite (proj2 (HF _)). reflexivity. }
    cbn [forM]. unfold bind. rewrite Hstep.
    destruct (IH datas' (next (appendTo targetPath d w)) HF) as (w' & Hf & Ho & Hs & Ht).
    { eapply Forall2_impl; [exact Hall|]. intros h' d' (stored' & HG' & HD').
      exists stored'. split; [|exact HD']. rewrite <- HG'. apply Get_objects. reflexivity. }
    exists w'. split; [exact Hf|]. split; [rewrite Ho; reflexivity|].
    split; [rewrite Hs; reflexivity|].
    rewrite Ht. cbn [targets next with_tick appendTo with_targets concat].
    rewrite alter_alter_eq. apply alter_ext. intros f _. cbn. rewrite app_assoc. reflexivity.
Qed.

(** X20 (what a restored file holds).  In an environment without write
    failures, when every chunk of a file is in the store and decodes,
    [restoreFile] succeeds and leaves at the target exactly the decoded
    chunks in order, whatever the target held before, with the node's
    modification time, and with the node's mode when [PreservePerms] is
    set.  Nothing else changes. *)
Theorem restoreFile_writes_chunks (r : Restorer) (node : FileNode.t)
    (targetPath : string) (opts : RestoreOptions.t) (w : World) (datas : list bytes) :
  FaultFree ->
  RestoreOptions.DryRun opts = false ->
  Forall2 (decodes r w) (FileNode.Chunks node) datas ->
  exists w',
    restoreFile r node targetPath opts w = (Ok tt, w') /\
    objects w' = objects w /\ snapshots w' = snapshots w /\
    targets w'
    = <[targetPath :=
          mkTargetFile (concat datas)
            (if RestoreOptions.PreservePerms opts then Some (FileNode.Mode node)
             else match targets w !! targetPath with
                  | Some f => tf_mode f
                  | None => None
                  end)
            (Some (FileNode.ModTime node))]> (targets w).
Proof.
  intros HF Hdry Hall.
  set (mode0 := match targets w !! targetPath with
                | Some f => tf_mode f
                | None => None
                end).
  set (w1 := with_targets (<[targetPath := mkTargetFile [] mode0 None]> (targets w))
               (next (next w))).
  assert (E1 : wrapping "failed to create directories" osCall w = (Ok tt, next w)).
  { unfold wrapping, osCall. rewrite (proj1 (HF _)). reflexivity. }
  assert (E2 : wrapping "failed to create file" (osCreate targetPath) (next w) = (Ok tt, w1)).
  { unfold wrapping, osCreate, bind, osCall. rewrite (proj1 (HF _)). reflexivity. }
  destruct (forM_restoreChunk r targetPath (FileNode.Chunks node) datas w1 HF)
    as (w2 & E3 & Ho & Hs & Ht).
  { eapply Forall2_impl; [exact Hall|]. intros h' d' (stored' & HG' & HD').
    exists stored'. split; [|exact HD']. rewrite <- HG'. apply Get_objects. reflexivity. }
  assert (Ht2 : targets w2 = <[targetPath := mkTargetFile (concat datas) mode0 None]> (targets w)).
  { rewrite Ht. unfold w1. cbn [targets with_targets next with_tick].
    rewrite alter_insert_eq. reflexivity. }
  assert (Hwarn : forall f w0,
    warnOnly osCall f w0 = (Ok tt, f (next w0))).
  { intros f w0. unfold warnOnly, osCall. rewrite (proj1 (HF _)). reflexivity. }
  unfold restoreFile. rewrite Hdry.
  rewrite (bind_ok _ _ _ _ _ E1), (bind_ok _ _ _ _ _ E2), (bind_ok _ _ _ _ _ E3).
  destruct (RestoreOptions.PreservePerms opts).
  - rewrite (bind_ok _ _ _ _ _ (Hwarn _ _)), Hwarn.
    eexists. split; [reflexivity|]. cbn [objects snapshots targets with_targets next with_tick].
    split; [exact Ho|]. split; [exact Hs|].
    rewrite Ht2, !alter_insert_eq. reflexivity.
  - unfold bind at 1. unfold ret at 1. rewrite Hwarn.
    eexists. split; [reflexivity|]. cbn [objects snapshots targets with_targets next with_tick].
    split; [exact Ho|]. split; [exact Hs|].
    rewrite Ht2, !alter_insert_eq. reflexivity.
Qed.

(** [RestoreToWriter] into a buffer that already holds [buf]. *)
Lemma restoreToBuffer_loop r w hs : forall datas buf,
  Forall2 (decodes r w) hs datas ->
  (fix loop (chunks : list string) (buf : bytes) : Result bytes :=
     match chunks with
     | [] => Ok buf
     | chunkHash :: rest =>
         match store.Get (cas r) chunkHash w with
         | Err e => Err (ErrWrap "failed to get chunk" e)
         | Ok data =>
             match (match encryptor r with
                    | Some e =>
                        match crypto.Decrypt e data with
                        | Ok d => Ok d
                        | Err err => Err (ErrWrap "decryption failed" err)
                        end
                    | None => Ok data
                    end) with
             | Err e => Err e
             | Ok data =>
                 match (match compressor r with
                        | Some c =>
                            match compress.Decompress c data with
                            | Ok d => Ok d
                            | Err err => Err (ErrWrap "decompression failed" err)
                            end
                        | None => Ok data
                        end) with
                 | Err e => Err e
                 | Ok data => loop rest (buf ++ data)
                 end
             end
         end
     end) hs buf = Ok (buf ++ concat datas).
Proof.
  induction hs as [|h hs IH]; intros datas buf Hall.
  - apply Forall2_nil_inv_l in Hall as ->. cbn. rewrite app_nil_r. reflexivity.
  - apply Forall2_cons_inv_l in Hall as (d & datas' & (stored & HGet & Hdec) & Hall & ->).
    rewrite HGet. unfold pipeline.decode in Hdec.
    destruct (encryptor r) as [enc|].
    + destruct (crypto.Decrypt enc stored) as [d1|]; [|discriminate].
      destruct (compressor r) as [c|].
      * rewrite Hdec. rewrite (IH _ _ Hall). cbn [concat]. rewrite app_assoc. reflexivity.
      * injection Hdec as <-. rewrite (IH _ _ Hall). cbn [concat]. rewrite app_assoc. reflexivity.
    + destruct (compressor r) as [c|].
      * rewrite Hdec. rewrite (IH _ _ Hall). cbn [concat]. rewrite app_assoc. reflexivity.
      * injection Hdec as <-. rewrite (IH _ _ Hall). cbn [concat]. rewrite app_assoc. reflexivity.
Qed.

(** X21 (reading a file out of a snapshot).  [GetFileContent] fails with
    its not-found error for a path that the snapshot does not have.  For a
    path it has, it returns the decoded chunks of the node in order when all
    of them are in the store and decode (for a node without chunks, a
    directory included, no bytes), and the error of [Get] when the first
    chunk cannot be fetched. *)
Theorem GetFileContent_reads_chunks (r : Restorer) (snapshot : Snapshot.t)
    (filePath : string) (w : World) :
  match FileTree.Files (Snapshot.Tree snapshot) !! filePath with
  | None => GetFileContent r snapshot filePath w = Err (ErrNotFound filePath)
  | Some node =>
      (forall datas, Forall2 (decodes r w) (FileNode.Chunks node) datas ->
         GetFileContent r snapshot filePath w = Ok (concat datas)) /\
      (forall h rest e, FileNode.Chunks node = h :: rest ->
         store.Get (cas r) h w = Err e ->
         GetFileContent r snapshot filePath w = Err (ErrWrap "failed to get chunk" e))
  end.
Proof.
  unfold GetFileContent.
  destruct (FileTree.Files (Snapshot.Tree snapshot) !! filePath) as [node|]; [|reflexivity].
  split.
  - intros datas Hall. unfold restoreToBuffer.
    rewrite (restoreToBuffer_loop r w _ datas [] Hall). reflexivity.
  - intros h rest e Hchunks HGet. unfold restoreToBuffer. rewrite Hchunks, HGet. reflexivity.
Qed.

End RestoreMore.

(** ** Compression and encryption *)
Section CodecMore.
Context `{OS} `{Zstd} `{AEAD}.

(** X22 (compression round trip).  For a codec that keeps its contract,
    [Decompress] undoes [Compress] under each of the three algorithms.  The
    "lz4" algorithm is the zstd codec at its fastest level, so data
    compressed under "zstd" or "lz4" decompresses under either.  Under any
    other algorithm name both directions fail with the unknown-algorithm
    error. *)
Theorem Compress_round_trip (c : compress.Compressor) (data : bytes) :
  ZstdRoundTrip ->
  match compress.Compress c data with
  | Ok packed =>
      compress.Decompress c packed = Ok data /\
      (compress.algorithm c <> compress.AlgorithmNone ->
       forall level,
         compress.Decompress (compress.New compress.AlgorithmZstd level) packed = Ok data /\
         compress.Decompress (compress.New compress.AlgorithmLZ4 level) packed = Ok data)
  | Err e =>
      e = ErrUnknownAlgorithm (compress.algorithm c) /\
      forall packed, compress.Decompress c packed = Err e
  end.
Proof.
  intros HZ. unfold compress.Compress, compress.Decompress.
  destruct (decide (compress.algorithm c = compress.AlgorithmZstd)) as [Hz|Hz].
  { split; [apply HZ|]. intros _ level. cbn. split; apply HZ. }
  destruct (decide (compress.algorithm c = compress.AlgorithmLZ4)) as [Hl|Hl].
  { split; [apply HZ|]. intros _ level. cbn. split; apply HZ. }
  destruct (decide (compress.algorithm c = compress.AlgorithmNone)) as [Hn|Hn].
  { split; [reflexivity|]. intros Hne. contradiction. }
  split; reflexivity.
Qed.

(** X23 (encryption round trip).  [Encrypt] draws a fresh 12-byte nonce
    and returns it followed by the sealed plaintext; it fails only when the
    random source fails.  For an AEAD that keeps its contract, [Decrypt]
    under the same key gives the plaintext back.  [Decrypt] rejects fewer
    than 12 bytes as too short without calling the cipher. *)
Theorem Encrypt_then_Decrypt (e : crypto.Encryptor) (plaintext : bytes) (w : World) :
  AEADRoundTrip ->
  match crypto.Encrypt e plaintext w with
  | (Ok ciphertext, w') =>
      w' = next w /\
      (exists nonce, length nonce = 12%nat /\
         ciphertext = nonce ++ aead_Seal (crypto.key e) nonce plaintext) /\
      crypto.Decrypt e ciphertext = Ok plaintext
  | (Err err, w') =>
      w' = next w /\ os_rand (tick w) = None /\
      err = ErrWrap "failed to generate nonce" ErrNonce
  end /\
  (forall short, (length short < 12)%nat ->
     crypto.Decrypt e short = Err ErrCiphertextTooShort).
Proof.
  intros HA. split.
  - unfold crypto.Encrypt, bind, wrapping.
    destruct (crypto.readNonce w) as [[nonce|err] w1] eqn:Hn.
    + apply readNonce_length in Hn as [Hlen ->]. unfold ret.
      split; [reflexivity|]. split; [eauto|].
      unfold crypto.Decrypt.
      destruct (Nat.ltb_spec (length (nonce ++ aead_Seal (crypto.key e) nonce plaintext))
                  crypto.nonceSize) as [Hlt|_].
      { rewrite length_app in Hlt. unfold crypto.nonceSize in Hlt. lia. }
      unfold crypto.nonceSize. rewrite <- Hlen, take_app_length, drop_app_length, HA.
      reflexivity.
    + unfold crypto.readNonce in Hn. destruct (os_rand (tick w)); [discriminate|].
      injection Hn as <- <-. auto.
  - intros short Hshort. unfold crypto.Decrypt, crypto.nonceSize.
    destruct (Nat.ltb_spec (length short) 12); [reflexivity | lia].
Qed.

End CodecMore.

Lemma Compress_round_trip_witness :
  compress.Decompress (H := stored_zstd) compress.NewDefault
    (zstd_EncodeAll (Zstd := stored_zstd) SpeedDefault (bytes_of_string "hello"))
  = Ok (bytes_of_string "hello").
Proof.
  exact (proj1 (Compress_round_trip (H0 := stored_zstd) compress.NewDefault
                  (bytes_of_string "hello") stored_zstd_round_trip)).
Defined.

Lemma Encrypt_then_Decrypt_witness :
  match crypto.Encrypt (H := demo_os) (H0 := toy_aead) demo_key
          (bytes_of_string "hello") empty_world with
  | (Ok ciphertext, w') =>
      w' = next empty_world /\
      (exists nonce, length nonce = 12%nat /\
         ciphertext = nonce ++ aead_Seal (AEAD := toy_aead) (crypto.key demo_key) nonce
                                 (bytes_of_string "hello")) /\
      crypto.Decrypt (H0 := toy_aead) demo_key ciphertext = Ok (bytes_of_string "hello")
  | (Err err, w') =>
      w' = next empty_world /\ os_rand (OS := demo_os) (tick empty_world) = None /\
      err = ErrWrap "failed to generate nonce" ErrNonce
  end /\
  (forall short, (length short < 12)%nat ->
     crypto.Decrypt (H0 := toy_aead) demo_key short = Err ErrCiphertextTooShort).
Proof.
  exact (Encrypt_then_Decrypt (H := demo_os) (H1 := toy_aead) demo_key
           (bytes_of_string "hello") empty_world toy_aead_round_trip).
Defined.

(** ** The properties above on the small tree *)

Lemma Create_success_is_recorded_witness :
  let out := snapshot.Create (H := demo_os) (H0 := sum_hash) (H1 := stored_zstd)
               (H2 := toy_aead) (demo_manager None None) "/d" "demo" "" empty_world in
  exists snap,
    fst (fst out) = Ok snap /\
    snapshots (snd out)
    = <[models.Snapshot.ID snap +:+ ".json" := Some snap]> (snapshots empty_world) /\
    snapshot.Get (snd (fst out)) (models.Snapshot.ID snap) (snd out) = Ok snap /\
    objects empty_world ⊆ objects (snd out).
Proof.
  intros out.
  assert (Hok : match fst (fst out) with Ok _ => true | Err _ => false end = true)
    by (vm_compute; reflexivity).
  destruct out as [[[snap|e] m'] w'] eqn:HC; [|discriminate Hok]. cbn [fst snd].
  exists snap. split; [reflexivity|].
  destruct (Create_success_is_recorded (H := demo_os) (H0 := sum_hash) (H1 := stored_zstd)
              (H2 := toy_aead) (demo_manager None None) "/d" "demo" "" empty_world
              snap m' w' HC) as (Hs & HG & Ho & _).
  auto.
Defined.

Lemma Delete_removes_the_record_only_witness :
  let m := demo_manager None None in
  let w := with_snapshots {[ "1.json" := None ]} empty_world in
  let out := snapshot.Delete (H := demo_os) m "1" w in
  fst out = Ok tt /\
  objects (snd out) = objects w /\ targets (snd out) = targets w /\
  snapshot.Get m "1" (snd out) = Err (ErrNotExist "/r/snapshots/1.json").
Proof.
  intros m w out.
  assert (Hr : fst out = Ok tt) by reflexivity.
  split; [exact Hr|].
  destruct out as [r w'] eqn:HD. cbn [fst snd] in *. subst r.
  destruct (Delete_removes_the_record_only (H := demo_os) m "1" w _ w' eq_refl HD)
    as (Ho & Ht & _ & HG & _).
  auto.
Defined.

Lemma storeChunk_known_chunk_witness :
  let m := demo_manager None None in
  let ch := chunker.createChunk (bytes_of_string "hello") 0 in
  let s := (snapshot.cas m, demo_store) in
  snapshot.storeChunk (H := demo_os) (H1 := stored_zstd) (H2 := toy_aead)
    m ([], demo_progress) ch s
  = (Ok ([] ++ [models.Chunk.Hash ch],
         snapshot.mkProgress (snapshot.tree demo_progress) (snapshot.newChunks demo_progress)
           (wrap64 (snapshot.totalChunks demo_progress + 1))
           (snapshot.storedSize demo_progress)), s).
Proof.
  intros m ch s.
  apply (storeChunk_known_chunk (H := demo_os) (H1 := stored_zstd) (H2 := toy_aead)
           m [] demo_progress ch s); [vm_compute; reflexivity | reflexivity | reflexivity].
Defined.


Lemma Restore_keeps_existing_witness :
  let old := mkTargetFile (bytes_of_string "mine") (Some 384) (Some 5) in
  let w := with_targets {[ "/t/a.txt" := old ]} demo_store in
  let out := restore.Restore (H := demo_os) (H0 := stored_zstd) (H1 := toy_aead)
               demo_restorer demo_snapshot demo_options w in
  targets (snd out) !! "/t/a.txt" = Some old.
Proof.
  intros old w out. destruct out as [res w'] eqn:HR. cbn [fst snd].
  apply (Restore_keeps_existing (H := demo_os) (H0 := stored_zstd) (H1 := toy_aead)
           demo_restorer demo_snapshot demo_options w res w' eq_refl HR).
  reflexivity.
Defined.

(** A restore that excludes *.txt, over a target that holds a.txt: the
    file stays as it was. *)
Lemma Restore_respects_filters_witness :
  let opts := models.RestoreOptions.mk "" "/t" [] ["*.txt"] true true false in
  let old := mkTargetFile (bytes_of_string "mine") (Some 384) (Some 5) in
  let w := with_targets {[ "/t/a.txt" := old ]} demo_store in
  let out := restore.Restore (H := demo_os) (H0 := stored_zstd) (H1 := toy_aead)
               demo_restorer demo_snapshot opts w in
  restore.shouldRestore "a.txt" [] ["*.txt"] = false /\
  targets (snd out) !! "/t/a.txt" = Some old.
Proof.
  intros opts old w out.
  assert (Hsel : restore.shouldRestore "a.txt" [] ["*.txt"] = false) by (vm_compute; reflexivity).
  split; [exact Hsel|].
  destruct out as [res w'] eqn:HR. cbn [snd].
  destruct (Restore_respects_filters (H := demo_os) (H0 := stored_zstd) (H1 := toy_aead))
    as (_ & _ & Hkeep).
  change "/t/a.txt" with (filepath.Join [models.RestoreOptions.TargetPath opts; "a.txt"]).
  rewrite (Hkeep demo_restorer demo_snapshot opts w res w' "a.txt" HR).
  - reflexivity.
  - intros path node Hl _.
    change (models.FileTree.Files (models.Snapshot.Tree demo_snapshot))
      with ({[ "a.txt" := demo_node ]} : gmap string models.FileNode.t) in Hl.
    apply lookup_singleton_Some in Hl as [<- _]. reflexivity.
  - reflexivity.
  - exact Hsel.
Defined.

Lemma Restore_collects_errors_witness :
  let h := digest (bytes_of_string "hello") in
  exists result w',
    restore.Restore (H := demo_os) (H0 := stored_zstd) (H1 := toy_aead)
      demo_restorer demo_snapshot demo_options empty_world = (Ok result, w') /\
    In ("a.txt", ErrWrap ("failed to get chunk " +:+ h) (ErrNotFound h))
       (restore.Errors result).
Proof.
  intros h.
  pose proof (Restore_collects_errors (H := demo_os) (H0 := stored_zstd) (H1 := toy_aead)
                demo_restorer demo_snapshot demo_options empty_world) as Hthm.
  assert (Hc : os_call (OS := demo_os) (tick empty_world) = None) by reflexivity.
  rewrite Hc in Hthm. cbv zeta in Hthm.
  destruct Hthm as (result & w' & HR & _ & _ & Hcollect).
  exists result, w'. split; [exact HR|].
  eapply (Hcollect _ "a.txt" demo_node).
  - change (models.FileTree.Files (models.Snapshot.Tree demo_snapshot))
      with ({[ "a.txt" := demo_node ]} : gmap string models.FileNode.t).
    rewrite map_to_list_singleton. apply reaches_first.
  - reflexivity.
  - reflexivity.
  - vm_compute. reflexivity.
  - vm_compute. reflexivity.
Defined.

Lemma restoreFile_failure_truncates_witness :
  let old := mkTargetFile (bytes_of_string "mine") (Some 384) (Some 5) in
  let w := with_targets {[ "/t/a.txt" := old ]} empty_world in
  let h := digest (bytes_of_string "hello") in
  exists w',
    restore.restoreFile (H := demo_os) (H0 := stored_zstd) (H1 := toy_aead)
      demo_restorer demo_node "/t/a.txt" demo_options w
    = (Err (ErrWrap ("failed to get chunk " +:+ h) (ErrNotFound h)), w') /\
    (exists mode, targets w' !! "/t/a.txt" = Some (mkTargetFile [] mode None)) /\
    (forall q, q <> "/t/a.txt" -> targets w' !! q = targets w !! q) /\
    objects w' = objects w.
Proof.
  intros old w h.
  apply (restoreFile_failure_truncates (H := demo_os) (H0 := stored_zstd) (H1 := toy_aead)
           demo_restorer demo_node "/t/a.txt" demo_options w h []);
    reflexivity.
Defined.

Lemma restoreFile_writes_chunks_witness :
  exists w',
    restore.restoreFile (H := demo_os) (H0 := stored_zstd) (H1 := toy_aead)
      demo_restorer demo_node "/t/a.txt" demo_options demo_store = (Ok tt, w') /\
    objects w' = objects demo_store /\ snapshots w' = snapshots demo_store /\
    targets w'
    = <[ "/t/a.txt" := mkTargetFile (concat [bytes_of_string "hello"]) (Some 420) (Some 1000) ]>
        (targets demo_store).
Proof.
  apply (restoreFile_writes_chunks (H := demo_os) (H0 := stored_zstd) (H1 := toy_aead)
           demo_restorer demo_node "/t/a.txt" demo_options demo_store
           [bytes_of_string "hello"]).
  - intros t. split; reflexivity.
  - reflexivity.
  - constructor; [|constructor]. exists (bytes_of_string "hello").
    split; [vm_compute; reflexivity | reflexivity].
Defined.

(** ** The configuration *)
Section ConfigFacts.
Import config.

(** X24 (validated configuration).  [Validate] leaves a positive minimum
    chunk size, a compression level between 1 and 19 and one of the
    algorithm names "zstd", "lz4", "none" and ""; it changes nothing else,
    the chunking algorithm and the encryption settings included, and
    validating twice is the same as validating once.  When the sizes given
    are small enough for the doublings not to overflow, the sizes it leaves
    are strictly ordered, min < avg < max, which is what the chunker's size
    bounds need. *)
Theorem Validate_postcondition (c : Config) :
  let c' := Validate c in
  0 < ChunkingConfig.MinSize (Chunking c') /\
  1 <= CompressionConfig.Level (Compression c') <= 19 /\
  In (CompressionConfig.Algorithm (Compression c')) ["zstd"; "lz4"; "none"; ""] /\
  (ChunkingConfig.MinSize (Chunking c) < 2 ^ 60 ->
   ChunkingConfig.AvgSize (Chunking c) < 2 ^ 61 ->
   ChunkingConfig.MinSize (Chunking c') < ChunkingConfig.AvgSize (Chunking c') /\
   ChunkingConfig.AvgSize (Chunking c') < ChunkingConfig.MaxSize (Chunking c')) /\
  Repository c' = Repository c /\ Encryption c' = Encryption c /\ Cloud c' = Cloud c /\
  Exclusions c' = Exclusions c /\
  ChunkingConfig.Algorithm (Chunking c') = ChunkingConfig.Algorithm (Chunking c) /\
  CompressionConfig.Enabled (Compression c') = CompressionConfig.Enabled (Compression c) /\
  Validate c' = c'.
Proof.
  destruct c as [repo enc [cen calg clevel] cloud [mn av mx alg] excl].
  cbv zeta. unfold Validate.
  cbn [Chunking Compression Repository Encryption Cloud Exclusions
       ChunkingConfig.MinSize ChunkingConfig.AvgSize ChunkingConfig.MaxSize
       ChunkingConfig.Algorithm CompressionConfig.Algorithm CompressionConfig.Level
       CompressionConfig.Enabled].
  set (mn' := if mn <=? 0 then 512 * 1024 else mn).
  set (av' := if av <=? mn' then wrap64 (mn' * 2) else av).
  set (mx' := if mx <=? av' then wrap64 (av' * 4) else mx).
  set (lv1 := if clevel <? 1 then 1 else clevel).
  set (lv' := if lv1 >? 19 then 19 else lv1).
  set (alg' := if decide (calg = "zstd") then calg
               else if decide (calg = "lz4") then calg
               else if decide (calg = "none") then calg
               else if decide (calg = "") then calg else "zstd").
  assert (Hmn : 0 < mn') by (unfold mn'; destruct (Z.leb_spec mn 0); lia).
  assert (Hlv : 1 <= lv' <= 19).
  { unfold lv', lv1. destruct (Z.ltb_spec clevel 1).
    - destruct (Z.gtb_spec 1 19); lia.
    - destruct (Z.gtb_spec clevel 19); lia. }
  assert (Halg : In alg' ["zstd"; "lz4"; "none"; ""]).
  { unfold alg'. repeat (destruct (decide _) as [->|_]; [cbn; auto 6|]). cbn. auto. }
  split; [exact Hmn|]. split; [exact Hlv|]. split; [exact Halg|]. split.
  { intros Hb1 Hb2.
    assert (Hmnb : mn' < 2 ^ 60) by (unfold mn'; destruct (Z.leb_spec mn 0); lia).
    assert (Hav : mn' < av' /\ av' < 2 ^ 61).
    { unfold av'. destruct (Z.leb_spec av mn'); [|lia].
      rewrite wrap64_small by lia. lia. }
    split; [apply Hav|]. unfold mx'. destruct (Z.leb_spec mx av'); [|lia].
    rewrite wrap64_small by lia. lia. }
  repeat (split; [reflexivity|]).
  assert (E1 : (if mn' <=? 0 then 512 * 1024 else mn') = mn').
  { destruct (Z.leb_spec mn' 0); [lia | reflexivity]. }
  rewrite E1.
  assert (E2 : (if av' <=? mn' then wrap64 (mn' * 2) else av') = av').
  { unfold av' at 1 3. destruct (Z.leb_spec av mn') as [Hle|Hgt].
    - fold av'. destruct (av' <=? mn'); [|reflexivity]. unfold av'.
      destruct (Z.leb_spec av mn'); [reflexivity | lia].
    - destruct (Z.leb_spec av mn'); [lia | reflexivity]. }
  rewrite E2.
  assert (E3 : (if mx' <=? av' then wrap64 (av' * 4) else mx') = mx').
  { unfold mx' at 1 3. destruct (Z.leb_spec mx av') as [Hle|Hgt].
    - fold mx'. destruct (mx' <=? av'); [|reflexivity]. unfold mx'.
      destruct (Z.leb_spec mx av'); [reflexivity | lia].
    - destruct (Z.leb_spec mx av'); [lia | reflexivity]. }
  rewrite E3.
  assert (E4 : (if lv' <? 1 then 1 else lv') = lv').
  { destruct (Z.ltb_spec lv' 1); [lia | reflexivity]. }
  rewrite E4.
  assert (E5 : (if lv' >? 19 then 19 else lv') = lv').
  { destruct (Z.gtb_spec lv' 19); [lia | reflexivity]. }
  rewrite E5.
  assert (E6 : (if decide (alg' = "zstd") then alg'
                else if decide (alg' = "lz4") then alg'
                else if decide (alg' = "none") then alg'
                else if decide (alg' = "") then alg' else "zstd") = alg').
  { destruct Halg as [<-|[<-|[<-|[<-|[]]]]]; reflexivity. }
  rewrite E6. reflexivity.
Qed.

End ConfigFacts.

(** ** Hashing the scanned files *)
Section ScanHashes.
Context `{OS}.
Import models scanner.

Lemma hashFile_inv path w h w' :
  hashFile path w = (Ok h, w') ->
  exists file data,
    os_open (tick w) path = Ok file /\ ReadAll file = Ok data /\ h = digest data.
Proof.
  unfold hashFile. destruct (os_open (tick w) path) as [file|]; [|discriminate].
  destruct (ReadAll file) as [data|] eqn:Hread; [|discriminate].
  intros [= <- _]. eauto.
Qed.

(** What [ScanWithHashes] makes of the entry that [Scan] recorded at a
    path: a directory is kept as it is, a regular file gets the digest of
    the bytes read from it. *)
Definition hashedFrom (scanned : option FileNode.t) (hashed : option FileNode.t) : Prop :=
  match scanned with
  | None => hashed = None
  | Some node =>
      if FileNode.IsDir node then hashed = Some node
      else exists t file data,
             os_open t (FileNode.Path node) = Ok file /\ ReadAll file = Ok data /\
             hashed = Some (FileNode.with_Hash (digest data) node)
  end.

Lemma hashLoop_inv (tree : FileTree.t) l : forall acc w tree' w',
  NoDup (map fst l) ->
  (forall k n, In (k, n) l -> FileTree.Files tree !! k = Some n) ->
  (forall k, In k (map fst l) -> FileTree.Files acc !! k = FileTree.Files tree !! k) ->
  (forall k, ~ In k (map fst l) ->
     hashedFrom (FileTree.Files tree !! k) (FileTree.Files acc !! k)) ->
  forM (fun (tree : FileTree.t) '(relPath, node) =>
          if FileNode.IsDir node then ret tree
          else
            hash <- hashFile (FileNode.Path node) ;;
            ret (FileTree.with_Files
                   (alter (FileNode.with_Hash hash) relPath (FileTree.Files tree)) tree))
       l acc w = (Ok tree', w') ->
  (forall k, hashedFrom (FileTree.Files tree !! k) (FileTree.Files tree' !! k)) /\
  FileTree.Root tree' = FileTree.Root acc /\
  FileTree.TotalSize tree' = FileTree.TotalSize acc /\
  FileTree.FileCount tree' = FileTree.FileCount acc /\
  FileTree.DirCount tree' = FileTree.DirCount acc.
Proof.
  induction l as [|[k0 n0] l IH]; intros acc w tree' w' Hnd Hin Hpending Hdone Hf.
  - injection Hf as <- <-. split; [|auto]. intros k. apply Hdone. intros [].
  - cbn [map fst] in Hnd. apply NoDup_cons in Hnd as [Hk0 Hnd].
    rewrite list_elem_of_In in Hk0.
    cbn [forM] in Hf.
    apply bind_inv in Hf as [(e & _ & [=])|(acc1 & w1 & Hstep & Hf)].
    assert (Hn0 : FileTree.Files tree !! k0 = Some n0) by (apply Hin; left; reflexivity).
    assert (Hacc0 : FileTree.Files acc !! k0 = Some n0).
    { rewrite Hpending by (left; reflexivity). exact Hn0. }
    assert (Hacc1 :
      hashedFrom (Some n0) (FileTree.Files acc1 !! k0) /\
      (forall k, k <> k0 -> FileTree.Files acc1 !! k = FileTree.Files acc !! k) /\
      FileTree.Root acc1 = FileTree.Root acc /\
      FileTree.TotalSize acc1 = FileTree.TotalSize acc /\
      FileTree.FileCount acc1 = FileTree.FileCount acc /\
      FileTree.DirCount acc1 = FileTree.DirCount acc).
    { unfold hashedFrom. destruct (FileNode.IsDir n0) eqn:Hdir.
      - injection Hstep as <- <-. rewrite Hacc0. auto 7.
      - apply bind_inv in Hstep as [(e & _ & [=])|(h & w2 & Hh & Hret)].
        injection Hret as <- <-. apply hashFile_inv in Hh as (file & data & Ho & Hr & ->).
        cbn [FileTree.Files FileTree.with_Files FileTree.Root FileTree.TotalSize
             FileTree.FileCount FileTree.DirCount].
        split; [|split; [|auto]].
        + exists (tick w), file, data. split; [exact Ho|]. split; [exact Hr|].
          rewrite lookup_alter_eq, Hacc0. reflexivity.
        + intros k Hne. apply lookup_alter_ne. congruence. }
    destruct Hacc1 as (Hh0 & Hframe & HR & HT & HF & HD).
    destruct (IH acc1 w1 tree' w' Hnd) as (Hall & HR' & HT' & HF' & HD'); [| | |exact Hf|].
    + intros k n Hkn. apply Hin. right. exact Hkn.
    + intros k Hk. rewrite Hframe; [apply Hpending; right; exact Hk|].
      intros ->. contradiction.
    + intros k Hk. destruct (decide (k = k0)) as [->|Hne].
      * rewrite Hn0. exact Hh0.
      * rewrite (Hframe k Hne). apply Hdone. intros [Heq|Hk']; [cbn in Heq; congruence | contradiction].
    + split; [exact Hall|]. repeat split; congruence.
Qed.

(** X25 (file hashes).  When [ScanWithHashes] succeeds, the tree it returns
    is the tree that [Scan] recorded with hashes filled in: it has the same
    paths, root and counters; a directory's node is unchanged; a regular
    file's node differs only in its [Hash], which is the SHA-256 digest of
    the bytes read from the file at the node's path. *)
Theorem ScanWithHashes_hashes (s : Scanner) (sourcePath : string) (w : World)
    (tree' : FileTree.t) (w' : World) :
  ScanWithHashes s sourcePath w = (Ok tree', w') ->
  exists tree,
    Scan s sourcePath w = (Ok tree, next w) /\
    FileTree.Root tree' = FileTree.Root tree /\
    FileTree.TotalSize tree' = FileTree.TotalSize tree /\
    FileTree.FileCount tree' = FileTree.FileCount tree /\
    FileTree.DirCount tree' = FileTree.DirCount tree /\
    forall relPath,
      match FileTree.Files tree !! relPath with
      | None => FileTree.Files tree' !! relPath = None
      | Some node =>
          if FileNode.IsDir node then FileTree.Files tree' !! relPath = Some node
          else exists t file data,
                 os_open t (FileNode.Path node) = Ok file /\ ReadAll file = Ok data /\
                 FileTree.Files tree' !! relPath
                 = Some (FileNode.with_Hash (digest data) node)
      end.
Proof.
  intros HS. unfold ScanWithHashes in HS.
  apply bind_inv in HS as [(e & _ & [=])|(tree & w1 & Hscan & Hloop)].
  assert (Hw1 : w1 = next w).
  { unfold Scan in Hscan. destruct (os_walk (tick w) sourcePath) as [[| |]|];
      injection Hscan as _ <-; reflexivity. }
  subst w1. exists tree. split; [exact Hscan|].
  destruct (hashLoop_inv tree (map_to_list (FileTree.Files tree)) tree (next w) tree' w')
    as (Hall & HR & HT & HF & HD).
  - apply NoDup_fst_map_to_list.
  - intros k n Hkn. apply In_map_to_list. exact Hkn.
  - reflexivity.
  - intros k Hk. unfold hashedFrom.
    destruct (FileTree.Files tree !! k) as [n|] eqn:Hn; [|reflexivity].
    exfalso. apply Hk. apply in_map_iff. exists (k, n). split; [reflexivity|].
    apply In_map_to_list. exact Hn.
  - exact Hloop.
  - repeat (split; [assumption|]). exact Hall.
Qed.

End ScanHashes.

Lemma ScanWithHashes_hashes_witness :
  let out := scanner.ScanWithHashes (H := demo_os) (scanner.New [] 4) "/d" empty_world in
  exists tree',
    fst out = Ok tree' /\
    exists t file data,
      os_open (OS := demo_os) t "/d/a.txt" = Ok file /\ ReadAll file = Ok data /\
      models.FileTree.Files tree' !! "a.txt"
      = Some (models.FileNode.with_Hash (digest data)
                (models.FileNode.mk "/d/a.txt" "a.txt" false 420 5 1000 "" [])).
Proof.
  intros out.
  assert (Hok : match fst out with Ok _ => true | Err _ => false end = true)
    by (vm_compute; reflexivity).
  destruct out as [[tree'|e] w'] eqn:HS; [|discriminate Hok]. cbn [fst snd].
  exists tree'. split; [reflexivity|].
  destruct (ScanWithHashes_hashes (H := demo_os) (scanner.New [] 4) "/d" empty_world
              tree' w' HS) as (tree & Hscan & _ & _ & _ & _ & Hall).
  specialize (Hall "a.txt").
  assert (Htree : models.FileTree.Files tree !! "a.txt"
                  = Some (models.FileNode.mk "/d/a.txt" "a.txt" false 420 5 1000 "" [])).
  { assert (Ht : fst (scanner.Scan (H := demo_os) (scanner.New [] 4) "/d" empty_world)
                 = Ok tree) by (rewrite Hscan; reflexivity).
    vm_compute in Ht. injection Ht as <-. vm_compute. reflexivity. }
  rewrite Htree in Hall. exact Hall.
Defined.

(** ** The local backend *)
Section BackendFacts.
Context `{OS}.
Import backend.




(** X27 (local backend: a failed copy).  [Put] is not atomic.  When the
    reader fails with an error after delivering some blocks, [Put] returns
    that error wrapped as a write failure, and the key's file is left
    holding the bytes copied before the error: [Exists] says yes and [Get]
    delivers the partial bytes, with nothing to tell them from a complete
    object. *)
Theorem LocalBackend_Put_partial (l : LocalBackend) (key : string) (blocks : list bytes)
    (e : error) (rest : Reader) (size : Z) (d : Disk) :
  FaultFree ->
  exists d',
    Put l key (reader_of blocks ++ ([], Some (ReadError e)) :: rest) size d
    = (Err (ErrWrap "failed to write data" e), d') /\
    files d' = <[keyToPath l key := concat blocks]> (files d) /\
    Exists l key d' = Ok true /\
    exists r, Get l key d' = Ok r /\ ReadAll r = Ok (concat blocks).
Proof.
  intros HF. set (path := keyToPath l key).
  assert (E1 : wrapping "failed to create directories" call d = (Ok tt, step d)).
  { unfold wrapping, call. rewrite (proj1 (HF _)). reflexivity. }
  set (d1 := with_files (<[path := []]> (files d)) (step (step d))).
  assert (E2 : wrapping "failed to create file" (create path) (step d) = (Ok tt, d1)).
  { unfold wrapping, create, bind, call. rewrite (proj1 (HF _)). reflexivity. }
  assert (Hcopy : forall d0 old, files d0 !! path = Some old ->
    exists d', copy path (reader_of blocks ++ ([], Some (ReadError e)) :: rest) d0
               = (Err e, d') /\
               files d' = <[path := old ++ concat blocks]> (files d0)).
  { induction blocks as [|blk blocks IH]; intros d0 old Hold.
    - exists d0. split; [reflexivity|]. cbn. rewrite app_nil_r. symmetry.
      apply insert_id, Hold.
    - assert (Hwrite : exists d2,
        (match blk with [] => ret tt | _ => write path blk end) d0 = (Ok tt, d2) /\
        files d2 = <[path := old ++ blk]> (files d0)).
      { destruct blk as [|b blk].
        - exists d0. split; [reflexivity|]. rewrite app_nil_r. symmetry. apply insert_id, Hold.
        - eexists. unfold write. rewrite (proj2 (HF _)). split; [reflexivity|]. cbn.
          rewrite (alter_alt_Some _ _ _ _ Hold). reflexivity. }
      destruct Hwrite as (d2 & Hw & Hf2).
      destruct (IH d2 (old ++ blk)) as (d' & Hc & Hf').
      { rewrite Hf2. apply lookup_insert_eq. }
      exists d'. split.
      + cbn [reader_of map app copy]. rewrite (bind_ok _ _ _ _ _ Hw). exact Hc.
      + rewrite Hf', Hf2, insert_insert_eq. cbn [concat]. rewrite app_assoc. reflexivity. }
  destruct (Hcopy d1 []) as (d' & E3 & Hf'); [apply lookup_insert_eq|].
  assert (Hfiles : files d' = <[path := concat blocks]> (files d)).
  { rewrite Hf'. unfold d1. cbn. apply insert_insert_eq. }
  assert (Hlook : files d' !! path = Some (concat blocks))
    by (rewrite Hfiles; apply lookup_insert_eq).
  exists d'. split.
  { unfold Put. fold path. rewrite (bind_ok _ _ _ _ _ E1), (bind_ok _ _ _ _ _ E2).
    unfold wrapping. rewrite E3. reflexivity. }
  split; [exact Hfiles|]. split.
  - unfold Exists. fold path. rewrite Hlook. reflexivity.
  - exists (reader_of [concat blocks]). unfold Get. fold path. rewrite Hlook.
    split; [reflexivity|]. cbn. rewrite app_nil_r. reflexivity.
Qed.


End BackendFacts.


Lemma LocalBackend_Put_partial_witness :
  let l := backend.mkLocalBackend "/b" in
  let d := backend.mkDisk 0 ∅ in
  exists d',
    backend.Put (H := demo_os) l "k"
      (reader_of [bytes_of_string "he"] ++ ([], Some (ReadError (ErrIO "reset"))) :: []) 5 d
    = (Err (ErrWrap "failed to write data" (ErrIO "reset")), d') /\
    backend.files d' = <[backend.keyToPath l "k" := concat [bytes_of_string "he"]]> (backend.files d) /\
    backend.Exists l "k" d' = Ok true /\
    exists r, backend.Get l "k" d' = Ok r /\ ReadAll r = Ok (concat [bytes_of_string "he"]).
Proof.
  intros l d.
  apply (LocalBackend_Put_partial (H := demo_os) l "k" [bytes_of_string "he"]
           (ErrIO "reset") [] 5 d).
  intros t. split; reflexivity.
Defined.


(** ** Keys and the password check *)

Lemma Decode_digits (b : byte) :
  hex.fromHexChar (hex.digit (byte_to_Z b / 16)) = Some (byte_to_Z b / 16) /\
  hex.fromHexChar (hex.digit (byte_to_Z b mod 16)) = Some (byte_to_Z b mod 16) /\
  byte_of_Z (Z.lor (Z.shiftl (byte_to_Z b / 16) 4) (byte_to_Z b mod 16)) = b.
Proof. destruct b; repeat split; vm_compute; reflexivity. Qed.

(** Decoding undoes encoding. *)
Lemma DecodeString_EncodeToString (bs : bytes) :
  hex.DecodeString (hex.EncodeToString bs) = (bs, None).
Proof.
  unfold hex.DecodeString. induction bs as [|b bs IH]; [reflexivity|].
  cbn [hex.EncodeToString hex.Decode].
  destruct (Decode_digits b) as (-> & -> & Hb). rewrite IH, Hb. reflexivity.
Qed.

Lemma toy_kdf_length : Argon2Length (H := toy_kdf).
Proof.
  intros password salt time memory threads keyLen Hk. cbn [argon2_IDKey toy_kdf].
  rewrite length_take.
  assert (Hc : forall k, length (concat (repeat (sha256.Sum256 (password ++ salt)) k))
                         = (32 * k)%nat).
  { induction k as [|k IH]; [reflexivity|].
    cbn [repeat concat]. rewrite length_app, Sum256_length, IH. lia. }
  rewrite Hc. pose proof (Nat.div_mod_eq (Z.to_nat keyLen) 32) as Hdiv.
  pose proof (Nat.mod_upper_bound (Z.to_nat keyLen) 32). lia.
Qed.

Section KeyFacts.
Context `{OS} `{Argon2}.
Import crypto.

(** X29 (the password check).  A header made by [NewEncryptionHeader]
    accepts the passphrase it was made with: the salt it stores in
    hexadecimal decodes to the salt given, and the hash it stores is the
    digest of the key derived from that passphrase and salt.  For a key
    derivation that returns keys of the length asked for, [NewEncryptor]
    with the same passphrase and the decoded salt succeeds without asking
    for randomness and holds that very key, so the header's hash is the
    digest of the encryptor's key. *)
Theorem VerifyPassword_accepts (salt : bytes) (passphrase : string) (w : World) :
  Argon2Length ->
  salt <> [] ->
  let h := NewEncryptionHeader salt passphrase in
  hex.DecodeString (Salt h) = (salt, None) /\
  VerifyPassword h passphrase = true /\
  exists e,
    NewEncryptor passphrase (fst (hex.DecodeString (Salt h))) w = (Ok e, w) /\
    crypto.salt e = salt /\
    length (key e) = 32%nat /\
    digest (key e) = PasswordHash h.
Proof.
  intros HL Hsalt h.
  assert (Hdec : hex.DecodeString (Salt h) = (salt, None))
    by apply DecodeString_EncodeToString.
  split; [exact Hdec|]. split.
  - unfold VerifyPassword. rewrite Hdec. cbn [fst]. apply bool_decide_eq_true. reflexivity.
  - rewrite Hdec. cbn [fst].
    assert (Hlen : length (deriveKey passphrase salt) = 32%nat).
    { pose proof (HL (bytes_of_string passphrase) salt argon2Time argon2Memory
                    argon2Threads argon2KeyLen) as Hk.
      unfold deriveKey. unfold argon2KeyLen in Hk |- *.
      apply Nat2Z.inj. rewrite Hk by lia. reflexivity. }
    exists (mkEncryptor (deriveKey passphrase salt) salt).
    split; [|auto]. unfold NewEncryptor.
    destruct salt as [|b salt]; [contradiction|].
    unfold bind, ret. rewrite Hlen. reflexivity.
Qed.

End KeyFacts.

Lemma VerifyPassword_accepts_witness :
  let salt := bytes_of_string "0123456789abcdef0123456789abcdef" in
  let h := crypto.NewEncryptionHeader (H0 := toy_kdf) salt "secret" in
  hex.DecodeString (crypto.Salt h) = (salt, None) /\
  crypto.VerifyPassword (H0 := toy_kdf) h "secret" = true /\
  exists e,
    crypto.NewEncryptor (H := demo_os) (H0 := toy_kdf) "secret"
      (fst (hex.DecodeString (crypto.Salt h))) empty_world = (Ok e, empty_world) /\
    crypto.salt e = salt /\
    length (crypto.key e) = 32%nat /\
    digest (crypto.key e) = crypto.PasswordHash h.
Proof.
  intros salt h.
  apply (VerifyPassword_accepts (H := demo_os) (H0 := toy_kdf) salt "secret" empty_world).
  - exact toy_kdf_length.
  - discriminate.
Defined.


(** ** Listing and verifying the object directory *)

Lemma drop_append a : forall b, strings.drop (String.length a) (a +:+ b) = b.
Proof. induction a as [|x a IH]; intros b; [reflexivity|]. rewrite append_cons. cbn. apply IH. Qed.

Lemma list_ascii_of_append a b :
  list_ascii_of_string (a +:+ b) = list_ascii_of_string a ++ list_ascii_of_string b.
Proof. induction a as [|x a IH]; [reflexivity|]. rewrite append_cons. cbn. rewrite IH. reflexivity. Qed.

Lemma untilSep_app l : forall rest,
  Forall (fun c => c <> filepath.Separator) l ->
  filepath.untilSep (l ++ filepath.Separator :: rest) = l.
Proof.
  induction l as [|c l IH]; intros rest Hl; cbn.
  - destruct (decide (filepath.Separator = filepath.Separator)); [reflexivity | contradiction].
  - inversion Hl as [|? ? Hc Hl']; subst.
    destruct (decide (c = filepath.Separator)); [contradiction|].
    rewrite IH by assumption. reflexivity.
Qed.

(** The last element of a path that ends in a slash and a name. *)
Lemma Base_of_name pre name :
  name <> "" ->
  Forall (fun c => c <> filepath.Separator) (list_ascii_of_string name) ->
  filepath.Base (pre +:+ "/" +:+ name) = name.
Proof.
  intros Hne Hname. unfold filepath.Base.
  destruct (decide (pre +:+ "/" +:+ name = "")) as [Hemp|_].
  { apply (f_equal String.length) in Hemp. rewrite !length_append in Hemp.
    cbn in Hemp. lia. }
  rewrite !list_ascii_of_append. cbn [list_ascii_of_string app].
  rewrite rev_app_distr. cbn [rev].
  rewrite <- app_assoc. cbn [app].
  set (r := rev (list_ascii_of_string name)).
  assert (Hr : Forall (fun c => c <> filepath.Separator) r)
    by (apply Forall_rev; exact Hname).
  assert (Hrne : r <> []).
  { intros Hnil. apply Hne. apply (f_equal (@rev ascii)) in Hnil.
    unfold r in Hnil. rewrite rev_involutive in Hnil. cbn in Hnil.
    rewrite <- (string_of_list_ascii_of_string name), Hnil. reflexivity. }
  assert (Hdrop : filepath.dropSeps (r ++ filepath.Separator :: rev (list_ascii_of_string pre))
                  = r ++ filepath.Separator :: rev (list_ascii_of_string pre)).
  { destruct r as [|c r']; [contradiction|]. cbn.
    inversion Hr; subst. destruct (decide (c = filepath.Separator)); [contradiction|reflexivity]. }
  change "/"%char with filepath.Separator. rewrite Hdrop, untilSep_app by exact Hr.
  destruct (decide (r = [])); [contradiction|].
  unfold r. rewrite rev_involutive. apply string_of_list_ascii_of_string.
Qed.

Lemma EncodeToString_no_slash bs :
  Forall (fun c => c <> filepath.Separator) (list_ascii_of_string (hex.EncodeToString bs)).
Proof.
  induction bs as [|b bs IH]; cbn [hex.EncodeToString list_ascii_of_string]; [constructor|].
  constructor; [|constructor; [|exact IH]]; destruct b; vm_compute; discriminate.
Qed.

Lemma substring_prefix_no_slash n : forall s,
  Forall (fun c => c <> filepath.Separator) (list_ascii_of_string s) ->
  Forall (fun c => c <> filepath.Separator) (list_ascii_of_string (substring 0 n s)).
Proof.
  induction n as [|n IH]; intros [|c s] Hs; cbn; try constructor.
  - inversion Hs; assumption.
  - apply IH. inversion Hs; assumption.
Qed.

(** The object path of a name of two characters or more, below a base
    path that is not empty. *)
Lemma objectPath_long c h :
  store.basePath c <> "" -> (2 <= String.length h)%nat ->
  store.objectPath c h = store.basePath c +:+ "/" +:+ substring 0 2 h +:+ "/" +:+ h.
Proof.
  intros Hb Hh. unfold store.objectPath.
  destruct (String.length h <? 2)%nat eqn:Hlt; [apply Nat.ltb_lt in Hlt; lia|].
  destruct h as [|a [|b r]]; cbn in Hh; try lia.
  cbn [substring]. replace (substring 0 0 r) with "" by (destruct r; reflexivity).
  cbn. destruct (decide (store.basePath c = "")); [contradiction|]. reflexivity.
Qed.

Lemma insertInWalkOrder_In x y : forall l,
  In y (store.insertInWalkOrder x l) <-> y = x \/ In y l.
Proof.
  induction l as [|z l IH]; cbn.
  - split; [intros [->|[]]; auto | intros [->|[]]; auto].
  - destruct (store.walksBefore _ _); cbn; [intuition congruence|].
    rewrite IH. intuition congruence.
Qed.

Lemma walkOrder_In y : forall l,
  In y (fold_right store.insertInWalkOrder [] l) <-> In y l.
Proof.
  induction l as [|x l IH]; cbn; [reflexivity|].
  rewrite insertInWalkOrder_In, IH. intuition congruence.
Qed.

Lemma drop_base base rel :
  strings.drop (String.length base + 1) ((base +:+ "/") +:+ rel) = rel.
Proof.
  replace (String.length base + 1)%nat with (String.length (base +:+ "/"))
    by (rewrite length_append; reflexivity).
  apply drop_append.
Qed.

(** The walk hands over exactly the files below the base path. *)
Lemma walkFiles_In c w rel data :
  In (rel, data) (store.walkFiles c w)
  <-> objects w !! (store.basePath c +:+ "/" +:+ rel) = Some data.
Proof.
  unfold store.walkFiles. rewrite walkOrder_In, <- list_elem_of_In, list_elem_of_omap.
  split.
  - intros [[p d] [Hin Hsome]]. apply elem_of_map_to_list in Hin. cbn [fst snd] in Hsome.
    destruct (strings.HasPrefix p (store.basePath c +:+ "/")) eqn:Hp; [|discriminate].
    apply HasPrefix_spec in Hp as [post ->]. rewrite drop_base in Hsome.
    injection Hsome as <- <-. rewrite <- append_assoc. exact Hin.
  - intros Hl. rewrite <- append_assoc in Hl.
    exists ((store.basePath c +:+ "/") +:+ rel, data). split.
    + apply elem_of_map_to_list. exact Hl.
    + cbn [fst snd].
      assert (Hp : strings.HasPrefix ((store.basePath c +:+ "/") +:+ rel)
                     (store.basePath c +:+ "/") = true)
        by (apply HasPrefix_spec; eauto).
      rewrite Hp, drop_base. reflexivity.
Qed.

Lemma List_In c w h :
  In h (store.List c w)
  <-> exists rel data,
        objects w !! (store.basePath c +:+ "/" +:+ rel) = Some data /\
        filepath.Base rel = h /\ String.length h = 64%nat.
Proof.
  unfold store.List. rewrite <- list_elem_of_In, list_elem_of_omap. split.
  - intros [[rel data] [Hin Hsome]]. cbn [fst] in Hsome.
    destruct (String.length (filepath.Base rel) =? 64)%nat eqn:Hlen; [|discriminate].
    injection Hsome as <-. exists rel, data.
    apply list_elem_of_In, walkFiles_In in Hin. apply Nat.eqb_eq in Hlen. auto.
  - intros (rel & data & Hl & <- & Hlen). exists (rel, data). split.
    + apply list_elem_of_In, walkFiles_In. exact Hl.
    + cbn [fst]. apply Nat.eqb_eq in Hlen. rewrite Hlen. reflexivity.
Qed.

Lemma Verify_In c w h :
  In h (store.Verify c w)
  <-> In h (store.List c w) /\ forall data, store.Get c h w <> Ok data.
Proof.
  unfold store.Verify, store.Get. rewrite filter_In.
  destruct (objects w !! store.objectPath c h) as [stored|].
  - destruct (decide (digest stored = h)) as [Heq|Hne].
    + rewrite bool_decide_eq_true_2 by exact Heq. cbn.
      split; [intros [_ ?]; discriminate | intros [_ Hno]; exfalso; exact (Hno stored eq_refl)].
    + rewrite bool_decide_eq_false_2 by exact Hne. cbn.
      split; intros [Hin _]; (split; [exact Hin|]); [discriminate | reflexivity].
  - split; intros [Hin _]; (split; [exact Hin|]); [discriminate | reflexivity].
Qed.

(** The object path of a digest is listed under the digest. *)
Lemma objectPath_listed c w data stored :
  store.basePath c <> "" ->
  objects w !! store.objectPath c (digest data) = Some stored ->
  In (digest data) (store.List c w).
Proof.
  intros Hb Hl. apply List_In.
  exists (substring 0 2 (digest data) +:+ "/" +:+ digest data), stored.
  rewrite objectPath_long in Hl by (rewrite ?digest_length; auto; lia).
  split; [exact Hl|]. split; [|apply digest_length].
  apply Base_of_name.
  - intros Hemp. pose proof (digest_length data) as Hlen. rewrite Hemp in Hlen. discriminate.
  - apply EncodeToString_no_slash.
Qed.

(** X30.  What [Verify] reports, for a store whose base path is not
    empty.  It reports a name exactly when a file of that name, of 64
    characters, lies anywhere below the base path and [Get] of the name
    does not return data.  For an object file at the object path of a
    digest this means: reported exactly when what the file holds no longer
    has that digest.  When every file below the base path lies at the
    object path of the digest of its own content, as [Put] writes them,
    nothing is reported and the listing holds exactly the digests of the
    files. *)
Theorem Verify_reports_damage (c : store.CAS) (w : World) :
  store.basePath c <> "" ->
  (forall h,
     In h (store.Verify c w) <->
     (exists rel data,
        objects w !! (store.basePath c +:+ "/" +:+ rel) = Some data /\
        filepath.Base rel = h /\ String.length h = 64%nat) /\
     (forall data, store.Get c h w <> Ok data)) /\
  (forall data stored,
     objects w !! store.objectPath c (digest data) = Some stored ->
     (In (digest data) (store.Verify c w) <-> digest stored <> digest data)) /\
  ((forall rel data,
      objects w !! (store.basePath c +:+ "/" +:+ rel) = Some data ->
      store.basePath c +:+ "/" +:+ rel = store.objectPath c (digest data)) ->
   store.Verify c w = [] /\
   (forall h, In h (store.List c w) <->
              exists data, h = digest data /\
                           objects w !! store.objectPath c h = Some data)).
Proof.
  intros Hb. split; [|split].
  - intros h. rewrite Verify_In, List_In. reflexivity.
  - intros data stored Hl. rewrite Verify_In. unfold store.Get. rewrite Hl. split.
    + intros [_ Hno] Heq. destruct (decide (digest stored = digest data)); [|contradiction].
      exact (Hno stored eq_refl).
    + intros Hne. split; [eapply objectPath_listed; eauto|].
      intros d. destruct (decide (digest stored = digest data)); [contradiction|discriminate].
  - intros Hsound.
    assert (Hlisted : forall h, In h (store.List c w) ->
              exists data, h = digest data /\ objects w !! store.objectPath c h = Some data).
    { intros h Hin. apply List_In in Hin as (rel & data & Hl & HB & Hlen).
      pose proof (Hsound rel data Hl) as Hp.
      rewrite objectPath_long in Hp by (rewrite ?digest_length; auto; lia).
      apply String.app_inj in Hp. apply String.app_inj in Hp. subst rel.
      rewrite Base_of_name in HB.
      - subst h. exists data. split; [reflexivity|].
        rewrite objectPath_long by (rewrite ?digest_length; auto; lia). exact Hl.
      - intros Hemp. pose proof (digest_length data) as Hd. rewrite Hemp in Hd. discriminate.
      - apply EncodeToString_no_slash. }
    split.
    + destruct (store.Verify c w) as [|h l] eqn:HV; [reflexivity|]. exfalso.
      assert (Hin : In h (store.Verify c w)) by (rewrite HV; left; reflexivity).
      apply Verify_In in Hin as [Hin Hno].
      destruct (Hlisted h Hin) as (data & -> & Hl).
      apply (Hno data). unfold store.Get. rewrite Hl.
      destruct (decide (digest data = digest data)); [reflexivity|contradiction].
    + intros h. split; [apply Hlisted|].
      intros (data & -> & Hl). eapply objectPath_listed; eauto.
Qed.

Lemma Verify_reports_damage_witness :
  let c := store.mkCAS "/r/objects" ∅ in
  let w := with_objects
             {[ store.objectPath c (digest (bytes_of_string "hello"))
                := bytes_of_string "jello" ]} empty_world in
  store.basePath c <> "" /\
  In (digest (bytes_of_string "hello")) (store.Verify c w).
Proof.
  intros c w. assert (Hb : store.basePath c <> "") by discriminate.
  split; [exact Hb|].
  destruct (Verify_reports_damage c w Hb) as (_ & Hdam & _).
  apply (Hdam (bytes_of_string "hello") (bytes_of_string "jello")).
  - apply lookup_singleton_eq.
  - vm_compute. discriminate.
Defined.
